(** * AliAnalysisTaskDimu: classification and aggregation of muon pairs

    A shallow embedding of [AliAnalysisTaskDimu.cxx] and the properties of
    its design document that can be settled on it.

    - [Double_t] values are IEEE-754 binary64 numbers ([spec_float] with
      precision 53 and maximal exponent 1024), with the comparisons and the
      rounded arithmetic of [SpecFloat].
    - [Int_t] counters are integers in [Z]; every counter of the task is
      bounded by a loop bound that is itself an [Int_t], so no increment
      wraps around.
    - [TString] values are [string]s.
    - The mergeable collection is a finite map from (identifier, object
      name) to objects.

    The first part holds the embedding, the second part the lemmas and the
    theorems. *)

From Stdlib Require Import ZArith Lia Bool Ascii String SpecFloat Sorted Permutation.
From stdpp Require Import base list strings gmap.

Local Open Scope Z_scope.

(** * Part I: the embedding *)

(** ** Double precision numbers *)

Module Dbl.

Definition prec : Z := 53.
Definition emax : Z := 1024.

Definition Double_t : Type := spec_float.

(** [x > y], [x < y], [x >= y], [x <= y] of C++; all are false when an
    operand is not a number. *)
Definition gt (x y : Double_t) : bool := SFltb y x.
Definition lt (x y : Double_t) : bool := SFltb x y.
Definition ge (x y : Double_t) : bool := SFleb y x.
Definition le (x y : Double_t) : bool := SFleb x y.

Definition add : Double_t → Double_t → Double_t := SFadd prec emax.
Definition sub : Double_t → Double_t → Double_t := SFsub prec emax.
Definition mul : Double_t → Double_t → Double_t := SFmul prec emax.
Definition div : Double_t → Double_t → Double_t := SFdiv prec emax.
Definition opp : Double_t → Double_t := SFopp.

(** Conversion of an integer ([Int_t] to [Double_t], or a literal). *)
Definition of_Z (z : Z) : Double_t := binary_normalize prec emax z 0 false.

Definition zero : Double_t := S754_zero false.

Definition is_nan (x : Double_t) : bool :=
  match x with S754_nan => true | _ => false end.

(** The values a [Double_t] variable can hold. *)
Definition valid (x : Double_t) : bool := valid_binary prec emax x.

End Dbl.

Export Dbl.

#[global] Instance spec_float_eq_dec : EqDecision spec_float.
Proof. solve_decision. Defined.

Definition is_number (x : Double_t) : Prop := is_nan x = false.

(** The numbers that are not infinite. *)
Definition is_finite (x : Double_t) : bool :=
  match x with
  | S754_zero _ | S754_finite _ _ _ => true
  | _ => false
  end.

Definition five : Double_t := of_Z 5.
Definition two : Double_t := of_Z 2.
Definition three : Double_t := of_Z 3.

(** [TMath::Pi()] returns the literal 3.14159265358979323846, that is the
    binary64 number 0x400921FB54442D18. *)
Module TMath.

Definition Pi : Double_t := S754_finite false 0x1921FB54442D18 (-51).

Definition Abs (x : Double_t) : Double_t := SFabs x.

End TMath.

(** [2.*TMath::Pi()] and [TMath::Pi()/2.] *)
Definition twoPi : Double_t := mul two TMath.Pi.
Definition halfPi : Double_t := div TMath.Pi two.

(** ** The cascading tracklet counter (UserExec, lines 345-355) *)

(** [++nTrackletsPerCut[i]] *)
Definition incr (i : nat) (nTrackletsPerCut : list Z) : list Z :=
  alter Z.succ i nTrackletsPerCut.

(** The loop on [icut] of lines 347-353: [cuts] are the thresholds from
    index [icut] on; the loop leaves at the first threshold that [dist]
    exceeds. *)
Fixpoint cut_loop (cuts : list Double_t) (icut : nat) (dist : Double_t)
         (nTrackletsPerCut : list Z) : list Z :=
  match cuts with
  | [] => nTrackletsPerCut
  | cut :: cuts' =>
      if gt dist cut then nTrackletsPerCut
      else cut_loop cuts' (S icut) dist (incr icut nTrackletsPerCut)
  end.

(** The counting of one tracklet that passed the cut on the azimuth:
    the loop on the thresholds, then the slot without threshold. *)
Definition count_tracklet (fTrackletDistCuts : list Double_t) (dist : Double_t)
           (nTrackletsPerCut : list Z) : list Z :=
  incr (length fTrackletDistCuts)
       (cut_loop fTrackletDistCuts 0 dist nTrackletsPerCut).

(** A list of thresholds is sorted in descending order when each one is at
    least the next. *)
Definition sorted_desc (T : list Double_t) : Prop :=
  Sorted (λ a b, ge a b = true) T.

(** ** Setting the thresholds (SetTrackletDistCuts, lines 125-136) *)

(** [std::sort(first, last, comp)] of the C++ library orders a range so
    that no element is preceded by one that [comp] puts after it. It is
    modelled by insertion: [x] goes before the first element that it is
    [comp]-before. *)
Section StdSort.

Context {A : Type}.
Variable comp : A → A → bool.

Fixpoint sort_insert (x : A) (l : list A) : list A :=
  match l with
  | [] => [x]
  | y :: l' => if comp x y then x :: l else y :: sort_insert x l'
  end.

Definition std_sort (l : list A) : list A := foldr sort_insert [] l.

End StdSort.

(** [std::greater<Double_t>] *)
Definition greater (x y : Double_t) : bool := gt x y.

(** The setter: the member is cleared, the first [nCuts] values of the
    array are pushed, and the member is sorted with [std::greater]. *)
Definition SetTrackletDistCuts (cuts : list Double_t) (nCuts : Z)
           (fTrackletDistCuts : list Double_t) : list Double_t :=
  let cleared : list Double_t := [] in
  std_sort greater (cleared ++ take (Z.to_nat nCuts) cuts).

(** ** The allow-list of pair types (UserExec, lines 324-327) *)

Module PairTypes.

Definition is_comma (c : ascii) : bool := Ascii.eqb c ","%char.

Definition is_newline (c : ascii) : bool := Ascii.eqb c (ascii_of_nat 10).

(** [TString::IsNull] *)
Definition IsNull (s : string) : bool :=
  match s with EmptyString => true | _ => false end.

(** The characters with a meaning of their own in a regular expression.
    [TPRegexp(Form("(^|,)%s(,|$)", pairType))] reads the label as a
    pattern; a label without these characters is a pattern that matches
    the label itself and nothing else. *)
Definition metachars : list ascii :=
  ["\"; "^"; "$"; "."; "|"; "?"; "*"; "+"; "("; ")"; "["; "]"; "{"; "}"]%char.

Fixpoint literal_pattern (label : string) : bool :=
  match label with
  | EmptyString => true
  | String c label' =>
      negb (existsb (Ascii.eqb c) metachars) && literal_pattern label'
  end.

(** [label(,|$)] at the head of [s], for a literal label; [$] is the end
    of the string, or a newline that is its last character. *)
Fixpoint match_label (label s : string) : bool :=
  match label with
  | EmptyString =>
      match s with
      | EmptyString => true
      | String c s' => is_comma c || (is_newline c && IsNull s')
      end
  | String a label' =>
      match s with
      | EmptyString => false
      | String c s' => Ascii.eqb a c && match_label label' s'
      end
  end.

(** [,label(,|$)] somewhere in [s]. *)
Fixpoint match_after_comma (label s : string) : bool :=
  match s with
  | EmptyString => false
  | String c s' =>
      (is_comma c && match_label label s') || match_after_comma label s'
  end.

(** [fSelectedPairTypes.Contains(re)]: the pattern is found at the
    start of the string or after one of its commas. This is the search for
    a label that is a literal pattern; what the regular expression of a
    label with metacharacters matches is not modelled, and the statements
    on the allow-list are for literal labels. *)
Definition Contains (fSelectedPairTypes label : string) : bool :=
  match_label label fSelectedPairTypes
  || match_after_comma label fSelectedPairTypes.

(** Lines 324-327: [false] is the [continue] that drops the pair. *)
Definition pair_is_retained (fSelectedPairTypes pairType : string) : bool :=
  if negb (IsNull fSelectedPairTypes)
  then Contains fSelectedPairTypes pairType
  else true.

(** The comma-delimited segments of the design document: the first
    segment and the list of the others. *)
Fixpoint segments (s : string) : string * list string :=
  match s with
  | EmptyString => (EmptyString, [])
  | String c s' =>
      let '(seg, rest) := segments s' in
      if is_comma c then (EmptyString, seg :: rest) else (String c seg, rest)
  end.

Definition split_comma (s : string) : list string :=
  let '(seg, rest) := segments s in seg :: rest.

Fixpoint has_comma (s : string) : bool :=
  match s with
  | EmptyString => false
  | String c s' => is_comma c || has_comma s'
  end.

Fixpoint has_newline (s : string) : bool :=
  match s with
  | EmptyString => false
  | String c s' => is_newline c || has_newline s'
  end.

End PairTypes.

Import PairTypes.

(** ** Events, tracks and the answers of the collaborators *)

(** One tracklet of [AliMultiplicity]: [GetPhi(itrk)] and [CalcDist(itrk)]. *)
Record Tracklet := {
  GetPhi : Double_t;
  CalcDist : Double_t
}.

(** [AliVParticle]: the values of the accessors that the task reads.
    [Charge] is a [Short_t]. *)
Record Track := {
  Charge : Z;
  GetLabel : Z;
  PdgCode : Z;
  GetStatusCode : Z;
  Eta : Double_t
}.

(** [TLorentzVector] of a pair, as [AliAnalysisMuonUtility::GetTrackPair]
    returns it: the values of [Pt()], [Rapidity()], [Phi()] and [M()]. *)
Record TLorentzVector := {
  Pt : Double_t;
  Rapidity : Double_t;
  Phi : Double_t;
  M : Double_t
}.

(** What the framework and the collaborators answer for one event: the
    event cuts, the track cuts, the pair cuts and the ancestor utility. *)
Record Event := {
  IsSelected : bool;
  GetMultiplicity : option (list Tracklet);
  GetSelectedTrigClassesInEvent : list string;
  GetCentrality : Double_t;
  recoTracks : list Track;
  MCEvent : option (list Track);
  TrackIsSelected : Track → bool;
  GetParticleType : Track → Z;
  GetTrackHistory : Track → string;
  GetCommonAncestor : Track → Track → Z;
  GetPairType : Z → Z → Z → string;
  GetTrackPair : Track → Track → TLorentzVector;
  TrackPtCutMatchTrigClass : Track → Track → string → bool
}.

(** [AliTrackMore] *)
Record AliTrackMore := {
  GetTrack : Track;
  fParticleType : Z;
  fHistory : string;
  fLabel : Z
}.

Inductive Step := kStepReconstructed | kStepGeneratedMC.

(** [Double_t containerInput[kNvars]], by the names of its indices. *)
Record ContainerInput := {
  kHvarPt : Double_t;
  kHvarY : Double_t;
  kHvarPhi : Double_t;
  kHvarInvMass : Double_t;
  kHcentrality : Double_t;
  kHtracklets : Double_t
}.

(** ** Mergeable objects and the collection *)

(** [THnSparse]: the bin edges of its axes and the content of its filled
    bins, by bin coordinates. *)
Record THnSparse := {
  sparse_axes : list (list Double_t);
  sparse_bins : gmap (list Z) Z
}.

(** The two kinds of objects of the task: a clone of [fSparse], and the
    [TH1D] with the one bin from 0.5 to 1.5 that counts the events. *)
Inductive Content :=
| Sparse (h : THnSparse)
| Histo1 (bin : Z).

Record TObject := {
  GetName : string;
  content : Content
}.

(** The calls that leave the task: messages, fills and the posting of the
    output. *)
Inductive Call :=
| AliError (msg : string)
| AliInfo (msg : string)
| AliInfo_collection_size
| Fill_nevents (identifier : string)
| Fill_DimuSparse (identifier : string) (containerInput : ContainerInput)
| PostData.

Record Task := {
  fSelectedPairTypes : string;
  fTrackletDistCuts : list Double_t;
  fSparse : THnSparse;
  fMergeableCollection : gmap (string * string) TObject;
  calls : list Call
}.

Definition set_collection (c : gmap (string * string) TObject) (task : Task) : Task :=
  {| fSelectedPairTypes := fSelectedPairTypes task;
     fTrackletDistCuts := fTrackletDistCuts task;
     fSparse := fSparse task;
     fMergeableCollection := c;
     calls := calls task |}.

(** The most recent call is the head of [calls]. *)
Definition call (c : Call) (task : Task) : Task :=
  {| fSelectedPairTypes := fSelectedPairTypes task;
     fTrackletDistCuts := fTrackletDistCuts task;
     fSparse := fSparse task;
     fMergeableCollection := fMergeableCollection task;
     calls := c :: calls task |}.

(** Modelled from the spec: [AliMergeableCollection::GetObject] is not
    under src/. A path and an object name address at most one object of
    the store. *)
Definition GetObject (c : gmap (string * string) TObject)
           (identifier objectName : string) : option TObject :=
  c !! (identifier, objectName).

(** Modelled from the spec: [AliMergeableCollection::Adopt] is not under
    src/. The store inserts a constructed object at its path, keeps one
    object per path, and is left unmodified when there is no object. *)
Definition Adopt (c : gmap (string * string) TObject) (identifier : string)
           (obj : option TObject) : gmap (string * string) TObject :=
  match obj with
  | None => c
  | Some o =>
      match c !! (identifier, GetName o) with
      | Some _ => c
      | None => <[(identifier, GetName o) := o]> c
      end
  end.

(** [TObject::Clone(newname)] of the template. *)
Definition Clone (h : THnSparse) (newname : string) : TObject :=
  {| GetName := newname; content := Sparse h |}.

(** [new TH1D(name, name, 1, 0.5, 1.5)] *)
Definition new_TH1D (name : string) : TObject :=
  {| GetName := name; content := Histo1 0 |}.

Definition newline : string := String (ascii_of_nat 10) EmptyString.

(** GetMergeableObject, lines 139-159: the object and the task after the
    call; [None] is the null pointer. *)
Definition GetMergeableObject (identifier objectName : string) (task : Task)
  : option TObject * Task :=
  match GetObject (fMergeableCollection task) identifier objectName with
  | Some obj => (Some obj, task)
  | None =>
      let '(obj, task1) :=
        if String.eqb objectName "DimuSparse"
        then (Some (Clone (fSparse task) objectName), task)
        else if String.eqb objectName "nevents"
        then (Some (new_TH1D objectName), task)
        else (None, call (AliError ("Unknown object " +:+ objectName +:+ newline)) task) in
      let task2 :=
        set_collection (Adopt (fMergeableCollection task1) identifier obj) task1 in
      (obj, call AliInfo_collection_size task2)
  end.

(** ** The pair observables *)

(** The product of two [Short_t] charges is an [int]. *)
Definition Int_t_wrap (z : Z) : Z := (z + 2 ^ 31) mod 2 ^ 32 - 2 ^ 31.

Definition is_Short_t (z : Z) : Prop := - 2 ^ 15 ≤ z < 2 ^ 15.

(** Line 319 *)
Definition chargeType (track track2 : Track) : string :=
  if Int_t_wrap (Charge track * Charge track2) >=? 0 then "SS" else "OS".

(** Lines 331-333: the azimuth of the pair, moved up by [2.*TMath::Pi()]
    when it is negative. *)
Definition phi_of_pair (rawPhi : Double_t) : Double_t :=
  if lt rawPhi zero then add rawPhi twoPi else rawPhi.

(** The distance in azimuth of line 344: the absolute difference of the
    azimuth of the pair and the azimuth of the tracklet. *)
Definition phi_distance (phi : Double_t) (trk : Tracklet) : Double_t :=
  TMath.Abs (sub phi (GetPhi trk)).

(** Line 344: [true] is the [continue] that leaves the tracklet out. *)
Definition tracklet_is_far (phi : Double_t) (trk : Tracklet) : bool :=
  gt (phi_distance phi trk) halfPi.

(** The loop on the tracklets, lines 343-356. *)
Definition tracklet_loop (cuts : list Double_t) (phi : Double_t)
           (tracklets : list Tracklet) (nTrackletsPerCut : list Z) : list Z :=
  foldl (λ n trk,
           if tracklet_is_far phi trk then n
           else count_tracklet cuts (CalcDist trk) n)
        nTrackletsPerCut tracklets.

(** Lines 340-357: without multiplicity object the counts are left as they
    are; [std::fill] sets them to 0 otherwise. *)
Definition count_tracklets (cuts : list Double_t) (mult : option (list Tracklet))
           (phi : Double_t) (nTrackletsPerCut : list Z) : list Z :=
  match mult with
  | Some tracklets =>
      tracklet_loop cuts phi tracklets
                    (replicate (length nTrackletsPerCut) 0)
  | None => nTrackletsPerCut
  end.

(** ** Filling the objects of the collection *)

(** An object is held by pointer: a fill through the pointer that
    [GetMergeableObject] returns changes the object of the collection. *)
Definition update_object (identifier objectName : string)
           (f : Content → Content) (task : Task) : Task :=
  set_collection
    (alter (λ o, {| GetName := GetName o; content := f (content o) |})
           (identifier, objectName) (fMergeableCollection task))
    task.

(** [TH1::Fill(1.)] on the histogram with the one bin from 0.5 to 1.5. *)
Definition TH1_Fill_1 (c : Content) : Content :=
  match c with
  | Histo1 bin => Histo1 (bin + 1)
  | Sparse h => Sparse h
  end.

(** [Float_t]: the template is a [THnSparseF] (line 201), whose bins hold
    binary32 numbers. The counts of the bins are integers; [Float_t_of_Z] is
    the binary32 number nearest to an integer, ties to even, and
    [Float_t_to_Z] reads the integer of a finite binary32 number back (a
    count is never near [2^128], from where on the nearest binary32 number
    is infinite). *)
Definition Float_t_of_Z (z : Z) : spec_float := binary_normalize 24 128 z 0 false.

Definition Float_t_to_Z (x : spec_float) : Z :=
  match x with
  | S754_finite s m e => cond_Zopp s (Z.shiftl (Zpos m) e)
  | _ => 0
  end.

(** The content of a bin after [content + 1.]: the sum is formed in double
    precision, where it is exact for a binary32 content, and stored as a
    binary32 number. *)
Definition Float_t_add1 (c : Z) : Z := Float_t_to_Z (Float_t_of_Z (c + 1)).

(** [2^24]: the first integer whose successor is not a binary32 number. *)
Definition Float_t_limit : Z := 16777216.

(** [THnSparse::Fill(x, 1.)]: 1 is added to the binary32 content of the bin
    of [x], 0 for a bin that is not filled yet. *)
Definition THnSparse_Fill (bin : list Z) (c : Content) : Content :=
  match c with
  | Sparse h =>
      Sparse {| sparse_axes := sparse_axes h;
                sparse_bins :=
                  <[bin := Float_t_add1 (default 0 (sparse_bins h !! bin))]>
                    (sparse_bins h) |}
  | Histo1 b => Histo1 b
  end.

Section Pipeline.

(** [Form("%g", val)] and [THnSparse::GetBin(x)] of ROOT. *)
Variable Form_g : Double_t → string.
Variable GetBin : list (list Double_t) → ContainerInput → list Z.

(** Line 267 *)
Definition fill_nevents (identifier : string) (task : Task) : Task :=
  let '(obj, task1) := GetMergeableObject identifier "nevents" task in
  match obj with
  | Some _ =>
      call (Fill_nevents identifier)
           (update_object identifier "nevents" TH1_Fill_1 task1)
  | None => task1
  end.

(** Line 369 *)
Definition fill_DimuSparse (identifier : string) (containerInput : ContainerInput)
           (task : Task) : Task :=
  let '(obj, task1) := GetMergeableObject identifier "DimuSparse" task in
  match obj with
  | Some o =>
      let bin :=
        match content o with
        | Sparse h => GetBin (sparse_axes h) containerInput
        | Histo1 _ => []
        end in
      call (Fill_DimuSparse identifier containerInput)
           (update_object identifier "DimuSparse" (THnSparse_Fill bin) task1)
  | None => task1
  end.

(** Lines 242-246 *)
Definition trackletDistCutsName (cuts : list Double_t) : list string :=
  ((λ val, "trackletDistCuts_" +:+ Form_g val) <$> cuts)
    ++ ["trackletDistCuts_none"].

Definition set_kHtracklets (containerInput : ContainerInput) (v : Double_t)
  : ContainerInput :=
  {| kHvarPt := kHvarPt containerInput;
     kHvarY := kHvarY containerInput;
     kHvarPhi := kHvarPhi containerInput;
     kHvarInvMass := kHvarInvMass containerInput;
     kHcentrality := kHcentrality containerInput;
     kHtracklets := v |}.

(** The body of the loop on the thresholds, lines 367-369. *)
Definition dispatch_cut (containerInput : ContainerInput)
           (trigClass pairType charge : string)
           (names : list string) (nTrackletsPerCut : list Z)
           (task : Task) (icut : nat) : Task :=
  let containerInput' :=
    set_kHtracklets containerInput (of_Z (default 0 (nTrackletsPerCut !! icut))) in
  let identifier :=
    "/" +:+ trigClass +:+ "/" +:+ default "" (names !! icut)
        +:+ "/" +:+ pairType +:+ "/" +:+ charge in
  fill_DimuSparse identifier containerInput' task.

(** The body of the loop on the trigger classes, lines 362-371. *)
Definition dispatch_trigClass (ev : Event) (istep : Step)
           (track track2 : Track) (containerInput : ContainerInput)
           (pairType charge : string)
           (nTrackletDistCuts : nat)
           (names : list string) (nTrackletsPerCut : list Z)
           (task : Task) (trigClass : string) : Task :=
  if match istep with
     | kStepReconstructed => negb (TrackPtCutMatchTrigClass ev track track2 trigClass)
     | kStepGeneratedMC => false
     end
  then task
  else foldl (dispatch_cut containerInput trigClass pairType charge
                           names nTrackletsPerCut)
             task (seq 0 (nTrackletDistCuts + 1)).

(** The body of the loop on the second track, lines 316-371: the task and
    [nTrackletsPerCut] before and after one pair. *)
Definition pair_body (ev : Event) (istep : Step) (selTrigClasses : list string)
           (nTrackletDistCuts : nat) (names : list string)
           (trackMore : AliTrackMore)
           (st : Task * list Z) (trackMore2 : AliTrackMore) : Task * list Z :=
  let '(task, nTrackletsPerCut) := st in
  let track := GetTrack trackMore in
  let track2 := GetTrack trackMore2 in
  let charge := chargeType track track2 in
  let commonAncestor := GetCommonAncestor ev track track2 in
  let pairType :=
    GetPairType ev (fParticleType trackMore) (fParticleType trackMore2)
                commonAncestor in
  if negb (pair_is_retained (fSelectedPairTypes task) pairType) then st
  else
    let dimuPair := GetTrackPair ev track track2 in
    let phi := phi_of_pair (Phi dimuPair) in
    let containerInput :=
      {| kHvarPt := Pt dimuPair;
         kHvarY := Rapidity dimuPair;
         kHvarPhi := phi;
         kHvarInvMass := M dimuPair;
         kHcentrality := GetCentrality ev;
         kHtracklets := zero |} in
    let nTrackletsPerCut' :=
      count_tracklets (fTrackletDistCuts task) (GetMultiplicity ev) phi
                      nTrackletsPerCut in
    (foldl (dispatch_trigClass ev istep track track2 containerInput
                               pairType charge nTrackletDistCuts
                               names nTrackletsPerCut')
           task selTrigClasses,
     nTrackletsPerCut').

(** The loop on the first track, lines 310-373: each selected track is
    paired with the selected tracks after it. *)
Fixpoint track_loop (ev : Event) (istep : Step) (selTrigClasses : list string)
         (nTrackletDistCuts : nat) (names : list string)
         (selectedTracks : list AliTrackMore) (st : Task * list Z)
  : Task * list Z :=
  match selectedTracks with
  | [] => st
  | trackMore :: others =>
      track_loop ev istep selTrigClasses nTrackletDistCuts names others
                 (foldl (pair_body ev istep selTrigClasses nTrackletDistCuts
                                   names trackMore)
                        st others)
  end.

(** Line 290: the selection of a track. *)
Definition isSelected (ev : Event) (istep : Step) (track : Track) : bool :=
  match istep with
  | kStepReconstructed => TrackIsSelected ev track
  | kStepGeneratedMC =>
      ((Z.abs (PdgCode track) =? 13) && (GetStatusCode track <? 10))
      && lt (Eta track) (opp (div five two))
      && gt (Eta track) (opp (of_Z 4))
  end.

(** Lines 277-305: the selected tracks, in the order of the tracks. *)
Definition select_tracks (ev : Event) (istep : Step) (tracks : list Track)
  : list AliTrackMore :=
  omap (λ it : nat * Track,
          let '(itrack, track) := it in
          if isSelected ev istep track
          then Some {| GetTrack := track;
                       fParticleType := GetParticleType ev track;
                       fHistory := GetTrackHistory ev track;
                       fLabel := match istep with
                                 | kStepReconstructed => GetLabel track
                                 | kStepGeneratedMC => Z.of_nat itrack
                                 end |}
          else None)
       (imap pair tracks).

(** The body of the loop on the steps, lines 257-373. *)
Definition step_body (ev : Event) (nTrackletDistCuts : nat) (names : list string)
           (st : Task * list Z) (istep : Step) : Task * list Z :=
  let '(task, nTrackletsPerCut) := st in
  let selTrigClasses :=
    match istep with
    | kStepReconstructed => GetSelectedTrigClassesInEvent ev
    | kStepGeneratedMC => ["generated"]
    end in
  let task1 :=
    foldl (λ t trigClass, fill_nevents ("/" +:+ trigClass) t) task selTrigClasses in
  let tracks :=
    match istep with
    | kStepReconstructed => recoTracks ev
    | kStepGeneratedMC => default [] (MCEvent ev)
    end in
  let selectedTracks := select_tracks ev istep tracks in
  if (length selectedTracks <? 2)%nat then (task1, nTrackletsPerCut)
  else track_loop ev istep selTrigClasses nTrackletDistCuts names selectedTracks
                  (task1, nTrackletsPerCut).

(** UserExec, lines 231-377. *)
Definition UserExec (ev : Event) (task : Task) : Task :=
  if negb (IsSelected ev) then task
  else
    let nTrackletDistCuts := length (fTrackletDistCuts task) in
    let nTrackletsPerCut : list Z := replicate (nTrackletDistCuts + 1) 0 in
    let names := trackletDistCutsName (fTrackletDistCuts task) in
    let steps :=
      match MCEvent ev with
      | Some _ => [kStepReconstructed; kStepGeneratedMC]
      | None => [kStepReconstructed]
      end in
    call PostData
         (foldl (step_body ev nTrackletDistCuts names)
                (task, nTrackletsPerCut) steps).1.

End Pipeline.

(** ** The template of the histograms (UserCreateOutputObjects) *)

(** Line 210: the edges of the [nbins] bins of an axis. *)
Definition bin_edges (nbins : Z) (xmin xmax : Double_t) : list Double_t :=
  (λ ibin, add xmin (div (mul (of_Z ibin) (sub xmax xmin)) (of_Z nbins)))
    <$> seqZ 0 (nbins + 1).

Definition half : Double_t := div (of_Z 1) two.

(** The six axes, lines 165-199: transverse momentum, rapidity, azimuth,
    invariant mass, centrality and tracklets. *)
Definition axes_of_fSparse : list (list Double_t) :=
  [ bin_edges 100 zero (of_Z 100);
    bin_edges 25 (opp (div (of_Z 9) two)) (opp two);
    bin_edges 36 zero twoPi;
    bin_edges 750 zero (of_Z 15);
    bin_edges 10 zero (of_Z 100);
    bin_edges 150 (opp half) (sub (of_Z 150) half) ].

Section CreateOutput.

Variable Form_g : Double_t → string.

(** Lines 201-227: the template, the empty collection and the messages. *)
Definition UserCreateOutputObjects (task : Task) : Task :=
  let trackletDistCuts :=
    foldl (λ str val, str +:+ "  " +:+ Form_g val) "" (fTrackletDistCuts task) in
  {| fSelectedPairTypes := fSelectedPairTypes task;
     fTrackletDistCuts := fTrackletDistCuts task;
     fSparse := {| sparse_axes := axes_of_fSparse; sparse_bins := ∅ |};
     fMergeableCollection := ∅;
     calls :=
       PostData
         :: AliInfo ("Cuts on tracklet distance: "
                       +:+ (if IsNull trackletDistCuts then "none"
                            else trackletDistCuts))
         :: AliInfo ("The task will store the results for "
                       +:+ (if IsNull (fSelectedPairTypes task)
                            then "all particles"
                            else fSelectedPairTypes task))
         :: calls task |}.

End CreateOutput.

(** ** The merge of the results of the workers *)

(** Modelled from the spec: [Merge] of [THnSparse], of [TH1] and of
    [AliMergeableCollection] is not under src/. The bins of two histograms
    are summed one by one; a bin of one histogram only keeps its
    content. *)
Definition merge_bins (bins other : gmap (list Z) Z) : gmap (list Z) Z :=
  union_with (λ x y, Some (x + y)) bins other.

(** Modelled from the spec: the merge of two histograms requires the
    same axes and sums the bin contents; [None] is the merge that is
    aborted. *)
Definition THnSparse_Merge (h other : THnSparse) : option THnSparse :=
  if decide (sparse_axes h = sparse_axes other)
  then Some {| sparse_axes := sparse_axes h;
               sparse_bins := merge_bins (sparse_bins h) (sparse_bins other) |}
  else None.

(** Modelled from the spec: histograms are merged with histograms, and
    counters are summed with counters. *)
Definition Content_Merge (c other : Content) : option Content :=
  match c, other with
  | Sparse h, Sparse o => Sparse <$> THnSparse_Merge h o
  | Histo1 x, Histo1 y => Some (Histo1 (x + y))
  | _, _ => None
  end.

(** Modelled from the spec: a merge that is aborted leaves the object of
    the receiving store as it is. *)
Definition TObject_Merge (obj other : TObject) : TObject :=
  match Content_Merge (content obj) (content other) with
  | Some c => {| GetName := GetName obj; content := c |}
  | None => obj
  end.

(** Modelled from the spec: the objects at the paths of both stores are
    merged, the objects at the paths of the other store only are adopted. *)
Definition Merge (store other : gmap (string * string) TObject)
  : gmap (string * string) TObject :=
  union_with (λ obj o, Some (TObject_Merge obj o)) store other.

(** A histogram without entries, on the axes of [h]. *)
Definition empty_like (h : THnSparse) : THnSparse :=
  {| sparse_axes := sparse_axes h; sparse_bins := ∅ |}.

(** Two objects fit when they have the same name and the same kind, and the
    same axes when they are histograms. *)
Definition fit (obj other : TObject) : Prop :=
  GetName obj = GetName other
  ∧ match content obj, content other with
    | Sparse h, Sparse o => sparse_axes h = sparse_axes o
    | Histo1 _, Histo1 _ => True
    | _, _ => False
    end.

(** Two stores have the same structure when the objects at the paths of
    both fit. *)
Definition same_structure (a b : gmap (string * string) TObject) : Prop :=
  ∀ k obj other, a !! k = Some obj → b !! k = Some other → fit obj other.

(** The stores of a list of workers fit pairwise. *)
Definition workers_fit (l : list (gmap (string * string) TObject)) : Prop :=
  ∀ a b, a ∈ l → b ∈ l → same_structure a b.

(** The merge stage: the stores of the workers are folded into an
    accumulator, one at a time. *)
Definition merge_workers (l : list (gmap (string * string) TObject))
  : gmap (string * string) TObject :=
  foldl Merge ∅ l.

(** ** Invariants and sample data *)

(** The collection of the task holds objects of the two names that
    [GetMergeableObject] creates, each under its own name. *)
Definition known_names (c : gmap (string * string) TObject) : Prop :=
  ∀ identifier name obj, c !! (identifier, name) = Some obj →
    name = "DimuSparse" ∨ name = "nevents".

(** Two muons of opposite charge. *)
Definition muon_plus : Track :=
  {| Charge := 1; GetLabel := 0; PdgCode := -13; GetStatusCode := 1;
     Eta := opp three |}.

Definition muon_minus : Track :=
  {| Charge := -1; GetLabel := 1; PdgCode := 13; GetStatusCode := 1;
     Eta := opp three |}.


(** A formatting of the thresholds and the bin search of ROOT's axes, for
    the sample data: bin 0 is below the axis, the bin after the last is
    above it. *)
Definition Form_g0 (val : Double_t) : string :=
  if decide (val = five) then "5"
  else if decide (val = two) then "2"
  else "?".

Fixpoint FindBin_from (edges : list Double_t) (ibin : Z) (x : Double_t) : Z :=
  match edges with
  | [] => ibin
  | edge :: edges' => if lt x edge then ibin else FindBin_from edges' (ibin + 1) x
  end.

Definition GetBin0 (axes : list (list Double_t)) (x : ContainerInput) : list Z :=
  zip_with (λ edges v, FindBin_from edges 0 v) axes
           [kHvarPt x; kHvarY x; kHvarPhi x; kHvarInvMass x;
            kHcentrality x; kHtracklets x].

(** A task with the thresholds 5 and 2 set from an unsorted array, after
    the creation of its output objects. *)
Definition task0 : Task :=
  UserCreateOutputObjects Form_g0
    {| fSelectedPairTypes := "";
       fTrackletDistCuts := SetTrackletDistCuts [two; five] 2 [];
       fSparse := {| sparse_axes := []; sparse_bins := ∅ |};
       fMergeableCollection := ∅;
       calls := [] |}.

(** An event with two muons of opposite charge, one trigger class and
    three tracklets; [event0 false None] is the event rejected by the event
    cuts, without multiplicity object. *)
Definition event0 (selected : bool) (mult : option (list Tracklet)) : Event :=
  {| IsSelected := selected;
     GetMultiplicity := mult;
     GetSelectedTrigClassesInEvent := ["CMUL7-B-NOPF-MUON"];
     GetCentrality := of_Z 42;
     recoTracks := [muon_plus; muon_minus];
     MCEvent := None;
     TrackIsSelected := λ _, true;
     GetParticleType := λ _, 0;
     GetTrackHistory := λ _, "";
     GetCommonAncestor := λ _ _, -1;
     GetPairType := λ _ _ _, "Unidentified";
     GetTrackPair := λ _ _,
       {| Pt := of_Z 2; Rapidity := opp three; Phi := opp (of_Z 1); M := three |};
     TrackPtCutMatchTrigClass := λ _ _ _, true |}.

Definition tracklets0 : list Tracklet :=
  [ {| GetPhi := five; CalcDist := three |};
    {| GetPhi := five; CalcDist := of_Z 1 |};
    {| GetPhi := of_Z 1; CalcDist := of_Z 1 |} ].

(** A fill of a histogram of the pairs with the count [v] on the axis of
    the tracklets; the other calls are not constrained. *)
Definition fills_with (v : Double_t) (c : Call) : Prop :=
  match c with
  | Fill_DimuSparse _ containerInput => kHtracklets containerInput = v
  | _ => True
  end.

(** The calls made from [task] to [task'] all satisfy [P]. *)
Definition new_calls (P : Call → Prop) (task task' : Task) : Prop :=
  ∃ new, calls task' = new ++ calls task ∧ Forall P new.

(** The fills of the histograms of the pairs among the calls. *)
Definition pair_fills (l : list Call) : list (string * ContainerInput) :=
  omap (λ c, match c with
             | Fill_DimuSparse identifier x => Some (identifier, x)
             | _ => None
             end) l.

(** The event [ev] with [mult] for its multiplicity object. *)
Definition with_multiplicity (mult : option (list Tracklet)) (ev : Event) : Event :=
  {| IsSelected := IsSelected ev;
     GetMultiplicity := mult;
     GetSelectedTrigClassesInEvent := GetSelectedTrigClassesInEvent ev;
     GetCentrality := GetCentrality ev;
     recoTracks := recoTracks ev;
     MCEvent := MCEvent ev;
     TrackIsSelected := TrackIsSelected ev;
     GetParticleType := GetParticleType ev;
     GetTrackHistory := GetTrackHistory ev;
     GetCommonAncestor := GetCommonAncestor ev;
     GetPairType := GetPairType ev;
     GetTrackPair := GetTrackPair ev;
     TrackPtCutMatchTrigClass := TrackPtCutMatchTrigClass ev |}.

Definition all_zero (n : list Z) : Prop := Forall (λ v, v = 0) n.

(** The store of a worker that recorded [n] pairs in one bin of the
    histogram at one path. *)
Definition worker_store (n : Z) : gmap (string * string) TObject :=
  {[ ("/trig0/none/signal/OS"%string, "DimuSparse"%string) :=
       {| GetName := "DimuSparse";
          content := Sparse {| sparse_axes := [[zero; five]];
                               sparse_bins := {[ [1] := n ]} |} |} ]}.

(** ** Tactics *)

(** Case analysis on the comparisons of exponents and mantissas. *)
Ltac cmp_cases :=
  repeat match goal with
  | H : context [ (?a ?= ?b)%Z ] |- _ =>
      destruct (Z.compare_spec a b); try discriminate
  | |- context [ (?a ?= ?b)%Z ] =>
      destruct (Z.compare_spec a b); try discriminate
  | H : context [ (?a ?= ?b)%positive ] |- _ =>
      destruct (Pos.compare_spec a b); try discriminate
  | |- context [ (?a ?= ?b)%positive ] =>
      destruct (Pos.compare_spec a b); try discriminate
  end.


(** * Notions for the invariants of the analysis task *)

(** ** The cascade of the counts *)

(** The counts of [L] thresholds and of the slot without threshold, after
    at most [bound] tracklets: the counts do not grow with the index of the
    threshold, none is above the count of the slot without threshold, and
    all lie between 0 and [bound]. *)
Definition cascade (L : nat) (bound : Z) (n : list Z) : Prop :=
  length n = S L
  ∧ (∀ i j vi vj, (i ≤ j)%nat → (j < L)%nat →
       n !! i = Some vi → n !! j = Some vj → vj ≤ vi)
  ∧ (∀ i vi vL, n !! i = Some vi → n !! L = Some vL → vi ≤ vL)
  ∧ (∀ i vi, n !! i = Some vi → 0 ≤ vi ≤ bound).

(** ** The pairs of the double loop *)

(** The pairs of an element of a list and an element after it, in the
    order of the loop on the first and of the loop on the second. *)
Fixpoint pairs_of {A : Type} (l : list A) : list (A * A) :=
  match l with
  | [] => []
  | x :: l' => (pair x <$> l') ++ pairs_of l'
  end.

(** ** The selected tracks *)

(** The [AliTrackMore] of the track at index [itrack], when the track is
    selected (lines 290-297). *)
Definition track_more (ev : Event) (istep : Step) (it : nat * Track)
  : option AliTrackMore :=
  let '(itrack, track) := it in
  if isSelected ev istep track
  then Some {| GetTrack := track;
               fParticleType := GetParticleType ev track;
               fHistory := GetTrackHistory ev track;
               fLabel := match istep with
                         | kStepReconstructed => GetLabel track
                         | kStepGeneratedMC => Z.of_nat itrack
                         end |}
  else None.

(** What a selected track holds, for tracks that are numbered from [k]. *)
Definition track_more_ok (ev : Event) (istep : Step) (k : nat)
           (tracks : list Track) (tm : AliTrackMore) : Prop :=
  fParticleType tm = GetParticleType ev (GetTrack tm)
  ∧ fHistory tm = GetTrackHistory ev (GetTrack tm)
  ∧ match istep with
    | kStepReconstructed => fLabel tm = GetLabel (GetTrack tm)
    | kStepGeneratedMC =>
        ∃ i : nat, fLabel tm = Z.of_nat (k + i)
                   ∧ tracks !! i = Some (GetTrack tm)
    end.

(** ** The objects of the collection and the calls of a task *)

(** An object under the name [name] of a task whose template has the axes
    [axes]: it bears its name; under the name of the histograms of the pairs
    it is a histogram on the axes of the template, under the name of the
    event counters it is a counter that is not negative. *)
Definition object_ok (axes : list (list Double_t)) (name : string) (o : TObject)
  : Prop :=
  GetName o = name
  ∧ ((name = "DimuSparse"%string ∧ ∃ h, content o = Sparse h ∧ sparse_axes h = axes)
     ∨ (name = "nevents"%string ∧ ∃ z, content o = Histo1 z ∧ 0 ≤ z)).

Definition task_ok (task : Task) : Prop :=
  ∀ identifier name o,
    fMergeableCollection task !! (identifier, name) = Some o →
    object_ok (sparse_axes (fSparse task)) name o.

(** The configuration and the template of two tasks are the same. *)
Definition same_config (task task' : Task) : Prop :=
  fSelectedPairTypes task' = fSelectedPairTypes task
  ∧ fTrackletDistCuts task' = fTrackletDistCuts task
  ∧ fSparse task' = fSparse task.

(** The content of the event counter at a path, 0 without counter. *)
Definition nevents_at (task : Task) (identifier : string) : Z :=
  match fMergeableCollection task !! (identifier, "nevents"%string) with
  | Some o =>
      match content o with
      | Histo1 z => z
      | Sparse _ => 0
      end
  | None => 0
  end.

(** The paths of the fills of the event counters among calls. *)
Definition nevents_fills (l : list Call) : list string :=
  omap (λ c, match c with
             | Fill_nevents identifier => Some identifier
             | _ => None
             end) l.

(** The number of occurrences of a path in a list of paths. *)
Definition occurrences (identifier : string) (l : list string) : Z :=
  Z.of_nat (length (filter (λ i, i = identifier) l)).

(** What a part of the processing of an event keeps: the configuration and
    the template; the objects of the collection stay well-formed; each
    event counter moves with the fills of the counter. *)
Definition step_ok (t t' : Task) : Prop :=
  same_config t t'
  ∧ (∃ new, calls t' = new ++ calls t)
  ∧ (task_ok t →
     task_ok t'
     ∧ (∀ identifier,
          nevents_at t' identifier
          - occurrences identifier (nevents_fills (calls t'))
          = nevents_at t identifier
            - occurrences identifier (nevents_fills (calls t)))).

(** The processing of a list of events, one after the other. *)
Definition run (Form_g : Double_t → string)
           (GetBin : list (list Double_t) → ContainerInput → list Z)
           (events : list Event) (task : Task) : Task :=
  foldl (λ t ev, UserExec Form_g GetBin ev t) task events.

(** ** The steps of an event *)

(** The steps of an event (line 255), the trigger classes of a step (lines
    257-263) and its tracks (lines 270 and 278). *)
Definition steps_of (ev : Event) : list Step :=
  match MCEvent ev with
  | Some _ => [kStepReconstructed; kStepGeneratedMC]
  | None => [kStepReconstructed]
  end.

Definition selTrigClasses_of (ev : Event) (istep : Step) : list string :=
  match istep with
  | kStepReconstructed => GetSelectedTrigClassesInEvent ev
  | kStepGeneratedMC => ["generated"]
  end.

Definition tracks_of (ev : Event) (istep : Step) : list Track :=
  match istep with
  | kStepReconstructed => recoTracks ev
  | kStepGeneratedMC => default [] (MCEvent ev)
  end.

(** The path of the event counter of a trigger class (line 266). *)
Definition nevents_path (trigClass : string) : string := "/" +:+ trigClass.

(** ** The fills of the histograms of the pairs, pair by pair *)

(** The name of the threshold at index [icut] (lines 242-246): the name of
    the slot without threshold after the last threshold. *)
Definition cut_name (Form_g : Double_t → string) (cuts : list Double_t)
           (icut : nat) : string :=
  match cuts !! icut with
  | Some val => "trackletDistCuts_" +:+ Form_g val
  | None => "trackletDistCuts_none"
  end.

(** The fills that one pair of selected tracks gives in a step, in the
    order of the fills, from the pair alone: the counts of the tracklets
    are those of [count_tracklets] from counts at 0. *)
Definition fills_of_pair (Form_g : Double_t → string) (ev : Event) (task : Task)
           (istep : Step) (p : AliTrackMore * AliTrackMore)
  : list (string * ContainerInput) :=
  let track := GetTrack p.1 in
  let track2 := GetTrack p.2 in
  let pairType :=
    GetPairType ev (fParticleType p.1) (fParticleType p.2)
                (GetCommonAncestor ev track track2) in
  if pair_is_retained (fSelectedPairTypes task) pairType then
    let dimuPair := GetTrackPair ev track track2 in
    let phi := phi_of_pair (Phi dimuPair) in
    let n :=
      count_tracklets (fTrackletDistCuts task) (GetMultiplicity ev) phi
                      (replicate (length (fTrackletDistCuts task) + 1) 0) in
    trigClass ← selTrigClasses_of ev istep;
    if match istep with
       | kStepReconstructed => TrackPtCutMatchTrigClass ev track track2 trigClass
       | kStepGeneratedMC => true
       end
    then
      (λ icut : nat,
         ("/" +:+ trigClass +:+ "/" +:+ cut_name Form_g (fTrackletDistCuts task) icut
              +:+ "/" +:+ pairType +:+ "/" +:+ chargeType track track2,
          {| kHvarPt := Pt dimuPair;
             kHvarY := Rapidity dimuPair;
             kHvarPhi := phi;
             kHvarInvMass := M dimuPair;
             kHcentrality := GetCentrality ev;
             kHtracklets := of_Z (default 0 (n !! icut)) |}))
        <$> seq 0 (length (fTrackletDistCuts task) + 1)
    else []
  else [].

(** The fills of an event: those of the pairs of selected tracks of each
    of its steps. *)
Definition fills_of_event (Form_g : Double_t → string) (ev : Event) (task : Task)
  : list (string * ContainerInput) :=
  istep ← steps_of ev;
  p ← pairs_of (select_tracks ev istep (tracks_of ev istep));
  fills_of_pair Form_g ev task istep p.

(** What the loops of an event keep of the task and of the counts: the
    configuration of [task0]; one count for each threshold and one for the
    slot without threshold; counts at 0 without multiplicity object. *)
Definition loop_inv (ev : Event) (task0 : Task) (st : Task * list Z) : Prop :=
  same_config task0 st.1
  ∧ length st.2 = (length (fTrackletDistCuts task0) + 1)%nat
  ∧ (GetMultiplicity ev = None →
     st.2 = replicate (length (fTrackletDistCuts task0) + 1) 0).

(** An event with one muon. *)
Definition event1 : Event :=
  {| IsSelected := true;
     GetMultiplicity := Some tracklets0;
     GetSelectedTrigClassesInEvent := ["CMUL7-B-NOPF-MUON"];
     GetCentrality := of_Z 42;
     recoTracks := [muon_plus];
     MCEvent := None;
     TrackIsSelected := λ _, true;
     GetParticleType := λ _, 0;
     GetTrackHistory := λ _, "";
     GetCommonAncestor := λ _ _, -1;
     GetPairType := λ _ _ _, "Unidentified";
     GetTrackPair := λ _ _,
       {| Pt := of_Z 2; Rapidity := opp three; Phi := opp (of_Z 1); M := three |};
     TrackPtCutMatchTrigClass := λ _ _ _, true |}.

(** ** The contents of the histograms after the events *)

(** The content of a bin of the histogram of the pairs at a path, 0
    without histogram. *)
Definition bin_at (task : Task) (identifier : string) (bin : list Z) : Z :=
  match fMergeableCollection task !! (identifier, "DimuSparse"%string) with
  | Some o =>
      match content o with
      | Sparse h => default 0 (sparse_bins h !! bin)
      | Histo1 _ => 0
      end
  | None => 0
  end.

(** The number of the fills at a path that fall in a bin of the axes. *)
Definition fills_in (GetBin : list (list Double_t) → ContainerInput → list Z)
           (axes : list (list Double_t)) (identifier : string) (bin : list Z)
           (l : list (string * ContainerInput)) : Z :=
  Z.of_nat (length (filter (λ f, f.1 = identifier ∧ GetBin axes f.2 = bin) l)).

(** What a part of the processing of an event keeps, bin by bin: a bin
    that holds a count [c], or [Float_t_limit] when [c] is above it, holds
    afterwards the count [c] and the fills that fell in it, or
    [Float_t_limit] when that is above it. *)
Definition bins_ok (GetBin : list (list Double_t) → ContainerInput → list Z)
           (t t' : Task) : Prop :=
  step_ok t t'
  ∧ (task_ok t → sparse_bins (fSparse t) = ∅ →
     ∀ identifier bin (c : Z), 0 ≤ c →
       bin_at t identifier bin = Z.min c Float_t_limit →
       bin_at t' identifier bin
       = Z.min (c + (fills_in GetBin (sparse_axes (fSparse t)) identifier bin
                              (pair_fills (calls t'))
                     - fills_in GetBin (sparse_axes (fSparse t)) identifier bin
                                (pair_fills (calls t))))
               Float_t_limit).

(** The paths of the event counters that an event fills (lines 257-268). *)
Definition nevents_of_event (ev : Event) : list string :=
  istep ← steps_of ev; nevents_path <$> selTrigClasses_of ev istep.

(** The fills of the events that the event cuts select. *)
Definition fills_of_run (Form_g : Double_t → string) (events : list Event)
           (task : Task) : list (string * ContainerInput) :=
  ev ← events; if IsSelected ev then fills_of_event Form_g ev task else [].

Definition nevents_of_run (events : list Event) : list string :=
  ev ← events; if IsSelected ev then nevents_of_event ev else [].

(** ** The axes of the template *)

(** The number of bins and the limits of the six axes (lines 165-188). *)
Definition axis_bounds : list (Z * Double_t * Double_t) :=
  [ (100, zero, of_Z 100);
    (25, opp (div (of_Z 9) two), opp two);
    (36, zero, twoPi);
    (750, zero, of_Z 15);
    (10, zero, of_Z 100);
    (150, opp half, sub (of_Z 150) half) ].

(** Each edge is below the next. *)
Fixpoint increasing (l : list Double_t) : bool :=
  match l with
  | x :: ((y :: _) as l') => lt x y && increasing l'
  | _ => true
  end.

(** ** The merge of the collections of two tasks *)

(** The task [t1] after the merge of the collection of [t2] into its
    collection. *)
Definition merged (t1 t2 : Task) : Task :=
  set_collection (Merge (fMergeableCollection t1) (fMergeableCollection t2)) t1.

(** ** The labels of the pair types *)

(** The pair-type labels of an event are literal patterns: the allow-list
    is searched for the label itself (line 325 reads the label as a
    regular expression). *)
Definition literal_labels (ev : Event) : Prop :=
  ∀ type1 type2 commonAncestor,
    literal_pattern (GetPairType ev type1 type2 commonAncestor) = true.

(** ** The angular distance of the design document *)


(** * Part II: lemmas and theorems *)

(** ** Order lemmas on binary64 comparisons *)

Lemma SFcompare_finite_pos m1 e1 m2 e2 :
  SFcompare (S754_finite false m1 e1) (S754_finite false m2 e2) =
  Some (match e1 ?= e2 with Lt => Lt | Gt => Gt | Eq => (m1 ?= m2)%positive end).
Proof. reflexivity. Qed.

Lemma SFcompare_finite_neg m1 e1 m2 e2 :
  SFcompare (S754_finite true m1 e1) (S754_finite true m2 e2) =
  Some (match e1 ?= e2 with Lt => Gt | Gt => Lt | Eq => CompOpp (m1 ?= m2)%positive end).
Proof. reflexivity. Qed.

(** If [d] exceeds [a] and [a] is at least [b], then [d] exceeds [b]. *)
Lemma gt_ge_trans (d a b : Double_t) :
  gt d a = true -> ge a b = true -> gt d b = true.
Proof.
  unfold gt, ge, SFltb, SFleb.
  destruct a as [sa|sa| |sa ma ea], b as [sb|sb| |sb mb eb], d as [sd|sd| |sd md ed];
    try destruct sa; try destruct sb; try destruct sd;
    try discriminate; try reflexivity;
    rewrite ?SFcompare_finite_pos, ?SFcompare_finite_neg;
    intros H1 H2; cmp_cases; simpl in *; try discriminate; try reflexivity;
    subst; try lia.
Qed.

(** ** The counter on sorted thresholds *)

Lemma lookup_incr_eq (i : nat) (n : list Z) : incr i n !! i = Z.succ <$> n !! i.
Proof. unfold incr. apply list_lookup_alter_eq. Qed.

Lemma lookup_incr_ne (i j : nat) (n : list Z) : i ≠ j → incr i n !! j = n !! j.
Proof. unfold incr. intros. by apply list_lookup_alter_ne. Qed.

Lemma length_incr (i : nat) (n : list Z) : length (incr i n) = length n.
Proof. unfold incr. apply length_alter. Qed.

Lemma length_cut_loop cuts icut d n : length (cut_loop cuts icut d n) = length n.
Proof.
  revert icut n. induction cuts as [|c cuts IH]; intros icut n; simpl; [done|].
  destruct (gt d c); [done|]. by rewrite IH, length_incr.
Qed.

(** Below the current index the loop changes nothing. *)
Lemma cut_loop_below cuts icut d n (j : nat) :
  (j < icut)%nat → cut_loop cuts icut d n !! j = n !! j.
Proof.
  revert icut n. induction cuts as [|c cuts IH]; intros icut n Hj; simpl; [done|].
  destruct (gt d c); [done|].
  rewrite IH by lia. apply lookup_incr_ne. lia.
Qed.

(** Once a threshold of a sorted list is exceeded, so are all later ones. *)
Lemma gt_sorted_tail (d c : Double_t) (cuts : list Double_t) :
  sorted_desc (c :: cuts) → gt d c = true → Forall (λ t, gt d t = true) (c :: cuts).
Proof.
  revert c. induction cuts as [|c' cuts IH]; intros c Hs Hc.
  - by constructor.
  - constructor; [done|]. apply IH.
    + by inversion Hs.
    + inversion Hs as [|? ? _ Hhd]; subst. inversion Hhd; subst.
      by eapply gt_ge_trans.
Qed.

(** On sorted thresholds the loop increments exactly the slots of the
    thresholds that [d] does not exceed. *)
Lemma cut_loop_sorted cuts icut d n (k : nat) (t : Double_t) :
  sorted_desc cuts → cuts !! k = Some t →
  cut_loop cuts icut d n !! (icut + k)%nat =
  if gt d t then n !! (icut + k)%nat else Z.succ <$> n !! (icut + k)%nat.
Proof.
  revert icut n k. induction cuts as [|c cuts IH]; intros icut n k Hs Hk; [done|].
  simpl. destruct (gt d c) eqn:Hc.
  - pose proof (gt_sorted_tail d c cuts Hs Hc) as Hall.
    rewrite Forall_lookup in Hall. by rewrite (Hall k t Hk).
  - destruct k as [|k]; simpl in Hk.
    + injection Hk as <-. rewrite Hc, Nat.add_0_r.
      rewrite cut_loop_below by lia. apply lookup_incr_eq.
    + replace (icut + S k)%nat with (S icut + k)%nat by lia.
      rewrite (IH (S icut) (incr icut n) k); [|by inversion Hs|done].
      rewrite lookup_incr_ne by lia. done.
Qed.

(** Beyond the thresholds the loop changes nothing. *)
Lemma cut_loop_above cuts icut d n (j : nat) :
  (icut + length cuts ≤ j)%nat → cut_loop cuts icut d n !! j = n !! j.
Proof.
  revert icut n. induction cuts as [|c cuts IH]; intros icut n Hj; simpl in *; [done|].
  destruct (gt d c); [done|].
  rewrite IH by lia. apply lookup_incr_ne. lia.
Qed.

(** The slot of a threshold of a sorted list. *)
Lemma count_tracklet_lookup (T : list Double_t) (d : Double_t) (n : list Z)
      (i : nat) (t : Double_t) :
  sorted_desc T → T !! i = Some t →
  count_tracklet T d n !! i = if gt d t then n !! i else Z.succ <$> n !! i.
Proof.
  intros Hs Hi. unfold count_tracklet.
  rewrite lookup_incr_ne by (apply lookup_lt_Some in Hi; lia).
  by apply (cut_loop_sorted T 0%nat d n i t).
Qed.

(** The slot without threshold. *)
Lemma count_tracklet_last (T : list Double_t) (d : Double_t) (n : list Z) :
  count_tracklet T d n !! length T = Z.succ <$> n !! length T.
Proof.
  unfold count_tracklet.
  rewrite lookup_incr_eq, cut_loop_above by (simpl; lia). done.
Qed.

Lemma length_count_tracklet (T : list Double_t) (d : Double_t) (n : list Z) :
  length (count_tracklet T d n) = length n.
Proof. unfold count_tracklet. by rewrite length_incr, length_cut_loop. Qed.

(** C1. For thresholds [T] sorted in descending order and a hit distance
    [d], the counter increments the slot of threshold [i] exactly when [d]
    does not exceed threshold [i], and always increments the last,
    unconditional slot. For thresholds 5.0, 2.0 and distance 3.0 the counts
    of one hit are 1, 0, 1; without thresholds there is the unconditional
    slot only. *)
Theorem cascading_counter_spec (T : list Double_t) (d : Double_t) :
  sorted_desc T →
  (∀ (n : list Z) (i : nat) (t : Double_t), T !! i = Some t →
     count_tracklet T d n !! i = if gt d t then n !! i else Z.succ <$> n !! i)
  ∧ (∀ n : list Z, count_tracklet T d n !! length T = Z.succ <$> n !! length T)
  ∧ count_tracklet T d (replicate (S (length T)) 0)
    = ((λ t, if gt d t then 0 else 1) <$> T) ++ [1]
  ∧ count_tracklet [five; two] three [0; 0; 0] = [1; 0; 1]
  ∧ count_tracklet [] d [0] = [1].
Proof.
  intros Hs.
  split; [intros n i t; by apply count_tracklet_lookup|].
  split; [intros n; apply count_tracklet_last|].
  split; [|split; reflexivity].
  apply list_eq. intros i.
  destruct (T !! i) as [t|] eqn:Hi.
  - rewrite (count_tracklet_lookup T d _ i t Hs Hi).
    pose proof (lookup_lt_Some _ _ _ Hi) as Hlt.
    rewrite lookup_app_l by (rewrite length_fmap; lia).
    rewrite list_lookup_fmap, Hi, lookup_replicate_2 by lia.
    simpl. destruct (gt d t); reflexivity.
  - apply lookup_ge_None in Hi.
    destruct (decide (i = length T)) as [->|Hne].
    + rewrite count_tracklet_last. rewrite lookup_replicate_2 by lia.
      rewrite lookup_app_r by (rewrite length_fmap; lia).
      rewrite length_fmap, Nat.sub_diag. done.
    + rewrite !(lookup_ge_None_2 _ i); [done| |].
      * rewrite length_app, length_fmap. simpl. lia.
      * rewrite length_count_tracklet, length_replicate. lia.
Qed.

Lemma cascading_counter_spec_witness :
  sorted_desc [five; two]
  ∧ count_tracklet [five; two] three (replicate 3 0) = [1; 0; 1].
Proof.
  assert (Hs : sorted_desc [five; two]).
  { repeat constructor. }
  split; [exact Hs|].
  exact (proj1 (proj2 (proj2 (cascading_counter_spec [five; two] three Hs)))).
Defined.

(** ** The sort of the thresholds *)

Lemma sort_insert_Permutation {A} (comp : A → A → bool) x l :
  sort_insert comp x l ≡ₚ x :: l.
Proof.
  induction l as [|y l IH]; simpl; [done|].
  destruct (comp x y); [done|]. rewrite IH. apply Permutation_swap.
Qed.

Lemma std_sort_Permutation {A} (comp : A → A → bool) l : std_sort comp l ≡ₚ l.
Proof.
  induction l as [|x l IH]; simpl; [done|].
  rewrite sort_insert_Permutation. by constructor.
Qed.

Lemma gt_ge (x y : Double_t) : gt x y = true → ge x y = true.
Proof.
  unfold gt, ge, SFltb, SFleb. by destruct (SFcompare y x) as [[]|].
Qed.

Lemma SFcompare_swap (x y : Double_t) :
  SFcompare x y = CompOpp <$> SFcompare y x.
Proof.
  destruct x as [sx|sx| |sx mx ex], y as [sy|sy| |sy my ey];
    try destruct sx; try destruct sy; try reflexivity;
    rewrite ?SFcompare_finite_pos, ?SFcompare_finite_neg; simpl;
    rewrite (Z.compare_antisym ex ey), (Pos.compare_antisym mx my);
    destruct (ex ?= ey); simpl; try reflexivity;
    destruct (mx ?= my)%positive; reflexivity.
Qed.

Lemma SFcompare_number (x y : Double_t) :
  is_nan x = false → is_nan y = false → is_Some (SFcompare x y).
Proof.
  destruct x as [| | |], y as [| | |]; simpl; intros; try discriminate; eauto.
Qed.

(** Among numbers the order is total. *)
Lemma not_gt_ge (x y : Double_t) :
  is_nan x = false → is_nan y = false → gt x y = false → ge y x = true.
Proof.
  intros Hx Hy. unfold gt, ge, SFltb, SFleb.
  destruct (SFcompare_number x y Hx Hy) as [c Hc].
  rewrite Hc, SFcompare_swap, Hc. by destruct c.
Qed.

Lemma sort_insert_HdRel (a x : Double_t) (l : list Double_t) :
  ge a x = true → HdRel (λ a b, ge a b = true) a l →
  HdRel (λ a b, ge a b = true) a (sort_insert greater x l).
Proof.
  intros Hax Hl. destruct l as [|y l]; simpl; [by constructor|].
  destruct (greater x y); constructor; [done|]. by inversion Hl.
Qed.

Lemma sort_insert_sorted (x : Double_t) (l : list Double_t) :
  is_nan x = false → Forall (λ y, is_nan y = false) l →
  sorted_desc l → sorted_desc (sort_insert greater x l).
Proof.
  intros Hx Hl Hs. induction l as [|y l IH]; simpl.
  - repeat constructor.
  - destruct (greater x y) eqn:Hxy.
    + constructor; [done|]. constructor. by apply gt_ge.
    + inversion Hl; subst. inversion Hs; subst.
      constructor; [by apply IH|].
      apply sort_insert_HdRel; [|done]. by apply not_gt_ge.
Qed.

Lemma std_sort_sorted (l : list Double_t) :
  Forall (λ y, is_nan y = false) l → sorted_desc (std_sort greater l).
Proof.
  induction l as [|x l IH]; intros Hl; simpl.
  - constructor.
  - inversion Hl; subst. apply sort_insert_sorted; [done| |by apply IH].
    by rewrite (std_sort_Permutation greater l).
Qed.


(** C4 (amended). For every input array of numbers, unsorted or with
    duplicate values, the setter stores the first [nCuts] values sorted in
    descending order; the stored list is a permutation of these values, so
    duplicate values are kept. *)
Theorem SetTrackletDistCuts_sorted_permutation
        (cuts : list Double_t) (nCuts : Z) (old : list Double_t) :
  Forall is_number cuts →
  sorted_desc (SetTrackletDistCuts cuts nCuts old)
  ∧ SetTrackletDistCuts cuts nCuts old ≡ₚ take (Z.to_nat nCuts) cuts.
Proof.
  intros Hnum. unfold SetTrackletDistCuts. simpl. split.
  - apply std_sort_sorted. by apply Forall_take.
  - apply std_sort_Permutation.
Qed.

Lemma SetTrackletDistCuts_sorted_permutation_witness :
  Forall is_number [two; five; two]
  ∧ SetTrackletDistCuts [two; five; two] 3 [three] = [five; two; two]
  ∧ sorted_desc (SetTrackletDistCuts [two; five; two] 3 [three]).
Proof.
  assert (Hnum : Forall is_number [two; five; two]) by (repeat constructor).
  split; [exact Hnum|]. split; [reflexivity|].
  exact (proj1 (SetTrackletDistCuts_sorted_permutation
                  [two; five; two] 3 [three] Hnum)).
Defined.

(** C4 as stated fails: an array with a duplicate value is stored with the
    duplicate. *)
Lemma SetTrackletDistCuts_keeps_duplicates :
  SetTrackletDistCuts [two; two] 2 [] = [two; two]
  ∧ ¬ NoDup (SetTrackletDistCuts [two; two] 2 []).
Proof.
  split; [reflexivity|].
  change (SetTrackletDistCuts [two; two] 2 []) with [two; two].
  rewrite NoDup_cons. intros [Hnotin _]. apply Hnotin. by left.
Qed.


(** ** The allow-list of pair types *)

Lemma segments_nonempty_fst (c : ascii) (s : string) :
  is_comma c = false → (segments (String c s)).1 = String c (segments s).1.
Proof. simpl. intros ->. by destruct (segments s). Qed.

Lemma segments_comma_fst (c : ascii) (s : string) :
  is_comma c = true → (segments (String c s)).1 = EmptyString.
Proof. simpl. intros ->. by destruct (segments s). Qed.

(** A label without comma is found at the head of a string without
    newline exactly when it is the first segment of the string. *)
Lemma match_label_first_segment (label s : string) :
  has_comma label = false → has_newline s = false →
  match_label label s = true ↔ (segments s).1 = label.
Proof.
  revert s. induction label as [|a label IH]; intros s Hl Hs.
  - destruct s as [|c s]; simpl; [done|].
    simpl in Hs. apply orb_false_iff in Hs as [-> _].
    rewrite andb_false_l, orb_false_r.
    destruct (segments s) as [seg rest], (is_comma c); simpl; split; congruence.
  - simpl in Hl. apply orb_false_iff in Hl as [Ha Hl].
    destruct s as [|c s]; [simpl; split; congruence|].
    simpl in Hs. apply orb_false_iff in Hs as [_ Hs].
    cbn [match_label]. rewrite andb_true_iff, (IH s Hl Hs).
    destruct (Ascii.eqb_spec a c) as [->|Hne].
    + rewrite segments_nonempty_fst by done. split; [by intros [_ ->]|].
      intros [= ->]. done.
    + split; [intros [? _]; done|].
      destruct (is_comma c) eqn:Hc.
      * rewrite segments_comma_fst by done. done.
      * rewrite segments_nonempty_fst by done. intros [= ? ?]. done.
Qed.

(** A label without comma is found after a comma of [s] exactly when it is
    one of the segments of [s] after the first. *)
Lemma match_after_comma_segments (label s : string) :
  has_comma label = false → has_newline s = false →
  match_after_comma label s = true ↔ label ∈ (segments s).2.
Proof.
  intros Hl. induction s as [|c s IH]; intros Hs; simpl.
  - split; [done|]. by intros ?%elem_of_nil.
  - simpl in Hs. apply orb_false_iff in Hs as [_ Hs].
    rewrite orb_true_iff, andb_true_iff, (IH Hs),
      (match_label_first_segment label s Hl Hs).
    destruct (segments s) as [seg rest], (is_comma c); simpl.
    + rewrite elem_of_cons. split; [intros [[_ ->]| ?]|intros [->| ?]]; eauto.
    + split; [intros [[? _]| ?]|]; eauto; done.
Qed.

Lemma Contains_split_comma (selected label : string) :
  has_comma label = false → has_newline selected = false →
  Contains selected label = true ↔ label ∈ split_comma selected.
Proof.
  intros Hl Hs. unfold Contains, split_comma.
  rewrite orb_true_iff, (match_label_first_segment _ _ Hl Hs),
    (match_after_comma_segments _ _ Hl Hs).
  destruct (segments selected) as [seg rest]; simpl.
  rewrite elem_of_cons. split; intros [?|?]; eauto.
Qed.

(** C5 (amended). When the allow-list is set, on one line, a pair whose
    label is a literal pattern and holds no comma is dropped exactly when
    its label equals none of the comma-delimited segments of the list; when
    the allow-list is empty, every pair is retained, whatever its label. *)
Theorem pair_is_retained_exact_segment (fSelectedPairTypes : string) :
  (fSelectedPairTypes ≠ EmptyString →
   has_newline fSelectedPairTypes = false →
   ∀ pairType : string,
     literal_pattern pairType = true →
     has_comma pairType = false →
     pair_is_retained fSelectedPairTypes pairType = false
     ↔ pairType ∉ split_comma fSelectedPairTypes)
  ∧ (fSelectedPairTypes = EmptyString →
     ∀ pairType : string, pair_is_retained fSelectedPairTypes pairType = true).
Proof.
  unfold pair_is_retained. split.
  - intros Hne Hs pairType _ Hl.
    destruct fSelectedPairTypes as [|c s]; [done|]. simpl negb. cbv iota.
    rewrite <- (Contains_split_comma (String c s) pairType Hl Hs).
    by destruct (Contains (String c s) pairType).
  - by intros -> pairType.
Qed.

Lemma pair_is_retained_exact_segment_witness :
  pair_is_retained "Charm,Beauty" "Char" = false
  ∧ pair_is_retained "Charm,Beauty" "Beauty" = true
  ∧ pair_is_retained "" "a.c,(" = true.
Proof.
  split; [|split].
  - apply (proj1 (pair_is_retained_exact_segment "Charm,Beauty")
                 ltac:(discriminate) eq_refl "Char" eq_refl eq_refl).
    vm_compute. intros H. repeat (apply elem_of_cons in H as [H|H]; [discriminate|]).
    by apply elem_of_nil in H.
  - destruct (pair_is_retained "Charm,Beauty" "Beauty") eqn:E; [done|].
    apply (proj1 (pair_is_retained_exact_segment "Charm,Beauty")
                 ltac:(discriminate) eq_refl "Beauty" eq_refl eq_refl) in E.
    exfalso. apply E. vm_compute. apply elem_of_cons. right. apply elem_of_cons. by left.
  - exact (proj2 (pair_is_retained_exact_segment "") eq_refl "a.c,(").
Defined.

(** C5 as stated fails for a label that holds a comma: the label [a,b]
    equals neither segment of the allow-list [a,b], and the pair is
    retained. *)
Lemma pair_is_retained_comma_label :
  split_comma "a,b" = ["a"; "b"]%string
  ∧ ("a,b"%string ∉ split_comma "a,b")
  ∧ pair_is_retained "a,b" "a,b" = true.
Proof.
  split; [reflexivity|]. split; [|reflexivity].
  change (split_comma "a,b") with ["a"; "b"]%string.
  intros H. repeat (apply elem_of_cons in H as [H|H]; [discriminate|]).
  by apply elem_of_nil in H.
Qed.

(** ** The charge label *)

Lemma Int_t_wrap_small (z : Z) : - 2 ^ 31 ≤ z < 2 ^ 31 → Int_t_wrap z = z.
Proof.
  intros Hz. unfold Int_t_wrap.
  rewrite Z.mod_small by lia. lia.
Qed.

Lemma charge_product_small (a b : Z) :
  is_Short_t a → is_Short_t b → Int_t_wrap (a * b) = a * b.
Proof.
  unfold is_Short_t. intros Ha Hb. apply Int_t_wrap_small.
  change (2 ^ 15) with 32768 in *. change (2 ^ 31) with 2147483648. nia.
Qed.

(** C7. The charge label of a pair is one of two values; it is the
    same-sign label exactly when the product of the two charges is at least
    0; the pair taken in the other order has the same label. *)
Theorem chargeType_spec (A B : Track) :
  is_Short_t (Charge A) → is_Short_t (Charge B) →
  (chargeType A B = "SS" ∨ chargeType A B = "OS")
  ∧ (chargeType A B = "SS" ↔ 0 ≤ Charge A * Charge B)
  ∧ (chargeType A B = "OS" ↔ Charge A * Charge B < 0)
  ∧ chargeType B A = chargeType A B.
Proof.
  intros HA HB. unfold chargeType.
  rewrite (charge_product_small _ _ HA HB), (charge_product_small _ _ HB HA).
  rewrite (Z.mul_comm (Charge B) (Charge A)).
  destruct (Z.geb_spec (Charge A * Charge B) 0) as [Hge|Hlt].
  - repeat split; auto; try lia; discriminate.
  - repeat split; auto; try lia; discriminate.
Qed.

Lemma chargeType_spec_witness :
  chargeType muon_plus muon_minus = "OS"
  ∧ chargeType muon_minus muon_plus = chargeType muon_plus muon_minus.
Proof.
  assert (Hp : is_Short_t (Charge muon_plus)) by (vm_compute; split; [discriminate|reflexivity]).
  assert (Hm : is_Short_t (Charge muon_minus)) by (vm_compute; split; [discriminate|reflexivity]).
  destruct (chargeType_spec muon_plus muon_minus Hp Hm) as (_ & _ & Hos & Hsym).
  split; [|exact Hsym].
  apply (proj2 Hos). reflexivity.
Defined.

(** ** The resolution of objects in the collection *)

Lemma known_names_empty : known_names ∅.
Proof. intros i n o H. by rewrite lookup_empty in H. Qed.

Lemma GetMergeableObject_known_names identifier objectName task :
  known_names (fMergeableCollection task) →
  known_names (fMergeableCollection (GetMergeableObject identifier objectName task).2).
Proof.
  intros Hk. unfold GetMergeableObject, GetObject.
  destruct (fMergeableCollection task !! (identifier, objectName)) eqn:Hget; [done|].
  destruct (String.eqb_spec objectName "DimuSparse") as [->|Hn1]; simpl.
  - rewrite Hget. intros i n o. rewrite lookup_insert.
    case_decide as Heq; [|by apply Hk]. injection Heq as <- <-. auto.
  - destruct (String.eqb_spec objectName "nevents") as [->|Hn2]; simpl.
    + rewrite Hget. intros i n o. rewrite lookup_insert.
      case_decide as Heq; [|by apply Hk]. injection Heq as <- <-. auto.
    + done.
Qed.

(** C3. For every path and every object name other than the name of the
    histograms and the name of the event counters, the resolution logs the
    error, returns no object and leaves the collection as it was. *)
Theorem GetMergeableObject_unknown (identifier objectName : string) (task : Task) :
  known_names (fMergeableCollection task) →
  objectName ≠ "DimuSparse" → objectName ≠ "nevents" →
  (GetMergeableObject identifier objectName task).1 = None
  ∧ fMergeableCollection (GetMergeableObject identifier objectName task).2
    = fMergeableCollection task
  ∧ AliError ("Unknown object " +:+ objectName +:+ newline)
    ∈ calls (GetMergeableObject identifier objectName task).2
  ∧ (∀ c, c ∈ calls (GetMergeableObject identifier objectName task).2 →
       c ∈ calls task ∨ c = AliInfo_collection_size
       ∨ c = AliError ("Unknown object " +:+ objectName +:+ newline)).
Proof.
  intros Hk Hn1 Hn2. unfold GetMergeableObject, GetObject.
  destruct (fMergeableCollection task !! (identifier, objectName)) as [o|] eqn:Hget.
  { destruct (Hk _ _ _ Hget); done. }
  destruct (String.eqb_spec objectName "DimuSparse") as [?|_]; [done|].
  destruct (String.eqb_spec objectName "nevents") as [?|_]; [done|].
  simpl. split; [done|]. split; [done|]. split.
  - apply elem_of_cons. right. apply elem_of_cons. by left.
  - intros c Hc. apply elem_of_cons in Hc as [->|Hc]; [auto|].
    apply elem_of_cons in Hc as [->|Hc]; auto.
Qed.

Lemma GetMergeableObject_unknown_witness :
  (GetMergeableObject "/CMUL7-B-NOPF-MUON" "DimuGrid" task0).1 = None
  ∧ fMergeableCollection (GetMergeableObject "/CMUL7-B-NOPF-MUON" "DimuGrid" task0).2
    = fMergeableCollection task0.
Proof.
  assert (Hk : known_names (fMergeableCollection task0)) by exact known_names_empty.
  assert (Hn1 : "DimuGrid"%string ≠ "DimuSparse"%string) by discriminate.
  assert (Hn2 : "DimuGrid"%string ≠ "nevents"%string) by discriminate.
  destruct (GetMergeableObject_unknown "/CMUL7-B-NOPF-MUON" "DimuGrid" task0
              Hk Hn1 Hn2) as (H1 & H2 & _).
  exact (conj H1 H2).
Defined.

(** ** The rejected event *)

Section PipelineProofs.

Variable Form_g : Double_t → string.
Variable GetBin : list (list Double_t) → ContainerInput → list Z.

Lemma foldl_preserves {A B} (P : A → Prop) (f : A → B → A) (l : list B) (a : A) :
  P a → (∀ a b, P a → P (f a b)) → P (foldl f a l).
Proof.
  intros Ha Hf. revert a Ha. induction l as [|b l IH]; intros a Ha; simpl; [done|].
  apply IH. by apply Hf.
Qed.

Lemma update_object_known_names identifier objectName f task :
  known_names (fMergeableCollection task) →
  known_names (fMergeableCollection (update_object identifier objectName f task)).
Proof.
  intros Hk i n o. unfold update_object. simpl. rewrite lookup_alter.
  case_decide as Heq.
  - destruct (fMergeableCollection task !! (identifier, objectName)) eqn:E; [|done].
    intros _. injection Heq as <- <-. by eapply Hk.
  - apply Hk.
Qed.

Lemma fill_nevents_known_names identifier task :
  known_names (fMergeableCollection task) →
  known_names (fMergeableCollection (fill_nevents identifier task)).
Proof.
  intros Hk. unfold fill_nevents.
  pose proof (GetMergeableObject_known_names identifier "nevents" task Hk) as H.
  destruct (GetMergeableObject identifier "nevents" task) as [[o|] task1]; simpl in *.
  - by apply update_object_known_names.
  - done.
Qed.

Lemma fill_DimuSparse_known_names identifier x task :
  known_names (fMergeableCollection task) →
  known_names (fMergeableCollection (fill_DimuSparse GetBin identifier x task)).
Proof.
  intros Hk. unfold fill_DimuSparse.
  pose proof (GetMergeableObject_known_names identifier "DimuSparse" task Hk) as H.
  destruct (GetMergeableObject identifier "DimuSparse" task) as [[o|] task1]; simpl in *.
  - by apply update_object_known_names.
  - done.
Qed.

Lemma pair_body_known_names ev istep trigs n names tm st tm2 :
  known_names (fMergeableCollection st.1) →
  known_names (fMergeableCollection
                 (pair_body GetBin ev istep trigs n names tm st tm2).1).
Proof.
  destruct st as [task cnt]. simpl. intros Hk. unfold pair_body.
  destruct (negb _); [done|]. simpl.
  apply (foldl_preserves (λ t, known_names (fMergeableCollection t))); [done|].
  intros t trig Ht. unfold dispatch_trigClass.
  destruct (match istep with kStepReconstructed => _ | kStepGeneratedMC => _ end);
    [done|].
  apply (foldl_preserves (λ t, known_names (fMergeableCollection t))); [done|].
  intros t' icut Ht'. by apply fill_DimuSparse_known_names.
Qed.

Lemma track_loop_known_names ev istep trigs n names sel st :
  known_names (fMergeableCollection st.1) →
  known_names (fMergeableCollection
                 (track_loop GetBin ev istep trigs n names sel st).1).
Proof.
  revert st. induction sel as [|tm sel IH]; intros st Hk; simpl; [done|].
  apply IH.
  apply (foldl_preserves (λ s : Task * list Z, known_names (fMergeableCollection s.1)));
    [done|].
  intros s tm2 Hs. by apply pair_body_known_names.
Qed.

(** The names of the collection stay the two names of the task along the
    processing of the events. *)
Lemma UserExec_known_names ev task :
  known_names (fMergeableCollection task) →
  known_names (fMergeableCollection (UserExec Form_g GetBin ev task)).
Proof.
  intros Hk. unfold UserExec. destruct (negb (IsSelected ev)); [done|]. simpl.
  apply (foldl_preserves (λ s : Task * list Z, known_names (fMergeableCollection s.1)));
    [done|].
  intros [t cnt] istep Ht. unfold step_body. simpl in Ht.
  assert (Hn : known_names (fMergeableCollection
            (foldl (λ t trigClass, fill_nevents ("/" +:+ trigClass) t) t
               match istep with
               | kStepReconstructed => GetSelectedTrigClassesInEvent ev
               | kStepGeneratedMC => ["generated"]
               end))).
  { apply (foldl_preserves (λ t, known_names (fMergeableCollection t))); [done|].
    intros t' trig Ht'. by apply fill_nevents_known_names. }
  destruct (_ <? _)%nat; [done|].
  by apply track_loop_known_names.
Qed.

(** C8. For an event that the event cuts reject, the processing returns at
    once: the task is left as it was, with its collection and its calls, so
    no counter is incremented, no object is created and no histogram is
    filled. *)
Theorem UserExec_rejected_event (ev : Event) (task : Task) :
  IsSelected ev = false →
  UserExec Form_g GetBin ev task = task
  ∧ fMergeableCollection (UserExec Form_g GetBin ev task) = fMergeableCollection task
  ∧ calls (UserExec Form_g GetBin ev task) = calls task.
Proof.
  intros Hrej. unfold UserExec. rewrite Hrej. done.
Qed.

End PipelineProofs.

Lemma UserExec_rejected_event_witness :
  UserExec Form_g0 GetBin0 (event0 false (Some tracklets0)) task0 = task0
  ∧ UserExec Form_g0 GetBin0 (event0 true (Some tracklets0)) task0 ≠ task0.
Proof.
  split.
  - exact (proj1 (UserExec_rejected_event Form_g0 GetBin0
                    (event0 false (Some tracklets0)) task0 eq_refl)).
  - intros H. apply (f_equal calls) in H. apply (f_equal length) in H.
    vm_compute in H. discriminate.
Defined.

(** ** Rounding of binary64 numbers *)

Lemma digits2_pos_bounds (p : positive) :
  2 ^ (Zpos (digits2_pos p) - 1) ≤ Zpos p < 2 ^ Zpos (digits2_pos p).
Proof.
  induction p as [p IH|p IH|]; cbn [digits2_pos].
  - rewrite Pos2Z.inj_succ, Z.pow_succ_r by lia.
    replace (Z.succ (Zpos (digits2_pos p)) - 1) with (Z.succ (Zpos (digits2_pos p) - 1)) by lia.
    rewrite Z.pow_succ_r by lia. lia.
  - rewrite Pos2Z.inj_succ, Z.pow_succ_r by lia.
    replace (Z.succ (Zpos (digits2_pos p)) - 1) with (Z.succ (Zpos (digits2_pos p) - 1)) by lia.
    rewrite Z.pow_succ_r by lia. lia.
  - simpl. lia.
Qed.

Lemma digits2_pos_unique (p : positive) (d : Z) :
  2 ^ (d - 1) ≤ Zpos p < 2 ^ d → Zpos (digits2_pos p) = d.
Proof.
  intros [Hlo Hhi]. pose proof (digits2_pos_bounds p) as [Hlo' Hhi'].
  assert (Hd : 0 < d).
  { destruct (Z.ltb_spec 0 d); [done|].
    rewrite Z.pow_neg_r in Hlo by lia.
    assert (2 ^ d ≤ 2 ^ 0) by (apply Z.pow_le_mono_r; lia). simpl in *. lia. }
  destruct (Z.lt_trichotomy (Zpos (digits2_pos p)) d) as [Hlt|[Heq|Hgt]]; [|done|].
  - assert (2 ^ Zpos (digits2_pos p) ≤ 2 ^ (d - 1)) by (apply Z.pow_le_mono_r; lia). lia.
  - assert (2 ^ d ≤ 2 ^ (Zpos (digits2_pos p) - 1)) by (apply Z.pow_le_mono_r; lia). lia.
Qed.

Lemma iter_pos_nat {A} (f : A → A) (n : positive) (x : A) :
  SpecFloat.iter_pos f n x = Nat.iter (Pos.to_nat n) f x.
Proof.
  revert x. induction n as [n IH|n IH|]; intros x; cbn [SpecFloat.iter_pos].
  - rewrite !IH, Pos2Nat.inj_xI.
    rewrite <- Nat.iter_add. rewrite <- Nat.iter_succ_r.
    f_equal. lia.
  - rewrite !IH, Pos2Nat.inj_xO. rewrite <- Nat.iter_add. f_equal. lia.
  - reflexivity.
Qed.

Lemma shr_1_m (mrs : shr_record) :
  0 ≤ shr_m mrs → shr_m (shr_1 mrs) = shr_m mrs / 2.
Proof.
  destruct mrs as [m r s]. cbn [shr_m]. intros Hm.
  destruct m as [|[p|p|]|p]; cbn [shr_1 shr_m]; try lia; try reflexivity.
  - apply Z.div_unique with 1; lia.
  - apply Z.div_unique with 0; lia.
Qed.

Lemma shr_iter_m (k : nat) (mrs : shr_record) :
  0 ≤ shr_m mrs →
  shr_m (Nat.iter k shr_1 mrs) = shr_m mrs / 2 ^ Z.of_nat k.
Proof.
  intros Hm. induction k as [|k IH].
  - simpl. by rewrite Z.div_1_r.
  - rewrite Nat2Z.inj_succ, Z.pow_succ_r by lia. rewrite Nat.iter_succ.
    rewrite shr_1_m, IH.
    + rewrite Z.div_div by lia. f_equal. lia.
    + rewrite IH. apply Z.div_pos; lia.
Qed.

(** The mantissa and the exponent after a shift to the right. *)
Lemma shr_spec (mrs : shr_record) (e n : Z) :
  0 ≤ shr_m mrs → 0 ≤ n →
  shr_m (shr mrs e n).1 = shr_m mrs / 2 ^ n ∧ (shr mrs e n).2 = e + n.
Proof.
  intros Hm Hn. destruct n as [|p|p]; [| |lia].
  - simpl. rewrite Z.div_1_r. split; [done|lia].
  - cbn [shr fst snd]. split; [|done].
    rewrite iter_pos_nat, shr_iter_m by done. by rewrite positive_nat_Z.
Qed.

Lemma round_nearest_even_bounds (m : Z) (l : location) :
  m ≤ round_nearest_even m l ≤ m + 1.
Proof.
  destruct l as [|[]]; simpl; try lia. destruct (Z.even m); lia.
Qed.

Lemma shr_record_of_loc_m (m : Z) (l : location) : shr_m (shr_record_of_loc m l) = m.
Proof. by destruct l as [|[]]. Qed.

Lemma fexp_normal (d e : Z) : -1074 ≤ d + e - 53 → fexp 53 1024 (d + e) = d + e - 53.
Proof. intros H. unfold fexp, emin. lia. Qed.

Lemma quotient_bounds (M : positive) (n : Z) :
  0 ≤ n → Zpos (digits2_pos M) = n + 53 →
  2 ^ 52 ≤ Zpos M / 2 ^ n < 2 ^ 53.
Proof.
  intros Hn Hd. pose proof (digits2_pos_bounds M) as [Hlo Hhi].
  rewrite Hd in Hlo, Hhi.
  replace (n + 53 - 1) with (n + 52) in Hlo by lia.
  rewrite Z.pow_add_r in Hlo, Hhi by lia.
  assert (0 < 2 ^ n) by (apply Z.pow_pos_nonneg; lia).
  split.
  - apply Z.div_le_lower_bound; lia.
  - apply Z.div_lt_upper_bound; lia.
Qed.

(** The rounding of a positive integer mantissa whose rounded value is a
    normal number: the mantissa is divided by the power of 2 that leaves 53
    bits, and goes up by at most one. *)
Lemma binary_round_aux_normal (s : bool) (M : positive) (e E : Z) :
  E = Zpos (digits2_pos M) + e - 53 → -1074 ≤ E → e ≤ E → E < 971 →
  ∃ r : positive,
    Zpos M / 2 ^ (E - e) ≤ Zpos r ≤ Zpos M / 2 ^ (E - e) + 1
    ∧ 2 ^ 52 ≤ Zpos r
    ∧ ((Zpos r < 2 ^ 53
        ∧ binary_round_aux 53 1024 s (Zpos M) e loc_Exact = S754_finite s r E)
       ∨ (Zpos r = 2 ^ 53
          ∧ binary_round_aux 53 1024 s (Zpos M) e loc_Exact
            = S754_finite s (2 ^ 52) (E + 1))).
Proof.
  intros HE Hmin Hle Hmax.
  unfold binary_round_aux, shr_fexp. cbn [Zdigits2].
  rewrite fexp_normal by lia. rewrite <- HE.
  pose proof (shr_spec (shr_record_of_loc (Zpos M) loc_Exact) e (E - e)) as Hshr.
  rewrite shr_record_of_loc_m in Hshr. destruct Hshr as [Hm1 He1]; [lia|lia|].
  destruct (shr (shr_record_of_loc (Zpos M) loc_Exact) e (E - e)) as [mrs' e'].
  cbn [fst snd] in Hm1, He1.
  pose proof (quotient_bounds M (E - e)) as Hq. rewrite <- Hm1 in Hq.
  destruct Hq as [Hq1 Hq2]; [lia|lia|].
  pose proof (round_nearest_even_bounds (shr_m mrs') (loc_of_shr_record mrs')) as Hr.
  destruct (round_nearest_even (shr_m mrs') (loc_of_shr_record mrs')) as [|r|r] eqn:Er;
    [lia| |lia].
  exists r. rewrite <- Hm1. split; [lia|]. split; [lia|].
  replace e' with E by lia.
  destruct (Z.eq_dec (Zpos r) (2 ^ 53)) as [Heq|Hne].
  - right. split; [done|].
    assert (r = (2 ^ 53)%positive) as -> by (apply Pos2Z.inj; exact Heq).
    cbn [Zdigits2]. change (digits2_pos (2 ^ 53)) with 54%positive.
    rewrite (fexp_normal 54 E) by lia.
    replace (54 + E - 53 - E) with 1 by lia.
    cbn [shr shr_record_of_loc SpecFloat.iter_pos shr_1 shr_m].
    replace (E + 1 <=? 1024 - 53) with true by (symmetry; apply Z.leb_le; lia).
    reflexivity.
  - left. split; [lia|].
    cbn [Zdigits2].
    rewrite (digits2_pos_unique r 53) by (change (53 - 1) with 52; lia).
    rewrite (fexp_normal 53 E) by lia.
    replace (53 + E - 53 - E) with 0 by lia.
    cbn [shr shr_record_of_loc shr_m].
    replace (E <=? 1024 - 53) with true by (symmetry; apply Z.leb_le; lia).
    reflexivity.
Qed.

Lemma Pos_iter_xO (m d : positive) : Zpos (Pos.iter xO m d) = Zpos m * 2 ^ Zpos d.
Proof.
  induction d as [|d IH] using Pos.peano_ind.
  - simpl. lia.
  - rewrite Pos.iter_succ, Pos2Z.inj_xO, IH, Pos2Z.inj_succ, Z.pow_succ_r by lia. lia.
Qed.

Lemma twoPi_eq : twoPi = S754_finite false 7074237752028440 (-50).
Proof. reflexivity. Qed.

Lemma bounded_mantissa (m : positive) (e : Z) :
  bounded 53 1024 m e = true → Zpos m < 2 ^ 53.
Proof.
  unfold bounded, canonical_mantissa, fexp, emin.
  intros [H _]%andb_true_iff. apply Z.eqb_eq in H.
  pose proof (digits2_pos_bounds m) as [_ Hhi].
  assert (2 ^ Zpos (digits2_pos m) ≤ 2 ^ 53) by (apply Z.pow_le_mono_r; lia).
  lia.
Qed.


(** The sum of a negative number not below [-Pi] and [2.*Pi]: a positive
    number with the exponent of [2.*Pi] and a mantissa that is at most its
    mantissa, or a positive number with a smaller exponent. *)
Lemma add_negative_twoPi (m : positive) (e : Z) :
  valid (S754_finite true m e) = true →
  le (opp TMath.Pi) (S754_finite true m e) = true →
  ∃ (r : positive) (e' : Z),
    add (S754_finite true m e) twoPi = S754_finite false r e'
    ∧ ((e' = -50 ∧ Zpos r ≤ 7074237752028440) ∨ e' = -51).
Proof.
  intros Hv Hle. apply bounded_mantissa in Hv.
  assert (He : e < -51 ∨ (e = -51 ∧ Zpos m ≤ 7074237752028440)).
  { revert Hle. unfold le, opp, TMath.Pi, SFopp, SFleb. cbn [negb].
    rewrite SFcompare_finite_neg.
    destruct (Z.compare_spec (-51) e) as [Heq|?|?]; [|discriminate|intros _; lia].
    change (7074237752028440 ?= m)%positive
      with (Zpos 7074237752028440 ?= Zpos m).
    destruct (Z.compare_spec (Zpos 7074237752028440) (Zpos m)) as [Hm|Hm|Hm];
      cbn [CompOpp]; try discriminate; intros _; right; split; lia. }
  clear Hle.
  rewrite twoPi_eq. unfold add, SFadd, Dbl.prec, Dbl.emax.
  rewrite (Z.min_l e (-50)) by lia.
  unfold shl_align at 1 2. rewrite Z.sub_diag.
  destruct (e - -50) as [|d|d] eqn:Ed; [lia|lia|].
  cbn [fst cond_Zopp].
  assert (Hd : Zpos d = -50 - e) by lia.
  pose proof (Pos_iter_xO 7074237752028440 d) as Hsh.
  assert (Hpow : 2 ≤ 2 ^ Zpos d).
  { change 2 with (2 ^ 1) at 1. apply Z.pow_le_mono_r; lia. }
  change (2 ^ 53) with 9007199254740992 in Hv.
  destruct (- Zpos m + Zpos (Pos.iter xO 7074237752028440%positive d)) as [|M|M] eqn:EM;
    [lia| |lia].
  assert (HM : Zpos M = 7074237752028440 * 2 ^ Zpos d - Zpos m) by lia.
  clear EM Hsh.
  unfold binary_normalize, binary_round.
  (* the number of bits of the sum *)
  assert (Hbits : Zpos (digits2_pos M) = 53 + Zpos d
                  ∨ Zpos (digits2_pos M) = 52 + Zpos d).
  { destruct (Z.le_gt_cases (2 ^ (52 + Zpos d)) (Zpos M)) as [Hbig|Hsmall].
    - left. apply digits2_pos_unique.
      replace (53 + Zpos d - 1) with (52 + Zpos d) by lia.
      split; [done|]. rewrite Z.pow_add_r by lia.
      change (2 ^ 53) with 9007199254740992. lia.
    - right. apply digits2_pos_unique.
      replace (52 + Zpos d - 1) with (51 + Zpos d) by lia.
      split; [|done]. rewrite Z.pow_add_r by lia.
      change (2 ^ 51) with 2251799813685248.
      destruct He as [He|[He Hm]].
      + assert (4 ≤ 2 ^ Zpos d).
        { change 4 with (2 ^ 2). apply Z.pow_le_mono_r; lia. }
        lia.
      + replace (Zpos d) with 1 in * by lia. change (2 ^ 1) with 2 in *. lia. }
  set (E := Zpos (digits2_pos M) + e - 53).
  assert (HEe : e ≤ E) by (unfold E; lia).
  rewrite (fexp_normal (Zpos (digits2_pos M)) e) by lia. fold E.
  assert (Hround : ∃ (r : positive) (e' : Z),
             binary_round_aux 53 1024 false (Zpos M) e loc_Exact
             = S754_finite false r e'
             ∧ ((e' = -50 ∧ Zpos r ≤ 7074237752028440) ∨ e' = -51)).
  { destruct (binary_round_aux_normal false M e E) as (r & Hr & Hr52 & Hres);
      [done|lia|lia|lia|].
    change (2 ^ 53) with 9007199254740992 in Hres.
    destruct Hbits as [Hb|Hb].
    - (* the sum has the exponent of 2.*Pi *)
      assert (HEv : E = -50) by (unfold E; lia).
      assert (Hq : Zpos M / 2 ^ (E - e) < 7074237752028440).
      { apply Z.div_lt_upper_bound; [apply Z.pow_pos_nonneg; lia|].
        replace (E - e) with (Zpos d) by lia. lia. }
      destruct Hres as [[Hlt ->]|[Heq _]]; [|lia].
      exists r, E. split; [done|]. left. lia.
    - (* the sum has the exponent below *)
      assert (HEv : E = -51) by (unfold E; lia).
      destruct Hres as [[Hlt ->]|[Heq ->]].
      + exists r, E. split; [done|]. by right.
      + exists (2 ^ 52)%positive, (E + 1). split; [done|]. left.
        split; [lia|]. vm_compute. discriminate. }
  unfold shl_align.
  destruct (E - e) as [|n|n] eqn:En; [exact Hround|exact Hround|lia].
Qed.

(** ** The azimuth of the pair *)

Lemma le_finite_pos_twoPi (m : positive) (e : Z) :
  le (S754_finite false m e) TMath.Pi = true →
  le (S754_finite false m e) twoPi = true.
Proof.
  rewrite twoPi_eq. unfold le, SFleb, TMath.Pi.
  rewrite !SFcompare_finite_pos.
  destruct (Z.compare_spec e (-51)) as [->|?|?]; [| |discriminate].
  - intros _. reflexivity.
  - intros _. destruct (Z.compare_spec e (-50)); [lia|done|lia].
Qed.

Lemma le_sum_twoPi (r : positive) (e' : Z) :
  (e' = -50 ∧ Zpos r ≤ 7074237752028440) ∨ e' = -51 →
  le (S754_finite false r e') twoPi = true.
Proof.
  rewrite twoPi_eq. unfold le, SFleb. rewrite SFcompare_finite_pos.
  intros [[-> Hr]| ->]; [|reflexivity].
  change (-50 ?= -50) with Eq. cbv iota.
  destruct (r ?= 7074237752028440)%positive eqn:Hc; [reflexivity|reflexivity|].
  rewrite Pos2Z.inj_compare in Hc. apply Z.compare_gt_iff in Hc. lia.
Qed.

(** C9 (amended). For a raw azimuth of the pair from [-Pi] to [Pi], the
    task adds [2.*Pi] exactly when the raw value is negative; the value
    that is dispatched is never negative and never above [2.*Pi], so it
    lies in the closed interval from 0 to [2.*Pi]. *)
Theorem phi_of_pair_range (rawPhi : Double_t) :
  valid rawPhi = true →
  le (opp TMath.Pi) rawPhi = true →
  le rawPhi TMath.Pi = true →
  (phi_of_pair rawPhi = if lt rawPhi zero then add rawPhi twoPi else rawPhi)
  ∧ lt (phi_of_pair rawPhi) zero = false
  ∧ le zero (phi_of_pair rawPhi) = true
  ∧ le (phi_of_pair rawPhi) twoPi = true.
Proof.
  intros Hv Hlo Hhi. split; [reflexivity|].
  unfold phi_of_pair.
  destruct rawPhi as [s|s| |s m e].
  - by destruct s.
  - destruct s; discriminate.
  - discriminate.
  - destruct s.
    + change (lt (S754_finite true m e) zero) with true. cbv iota.
      destruct (add_negative_twoPi m e Hv Hlo) as (r & e' & -> & Hr).
      split; [reflexivity|]. split; [reflexivity|]. by apply le_sum_twoPi.
    + change (lt (S754_finite false m e) zero) with false. cbv iota.
      split; [reflexivity|]. split; [reflexivity|]. by apply le_finite_pos_twoPi.
Qed.

Lemma phi_of_pair_range_witness :
  le zero (phi_of_pair (opp three)) = true
  ∧ le (phi_of_pair (opp three)) twoPi = true.
Proof.
  assert (Hv : valid (opp three) = true) by reflexivity.
  assert (Hlo : le (opp TMath.Pi) (opp three) = true) by reflexivity.
  assert (Hhi : le (opp three) TMath.Pi = true) by reflexivity.
  destruct (phi_of_pair_range (opp three) Hv Hlo Hhi) as (_ & _ & H0 & H2).
  exact (conj H0 H2).
Defined.

(** C9 as stated fails: for the raw azimuth [-2^-60] the sum with [2.*Pi]
    is rounded to [2.*Pi], the upper edge of the axis of the azimuth. *)
Lemma phi_of_pair_reaches_twoPi :
  valid (S754_finite true (2 ^ 52) (-112)) = true
  ∧ lt (opp TMath.Pi) (S754_finite true (2 ^ 52) (-112)) = true
  ∧ le (S754_finite true (2 ^ 52) (-112)) TMath.Pi = true
  ∧ phi_of_pair (S754_finite true (2 ^ 52) (-112)) = twoPi
  ∧ lt (phi_of_pair (S754_finite true (2 ^ 52) (-112))) twoPi = false.
Proof. repeat split; vm_compute; reflexivity. Qed.

(** ** The window in azimuth around the pair *)

Lemma shr_nonneg (mrs : shr_record) (e n : Z) :
  0 ≤ shr_m mrs → 0 ≤ shr_m (shr mrs e n).1.
Proof.
  intros Hm. destruct n as [|p|p]; [done| |done].
  destruct (shr_spec mrs e (Zpos p)) as [-> _]; [done|lia|].
  apply Z.div_pos; [done|]. apply Z.pow_pos_nonneg; lia.
Qed.

(** The rounding of a mantissa that is not negative gives a number. *)
Lemma binary_round_aux_number (s : bool) (m e : Z) (l : location) :
  0 ≤ m → is_nan (binary_round_aux 53 1024 s m e l) = false.
Proof.
  intros Hm. unfold binary_round_aux, shr_fexp.
  pose proof (shr_nonneg (shr_record_of_loc m l) e
                (fexp 53 1024 (Zdigits2 m + e) - e)) as H1.
  rewrite shr_record_of_loc_m in H1. specialize (H1 Hm).
  destruct (shr (shr_record_of_loc m l) e _) as [mrs' e']. cbn [fst] in H1.
  pose proof (round_nearest_even_bounds (shr_m mrs') (loc_of_shr_record mrs')) as Hr.
  set (r := round_nearest_even (shr_m mrs') (loc_of_shr_record mrs')) in *.
  pose proof (shr_nonneg (shr_record_of_loc r loc_Exact) e'
                (fexp 53 1024 (Zdigits2 r + e') - e')) as H2.
  rewrite shr_record_of_loc_m in H2. specialize (H2 ltac:(lia)).
  destruct (shr (shr_record_of_loc r loc_Exact) e' _) as [mrs'' e''].
  cbn [fst] in H2.
  destruct (shr_m mrs'') as [|p|p]; [done| |lia].
  by destruct (e'' <=? 1024 - 53).
Qed.

Lemma binary_normalize_number (m e : Z) (szero : bool) :
  is_nan (binary_normalize 53 1024 m e szero) = false.
Proof.
  unfold binary_normalize, binary_round.
  destruct m as [|p|p]; [done| |].
  - destruct (shl_align p e _) as [mz ez]. by apply binary_round_aux_number.
  - destruct (shl_align p e _) as [mz ez]. by apply binary_round_aux_number.
Qed.

(** The difference of two finite numbers is a number. *)
Lemma sub_finite_number (x y : Double_t) :
  is_finite x = true → is_finite y = true → is_number (sub x y).
Proof.
  unfold is_number, sub.
  destruct x as [sx|sx| |sx mx ex], y as [sy|sy| |sy my ey]; try discriminate;
    intros _ _.
  - by destruct sx, sy.
  - done.
  - done.
  - cbn [SFsub]. apply binary_normalize_number.
Qed.

Lemma phi_distance_number (phi : Double_t) (trk : Tracklet) :
  is_finite phi = true → is_finite (GetPhi trk) = true →
  is_number (phi_distance phi trk).
Proof.
  intros Hp Ht. pose proof (sub_finite_number phi (GetPhi trk) Hp Ht) as H.
  unfold phi_distance, TMath.Abs, is_number in *.
  by destruct (sub phi (GetPhi trk)).
Qed.

Lemma le_not_gt (x y : Double_t) : le x y = true → gt x y = false.
Proof.
  unfold le, gt, SFleb, SFltb. rewrite (SFcompare_swap y x).
  by destruct (SFcompare x y) as [[]|].
Qed.




(** The absolute value is above a positive bound exactly when the number is
    above the bound or below its opposite. *)
Lemma gt_Abs (x : Double_t) (mh : positive) (eh : Z) :
  gt (TMath.Abs x) (S754_finite false mh eh)
  = gt x (S754_finite false mh eh) || lt x (S754_finite true mh eh).
Proof.
  unfold gt, lt, TMath.Abs, SFltb.
  destruct x as [s|s| |s m e]; try destruct s; cbn [SFabs]; try reflexivity.
  - rewrite SFcompare_finite_pos, SFcompare_finite_neg.
    change (SFcompare (S754_finite false mh eh) (S754_finite true m e)) with (Some Gt).
    cbn [orb]. rewrite (Z.compare_antisym eh e), (Pos.compare_antisym mh m).
    destruct (eh ?= e); cbn [CompOpp]; try reflexivity.
    by destruct (mh ?= m)%positive.
  - change (SFcompare (S754_finite false m e) (S754_finite true mh eh)) with (Some Gt).
    by rewrite orb_false_r.
Qed.

Lemma halfPi_eq : div TMath.Pi two = S754_finite false 7074237752028440 (-52).
Proof. reflexivity. Qed.

(** Line 344: the tracklet is left out exactly when the difference of the
    azimuths is above [Pi/2.] or below [-Pi/2.]. *)
Lemma tracklet_is_far_difference (phi : Double_t) (trk : Tracklet) :
  tracklet_is_far phi trk
  = gt (sub phi (GetPhi trk)) (div TMath.Pi two)
    || lt (sub phi (GetPhi trk)) (opp (div TMath.Pi two)).
Proof.
  unfold tracklet_is_far, phi_distance. change halfPi with (div TMath.Pi two).
  rewrite halfPi_eq. apply gt_Abs.
Qed.

(** For finite azimuths the tracklet is counted exactly when the difference
    of the azimuths lies from [-Pi/2.] to [Pi/2.]. *)
Lemma tracklet_is_far_bounds (phi : Double_t) (trk : Tracklet) :
  is_finite phi = true → is_finite (GetPhi trk) = true →
  tracklet_is_far phi trk = false
  ↔ le (opp (div TMath.Pi two)) (sub phi (GetPhi trk)) = true
    ∧ le (sub phi (GetPhi trk)) (div TMath.Pi two) = true.
Proof.
  intros Hp Ht. pose proof (sub_finite_number phi (GetPhi trk) Hp Ht) as Hnum.
  rewrite tracklet_is_far_difference, orb_false_iff. rewrite halfPi_eq.
  set (x := sub phi (GetPhi trk)) in *.
  set (h := S754_finite false 7074237752028440 (-52)).
  assert (Hh : is_nan h = false) by reflexivity.
  assert (Hh' : is_nan (opp h) = false) by reflexivity.
  split.
  - intros [H1 H2]. split.
    + exact (not_gt_ge (opp h) x Hh' Hnum H2).
    + exact (not_gt_ge x h Hnum Hh H1).
  - intros [H1 H2]. split.
    + exact (le_not_gt x h H2).
    + exact (le_not_gt (opp h) x H1).
Qed.





(** ** Events without multiplicity object *)

Lemma new_calls_refl (P : Call → Prop) (task : Task) : new_calls P task task.
Proof. by exists []. Qed.

Lemma new_calls_trans (P : Call → Prop) (t1 t2 t3 : Task) :
  new_calls P t1 t2 → new_calls P t2 t3 → new_calls P t1 t3.
Proof.
  intros (n1 & H1 & F1) (n2 & H2 & F2). exists (n2 ++ n1). split.
  - by rewrite H2, H1, app_assoc.
  - by apply Forall_app.
Qed.

Lemma new_calls_call (P : Call → Prop) (c : Call) (t1 t2 : Task) :
  P c → new_calls P t1 t2 → new_calls P t1 (call c t2).
Proof.
  intros Hc (n & H & F). exists (c :: n). split.
  - simpl. by rewrite H.
  - by constructor.
Qed.

Lemma new_calls_same (P : Call → Prop) (t1 t2 t3 : Task) :
  calls t3 = calls t2 → new_calls P t1 t2 → new_calls P t1 t3.
Proof. intros E (n & H & F). exists n. by rewrite E. Qed.

Lemma foldl_new_calls {B} (P : Call → Prop) (f : Task → B → Task) (l : list B) (t : Task) :
  (∀ a b, new_calls P a (f a b)) → new_calls P t (foldl f t l).
Proof.
  intros Hf. revert t. induction l as [|b l IH]; intros t; simpl.
  - apply new_calls_refl.
  - eapply new_calls_trans; [apply Hf|apply IH].
Qed.

Lemma GetMergeableObject_new_calls (v : Double_t) identifier objectName task :
  new_calls (fills_with v) task (GetMergeableObject identifier objectName task).2.
Proof.
  unfold GetMergeableObject.
  destruct (GetObject _ _ _); [apply new_calls_refl|].
  destruct (String.eqb objectName "DimuSparse"); simpl.
  { apply new_calls_call; [done|]. eapply new_calls_same; [|apply new_calls_refl]. done. }
  destruct (String.eqb objectName "nevents"); simpl.
  { apply new_calls_call; [done|]. eapply new_calls_same; [|apply new_calls_refl]. done. }
  apply new_calls_call; [done|].
  eapply new_calls_same with (t2 := call (AliError _) task); [done|].
  apply new_calls_call; [done|]. apply new_calls_refl.
Qed.

Lemma all_zero_lookup (n : list Z) (i : nat) : all_zero n → default 0 (n !! i) = 0.
Proof.
  intros Hn. destruct (n !! i) as [v|] eqn:E; [|done].
  simpl. by apply (proj1 (Forall_lookup _ _) Hn i v).
Qed.

Lemma all_zero_replicate (n : list Z) : all_zero n → replicate (length n) 0 = n.
Proof.
  induction 1 as [|v n -> _ IH]; simpl; [done|]. by rewrite IH.
Qed.

Section NoMultiplicity.

Variable Form_g : Double_t → string.
Variable GetBin : list (list Double_t) → ContainerInput → list Z.

Lemma fill_nevents_new_calls (v : Double_t) identifier task :
  new_calls (fills_with v) task (fill_nevents identifier task).
Proof.
  unfold fill_nevents.
  pose proof (GetMergeableObject_new_calls v identifier "nevents" task) as H.
  destruct (GetMergeableObject identifier "nevents" task) as [[o|] task1];
    cbn [snd] in H; [|done].
  apply new_calls_call; [done|]. eapply new_calls_same; [|exact H]. done.
Qed.

Lemma fill_DimuSparse_new_calls identifier x task :
  new_calls (fills_with (kHtracklets x)) task (fill_DimuSparse GetBin identifier x task).
Proof.
  unfold fill_DimuSparse.
  pose proof (GetMergeableObject_new_calls (kHtracklets x) identifier "DimuSparse" task) as H.
  destruct (GetMergeableObject identifier "DimuSparse" task) as [[o|] task1];
    cbn [snd] in H; [|done].
  apply new_calls_call; [done|]. eapply new_calls_same; [|exact H]. done.
Qed.

Lemma dispatch_trigClass_new_calls ev istep track track2 x pairType charge
      nCuts names (n : list Z) task trigClass :
  all_zero n →
  new_calls (fills_with zero) task
            (dispatch_trigClass GetBin ev istep track track2 x pairType charge
                                nCuts names n task trigClass).
Proof.
  intros Hn. unfold dispatch_trigClass.
  destruct (match istep with kStepReconstructed => _ | kStepGeneratedMC => _ end);
    [apply new_calls_refl|].
  apply foldl_new_calls. intros t icut. unfold dispatch_cut.
  rewrite (all_zero_lookup n icut Hn).
  apply (fill_DimuSparse_new_calls _ (set_kHtracklets x (of_Z 0))).
Qed.

(** Without multiplicity object a pair leaves the counts at 0, and fills
    with the count 0. *)
Lemma pair_body_no_multiplicity ev istep trigs nCuts names tm st tm2 :
  GetMultiplicity ev = None → all_zero st.2 →
  new_calls (fills_with zero) st.1
            (pair_body GetBin ev istep trigs nCuts names tm st tm2).1
  ∧ all_zero (pair_body GetBin ev istep trigs nCuts names tm st tm2).2
  ∧ pair_body GetBin (with_multiplicity (Some []) ev) istep trigs nCuts names tm st tm2
    = pair_body GetBin ev istep trigs nCuts names tm st tm2.
Proof.
  destruct st as [task n]. cbn [fst snd]. intros Hmult Hn.
  unfold pair_body. cbn [GetMultiplicity with_multiplicity GetCommonAncestor
    GetPairType GetTrackPair GetCentrality]. rewrite Hmult.
  destruct (negb _); [by split; [apply new_calls_refl|]|].
  cbn [count_tracklets fst snd tracklet_loop foldl].
  rewrite (all_zero_replicate n Hn).
  split; [|done].
  apply foldl_new_calls. intros t trig. by apply dispatch_trigClass_new_calls.
Qed.

Lemma foldl_pair_body_no_multiplicity ev istep trigs nCuts names tm others st :
  GetMultiplicity ev = None → all_zero st.2 →
  new_calls (fills_with zero) st.1
    (foldl (pair_body GetBin ev istep trigs nCuts names tm) st others).1
  ∧ all_zero (foldl (pair_body GetBin ev istep trigs nCuts names tm) st others).2
  ∧ foldl (pair_body GetBin (with_multiplicity (Some []) ev) istep trigs nCuts names tm)
          st others
    = foldl (pair_body GetBin ev istep trigs nCuts names tm) st others.
Proof.
  intros Hmult. revert st. induction others as [|tm2 others IH]; intros st Hn.
  - simpl. split; [apply new_calls_refl|done].
  - cbn [foldl].
    destruct (pair_body_no_multiplicity ev istep trigs nCuts names tm st tm2 Hmult Hn)
      as (H1 & H2 & H3).
    rewrite H3. destruct (IH _ H2) as (I1 & I2 & I3).
    split; [by eapply new_calls_trans|]. done.
Qed.

Lemma track_loop_no_multiplicity ev istep trigs nCuts names sel st :
  GetMultiplicity ev = None → all_zero st.2 →
  new_calls (fills_with zero) st.1
    (track_loop GetBin ev istep trigs nCuts names sel st).1
  ∧ all_zero (track_loop GetBin ev istep trigs nCuts names sel st).2
  ∧ track_loop GetBin (with_multiplicity (Some []) ev) istep trigs nCuts names sel st
    = track_loop GetBin ev istep trigs nCuts names sel st.
Proof.
  intros Hmult. revert st. induction sel as [|tm sel IH]; intros st Hn.
  - simpl. split; [apply new_calls_refl|done].
  - cbn [track_loop].
    destruct (foldl_pair_body_no_multiplicity ev istep trigs nCuts names tm sel st
                Hmult Hn) as (H1 & H2 & H3).
    rewrite H3. destruct (IH _ H2) as (I1 & I2 & I3).
    split; [by eapply new_calls_trans|]. done.
Qed.

Lemma step_body_no_multiplicity ev nCuts names st istep :
  GetMultiplicity ev = None → all_zero st.2 →
  new_calls (fills_with zero) st.1 (step_body GetBin ev nCuts names st istep).1
  ∧ all_zero (step_body GetBin ev nCuts names st istep).2
  ∧ step_body GetBin (with_multiplicity (Some []) ev) nCuts names st istep
    = step_body GetBin ev nCuts names st istep.
Proof.
  destruct st as [task n]. cbn [fst snd]. intros Hmult Hn.
  unfold step_body.
  change (select_tracks (with_multiplicity (Some []) ev)) with (select_tracks ev).
  cbn [with_multiplicity GetSelectedTrigClassesInEvent recoTracks MCEvent].
  set (trigs := match istep with
                | kStepReconstructed => GetSelectedTrigClassesInEvent ev
                | kStepGeneratedMC => ["generated"]
                end).
  set (task1 := foldl (λ t trigClass, fill_nevents ("/" +:+ trigClass) t) task trigs).
  assert (H1 : new_calls (fills_with zero) task task1).
  { apply foldl_new_calls. intros t trig. apply fill_nevents_new_calls. }
  destruct (_ <? _)%nat; [done|].
  destruct (track_loop_no_multiplicity ev istep trigs nCuts names
              (select_tracks ev istep
                 match istep with
                 | kStepReconstructed => recoTracks ev
                 | kStepGeneratedMC => default [] (MCEvent ev)
                 end) (task1, n) Hmult Hn) as (T1 & T2 & T3).
  split; [by eapply new_calls_trans|]. done.
Qed.

Lemma steps_no_multiplicity ev nCuts names steps st :
  GetMultiplicity ev = None → all_zero st.2 →
  new_calls (fills_with zero) st.1 (foldl (step_body GetBin ev nCuts names) st steps).1
  ∧ foldl (step_body GetBin (with_multiplicity (Some []) ev) nCuts names) st steps
    = foldl (step_body GetBin ev nCuts names) st steps.
Proof.
  intros Hmult. revert st. induction steps as [|istep steps IH]; intros st Hn.
  - simpl. split; [apply new_calls_refl|done].
  - cbn [foldl].
    destruct (step_body_no_multiplicity ev nCuts names st istep Hmult Hn)
      as (H1 & H2 & H3).
    rewrite H3. destruct (IH _ H2) as (I1 & I2).
    split; [by eapply new_calls_trans|]. done.
Qed.

(** C10. When the event has no multiplicity object, the pairs are
    processed all the same, as for an event whose multiplicity object holds
    no tracklet, and every fill of a histogram of the pairs has the count 0
    on the axis of the tracklets, for every threshold and for the
    unconditional slot. *)
Theorem UserExec_no_multiplicity (ev : Event) (task : Task) :
  GetMultiplicity ev = None →
  new_calls (fills_with zero) task (UserExec Form_g GetBin ev task)
  ∧ UserExec Form_g GetBin ev task
    = UserExec Form_g GetBin (with_multiplicity (Some []) ev) task.
Proof.
  intros Hmult. unfold UserExec. cbn [with_multiplicity IsSelected MCEvent].
  destruct (negb (IsSelected ev)); [by split; [apply new_calls_refl|]|].
  assert (Hz : all_zero (replicate (length (fTrackletDistCuts task) + 1) 0)).
  { apply Forall_replicate. done. }
  destruct (steps_no_multiplicity ev (length (fTrackletDistCuts task))
              (trackletDistCutsName Form_g (fTrackletDistCuts task))
              match MCEvent ev with
              | Some _ => [kStepReconstructed; kStepGeneratedMC]
              | None => [kStepReconstructed]
              end
              (task, replicate (length (fTrackletDistCuts task) + 1) 0) Hmult Hz)
    as (H1 & H2).
  rewrite H2. split; [|done].
  apply new_calls_call; [done|]. exact H1.
Qed.

End NoMultiplicity.

Lemma UserExec_no_multiplicity_witness :
  GetMultiplicity (event0 true None) = None
  ∧ new_calls (fills_with zero) task0
              (UserExec Form_g0 GetBin0 (event0 true None) task0)
  ∧ length (pair_fills (calls (UserExec Form_g0 GetBin0 (event0 true None) task0)))
    = 3%nat.
Proof.
  split; [reflexivity|]. split; [|reflexivity].
  exact (proj1 (UserExec_no_multiplicity Form_g0 GetBin0 (event0 true None) task0
                  eq_refl)).
Defined.

(** ** The merge of histograms, counters and stores *)

Lemma merge_bins_comm (a b : gmap (list Z) Z) : merge_bins a b = merge_bins b a.
Proof.
  apply map_eq. intros k. unfold merge_bins. rewrite !lookup_union_with.
  destruct (a !! k), (b !! k); simpl; f_equal; lia.
Qed.

Lemma merge_bins_assoc (a b c : gmap (list Z) Z) :
  merge_bins a (merge_bins b c) = merge_bins (merge_bins a b) c.
Proof.
  apply map_eq. intros k. unfold merge_bins. rewrite !lookup_union_with.
  destruct (a !! k), (b !! k), (c !! k); simpl; f_equal; lia.
Qed.

Lemma merge_bins_empty_r (a : gmap (list Z) Z) : merge_bins a ∅ = a.
Proof.
  apply map_eq. intros k. unfold merge_bins.
  rewrite lookup_union_with, lookup_empty. by destruct (a !! k).
Qed.

Lemma merge_bins_empty_l (a : gmap (list Z) Z) : merge_bins ∅ a = a.
Proof. by rewrite merge_bins_comm, merge_bins_empty_r. Qed.

Lemma THnSparse_Merge_comm (h1 h2 : THnSparse) :
  THnSparse_Merge h1 h2 = THnSparse_Merge h2 h1.
Proof.
  unfold THnSparse_Merge.
  destruct (decide (sparse_axes h1 = sparse_axes h2)) as [E|NE].
  - rewrite decide_True by done. by rewrite E, merge_bins_comm.
  - by rewrite decide_False by done.
Qed.

Lemma THnSparse_Merge_assoc (h1 h2 h3 : THnSparse) :
  THnSparse_Merge h2 h3 ≫= THnSparse_Merge h1
  = THnSparse_Merge h1 h2 ≫= (λ h, THnSparse_Merge h h3).
Proof.
  unfold THnSparse_Merge.
  destruct (decide (sparse_axes h2 = sparse_axes h3)) as [E23|NE23],
           (decide (sparse_axes h1 = sparse_axes h2)) as [E12|NE12]; simpl.
  - rewrite !decide_True by congruence. by rewrite merge_bins_assoc.
  - by rewrite decide_False by done.
  - by rewrite decide_False by congruence.
  - done.
Qed.

Lemma THnSparse_Merge_empty (h : THnSparse) :
  THnSparse_Merge h (empty_like h) = Some h
  ∧ THnSparse_Merge (empty_like h) h = Some h.
Proof.
  unfold THnSparse_Merge, empty_like. simpl. rewrite !decide_True by done.
  rewrite merge_bins_empty_r, merge_bins_empty_l. by destruct h.
Qed.

Lemma Content_Merge_comm (c1 c2 : Content) : Content_Merge c1 c2 = Content_Merge c2 c1.
Proof.
  destruct c1 as [h1|x], c2 as [h2|y]; simpl; try done.
  - by rewrite THnSparse_Merge_comm.
  - do 2 f_equal. lia.
Qed.

Lemma Content_Merge_assoc (c1 c2 c3 : Content) :
  Content_Merge c2 c3 ≫= Content_Merge c1
  = Content_Merge c1 c2 ≫= (λ c, Content_Merge c c3).
Proof.
  destruct c1 as [h1|x], c2 as [h2|y], c3 as [h3|z]; simpl; try done.
  - pose proof (THnSparse_Merge_assoc h1 h2 h3) as H.
    destruct (THnSparse_Merge h2 h3), (THnSparse_Merge h1 h2); simpl in *.
    all: first [by rewrite H | by rewrite <- H | done].
  - by destruct (THnSparse_Merge h1 h2).
  - by destruct (THnSparse_Merge h2 h3).
  - do 2 f_equal. lia.
Qed.

(** Objects that fit are merged, and the merged object fits them. *)
Lemma fit_Content_Merge (a b : TObject) :
  fit a b → ∃ c, Content_Merge (content a) (content b) = Some c
                 ∧ fit {| GetName := GetName a; content := c |} a.
Proof.
  intros [Hn Hc]. destruct a as [na [ha|x]], b as [nb [hb|y]]; simpl in *; try done.
  - unfold THnSparse_Merge. rewrite decide_True by done. simpl.
    eexists. split; [done|]. by split.
  - eexists. split; [done|]. by split.
Qed.

Lemma fit_sym (a b : TObject) : fit a b → fit b a.
Proof.
  intros [Hn Hc]. split; [done|].
  destruct (content a), (content b); done.
Qed.

Lemma fit_trans (a b c : TObject) : fit a b → fit b c → fit a c.
Proof.
  intros [Hn1 Hc1] [Hn2 Hc2]. split; [congruence|].
  destruct (content a), (content b), (content c); try done. congruence.
Qed.

Lemma TObject_Merge_fit (a b : TObject) : fit (TObject_Merge a b) a.
Proof.
  unfold TObject_Merge.
  destruct (Content_Merge (content a) (content b)) as [c|] eqn:E.
  - split; [done|]. simpl.
    destruct (content a) as [ha|x], (content b) as [hb|y]; simpl in E; try done.
    + unfold THnSparse_Merge in E.
      destruct (decide (sparse_axes ha = sparse_axes hb)); [|done].
      by injection E as <-.
    + by injection E as <-.
  - split; [done|]. by destruct (content a).
Qed.

Lemma TObject_Merge_comm (a b : TObject) :
  fit a b → TObject_Merge a b = TObject_Merge b a.
Proof.
  intros Hfit. unfold TObject_Merge. rewrite (Content_Merge_comm (content b)).
  destruct (fit_Content_Merge a b Hfit) as (c & -> & _).
  by rewrite (proj1 Hfit).
Qed.

Lemma TObject_Merge_assoc (a b c : TObject) :
  fit a b → fit b c →
  TObject_Merge a (TObject_Merge b c) = TObject_Merge (TObject_Merge a b) c.
Proof.
  intros Hab Hbc. unfold TObject_Merge.
  pose proof (Content_Merge_assoc (content a) (content b) (content c)) as H.
  destruct (fit_Content_Merge a b Hab) as (cab & Eab & Hfab).
  destruct (fit_Content_Merge b c Hbc) as (cbc & Ebc & _).
  assert (Hfc : fit {| GetName := GetName a; content := cab |} c).
  { eapply fit_trans; [exact Hfab|]. by eapply fit_trans. }
  destruct (fit_Content_Merge _ c Hfc) as (cabc & Eabc & _). simpl in Eabc.
  rewrite Eab, Ebc in *. simpl in *. by rewrite H, Eabc.
Qed.

Lemma lookup_Merge (a b : gmap (string * string) TObject) (k : string * string) :
  Merge a b !! k
  = union_with (λ obj o, Some (TObject_Merge obj o)) (a !! k) (b !! k).
Proof. unfold Merge. apply lookup_union_with. Qed.

Lemma Merge_empty_r (a : gmap (string * string) TObject) : Merge a ∅ = a.
Proof.
  apply map_eq. intros k. rewrite lookup_Merge, lookup_empty. by destruct (a !! k).
Qed.

Lemma Merge_empty_l (a : gmap (string * string) TObject) : Merge ∅ a = a.
Proof.
  apply map_eq. intros k. rewrite lookup_Merge, lookup_empty. by destruct (a !! k).
Qed.

Lemma Merge_comm (a b : gmap (string * string) TObject) :
  same_structure a b → Merge a b = Merge b a.
Proof.
  intros Hs. apply map_eq. intros k. rewrite !lookup_Merge.
  destruct (a !! k) as [x|] eqn:Ea, (b !! k) as [y|] eqn:Eb; simpl; try done.
  f_equal. apply TObject_Merge_comm. by eapply Hs.
Qed.

Lemma Merge_assoc (a b c : gmap (string * string) TObject) :
  same_structure a b → same_structure b c →
  Merge a (Merge b c) = Merge (Merge a b) c.
Proof.
  intros Hab Hbc. apply map_eq. intros k. rewrite !lookup_Merge.
  destruct (a !! k) as [x|] eqn:Ea, (b !! k) as [y|] eqn:Eb,
           (c !! k) as [z|] eqn:Ec; simpl; try done.
  f_equal. apply TObject_Merge_assoc; [by eapply Hab|by eapply Hbc].
Qed.

Lemma same_structure_sym (a b : gmap (string * string) TObject) :
  same_structure a b → same_structure b a.
Proof. intros H k x y Hx Hy. apply fit_sym. by eapply H. Qed.

Lemma same_structure_empty_l (a : gmap (string * string) TObject) : same_structure ∅ a.
Proof. intros k x y Hx. by rewrite lookup_empty in Hx. Qed.

Lemma same_structure_Merge_l (a b c : gmap (string * string) TObject) :
  same_structure a c → same_structure b c → same_structure (Merge a b) c.
Proof.
  intros Hac Hbc k x z Hx Hz. rewrite lookup_Merge in Hx.
  destruct (a !! k) as [xa|] eqn:Ea, (b !! k) as [xb|] eqn:Eb; simpl in Hx;
    try done; injection Hx as <-.
  - eapply fit_trans; [apply TObject_Merge_fit|]. by eapply Hac.
  - by eapply Hac.
  - by eapply Hbc.
Qed.

Lemma same_structure_Merge_r (a b c : gmap (string * string) TObject) :
  same_structure c a → same_structure c b → same_structure c (Merge a b).
Proof.
  intros Hca Hcb. apply same_structure_sym.
  apply same_structure_Merge_l; by apply same_structure_sym.
Qed.

Lemma foldl_Merge_structure (c acc : gmap (string * string) TObject)
      (l : list (gmap (string * string) TObject)) :
  same_structure c acc → (∀ b, b ∈ l → same_structure c b) →
  same_structure c (foldl Merge acc l).
Proof.
  revert acc. induction l as [|x l IH]; intros acc Hacc Hl; simpl; [done|].
  apply IH.
  - apply same_structure_Merge_r; [done|]. apply Hl. by left.
  - intros b Hb. apply Hl. by right.
Qed.

(** A fold from an accumulator is the merge of the accumulator and of the
    fold from the empty store. *)
Lemma foldl_Merge_acc (l : list (gmap (string * string) TObject))
      (acc : gmap (string * string) TObject) :
  (∀ b, b ∈ l → same_structure acc b) → workers_fit l →
  foldl Merge acc l = Merge acc (foldl Merge ∅ l).
Proof.
  revert acc. induction l as [|x l IH]; intros acc Hacc Hfit; simpl.
  - by rewrite Merge_empty_r.
  - assert (Hl : workers_fit l).
    { intros a b Ha Hb. apply Hfit; by right. }
    assert (Hx : ∀ b, b ∈ l → same_structure x b).
    { intros b Hb. apply Hfit; [by left|by right]. }
    rewrite Merge_empty_l.
    rewrite (IH (Merge acc x)), (IH x); [|done|done| |done].
    + symmetry. apply Merge_assoc; [apply Hacc; by left|].
      apply foldl_Merge_structure; [|done].
      apply same_structure_sym, same_structure_empty_l.
    + intros b Hb. apply same_structure_Merge_l; [apply Hacc; by right|by apply Hx].
Qed.

Lemma foldl_Merge_Permutation (l l' : list (gmap (string * string) TObject)) :
  l ≡ₚ l' → ∀ acc, (∀ b, b ∈ l → same_structure acc b) → workers_fit l →
  foldl Merge acc l = foldl Merge acc l'.
Proof.
  induction 1 as [|x l l' Hp IH|x y l|l l' l'' Hp1 IH1 Hp2 IH2];
    intros acc Hacc Hfit.
  - done.
  - simpl. apply IH.
    + intros b Hb. apply same_structure_Merge_l; [apply Hacc; by right|].
      apply Hfit; [by left|by right].
    + intros a b Ha Hb. apply Hfit; by right.
  - simpl. f_equal.
    assert (Hy : same_structure acc y) by (apply Hacc; by left).
    assert (Hx : same_structure acc x) by (apply Hacc; right; by left).
    assert (Hyx : same_structure y x) by (apply Hfit; [by left|right; by left]).
    rewrite <- (Merge_assoc acc y x), <- (Merge_assoc acc x y);
      [|done|by apply same_structure_sym|done|done].
    f_equal. by apply Merge_comm.
  - rewrite IH1 by done. apply IH2.
    + intros b Hb. apply Hacc. by rewrite Hp1.
    + intros a b Ha Hb. apply Hfit; by rewrite Hp1.
Qed.

(** C2. The merge of two histograms, of two counters and of two stores is
    commutative and associative, bin by bin and path by path; the empty
    histogram and the empty store are its identity; so the stores of any
    number of workers give the same result in any order of the fold, and a
    reduction by parts gives the result of the fold from left to right. *)
Theorem Merge_commutative_associative :
  (∀ h1 h2, THnSparse_Merge h1 h2 = THnSparse_Merge h2 h1)
  ∧ (∀ h1 h2 h3,
       THnSparse_Merge h2 h3 ≫= THnSparse_Merge h1
       = THnSparse_Merge h1 h2 ≫= (λ h, THnSparse_Merge h h3))
  ∧ (∀ h, THnSparse_Merge h (empty_like h) = Some h
          ∧ THnSparse_Merge (empty_like h) h = Some h)
  ∧ (∀ c1 c2, Content_Merge c1 c2 = Content_Merge c2 c1)
  ∧ (∀ c1 c2 c3,
       Content_Merge c2 c3 ≫= Content_Merge c1
       = Content_Merge c1 c2 ≫= (λ c, Content_Merge c c3))
  ∧ (∀ x, Content_Merge (Histo1 x) (Histo1 0) = Some (Histo1 x)
          ∧ Content_Merge (Histo1 0) (Histo1 x) = Some (Histo1 x))
  ∧ (∀ a b, same_structure a b → Merge a b = Merge b a)
  ∧ (∀ a b c, same_structure a b → same_structure b c →
       Merge a (Merge b c) = Merge (Merge a b) c)
  ∧ (∀ a, Merge a ∅ = a ∧ Merge ∅ a = a)
  ∧ (∀ l l', workers_fit l → l ≡ₚ l' → merge_workers l = merge_workers l')
  ∧ (∀ l1 l2, workers_fit (l1 ++ l2) →
       Merge (merge_workers l1) (merge_workers l2) = merge_workers (l1 ++ l2)).
Proof.
  split; [apply THnSparse_Merge_comm|].
  split; [apply THnSparse_Merge_assoc|].
  split; [apply THnSparse_Merge_empty|].
  split; [apply Content_Merge_comm|].
  split; [apply Content_Merge_assoc|].
  split; [intros x; simpl; split; do 2 f_equal; lia|].
  split; [apply Merge_comm|].
  split; [apply Merge_assoc|].
  split; [intros a; split; [apply Merge_empty_r|apply Merge_empty_l]|].
  split.
  - intros l l' Hfit Hp. unfold merge_workers.
    apply foldl_Merge_Permutation; [done| |done].
    intros b _. apply same_structure_empty_l.
  - intros l1 l2 Hfit. unfold merge_workers. rewrite foldl_app.
    symmetry. apply foldl_Merge_acc.
    + intros b Hb. apply same_structure_sym.
      apply foldl_Merge_structure.
      * apply same_structure_sym, same_structure_empty_l.
      * intros a Ha. apply Hfit; apply elem_of_app; [by right|by left].
    + intros a b Ha Hb. apply Hfit; apply elem_of_app; by right.
Qed.

Lemma worker_store_same_structure (n m : Z) :
  same_structure (worker_store n) (worker_store m).
Proof.
  intros k x y Hx Hy. unfold worker_store in *.
  apply lookup_singleton_Some in Hx as [_ <-].
  apply lookup_singleton_Some in Hy as [_ <-].
  split; reflexivity.
Defined.

Lemma Merge_commutative_associative_witness :
  Merge (worker_store 1) (worker_store 2) = Merge (worker_store 2) (worker_store 1)
  ∧ Merge (worker_store 1) (worker_store 1) = worker_store 2.
Proof.
  split.
  - apply (proj1 (proj2 (proj2 (proj2 (proj2 (proj2 (proj2
             Merge_commutative_associative))))))).
    apply worker_store_same_structure.
  - apply map_eq. intros k. rewrite lookup_Merge. unfold worker_store.
    destruct (decide (k = ("/trig0/none/signal/OS"%string, "DimuSparse"%string)))
      as [->|Hne].
    + rewrite !lookup_singleton_eq. reflexivity.
    + by rewrite !lookup_singleton_ne.
Defined.

(** * Further properties of the task *)

(** ** The setter and the counter together *)

(** X1. The thresholds may be given in any order: after the setter, the
    counter increments the slot of a stored threshold exactly when the
    distance does not exceed it. *)
Theorem count_tracklet_after_SetTrackletDistCuts
        (cuts : list Double_t) (nCuts : Z) (old : list Double_t)
        (d : Double_t) (n : list Z) (i : nat) (t : Double_t) :
  Forall is_number cuts →
  SetTrackletDistCuts cuts nCuts old !! i = Some t →
  count_tracklet (SetTrackletDistCuts cuts nCuts old) d n !! i
  = if gt d t then n !! i else Z.succ <$> n !! i.
Proof.
  intros Hnum Hi. apply count_tracklet_lookup; [|done].
  unfold SetTrackletDistCuts. simpl. apply std_sort_sorted. by apply Forall_take.
Qed.

Lemma count_tracklet_after_SetTrackletDistCuts_witness :
  count_tracklet (SetTrackletDistCuts [two; five] 2 [three]) three [0; 0; 0] !! 0%nat
  = Some 1.
Proof.
  assert (Hnum : Forall is_number [two; five]) by (repeat constructor).
  exact (count_tracklet_after_SetTrackletDistCuts [two; five] 2 [three] three
           [0; 0; 0] 0 five Hnum eq_refl).
Defined.

(** ** The cascade of the counts *)

(** The loop on the thresholds increments the slots from [icut] up to some
    index, and no other. *)
Lemma cut_loop_prefix cuts icut d n :
  ∃ k : nat, (k ≤ length cuts)%nat ∧
    ∀ j : nat, cut_loop cuts icut d n !! j
      = if decide (icut ≤ j < icut + k)%nat then Z.succ <$> n !! j else n !! j.
Proof.
  revert icut n. induction cuts as [|c cuts IH]; intros icut n; simpl.
  - exists 0%nat. split; [done|]. intros j. by rewrite decide_False by lia.
  - destruct (gt d c).
    + exists 0%nat. split; [lia|]. intros j. by rewrite decide_False by lia.
    + destruct (IH (S icut) (incr icut n)) as (k & Hk & H).
      exists (S k). split; [lia|]. intros j. rewrite H.
      destruct (decide (j = icut)) as [->|Hne].
      * rewrite lookup_incr_eq. repeat case_decide; try lia; done.
      * rewrite lookup_incr_ne by done. repeat case_decide; try lia; done.
Qed.

(** One tracklet increments the slots of the thresholds up to some index
    and the slot without threshold. *)
Lemma count_tracklet_prefix (cuts : list Double_t) (d : Double_t) (n : list Z) :
  ∃ k : nat, (k ≤ length cuts)%nat ∧
    ∀ j : nat, count_tracklet cuts d n !! j
      = if decide (j < k ∨ j = length cuts)%nat then Z.succ <$> n !! j else n !! j.
Proof.
  destruct (cut_loop_prefix cuts 0 d n) as (k & Hk & H).
  exists k. split; [done|]. intros j. unfold count_tracklet.
  destruct (decide (j = length cuts)) as [->|Hne].
  - rewrite lookup_incr_eq, H. repeat case_decide; try lia; done.
  - rewrite lookup_incr_ne by done. rewrite H. repeat case_decide; try lia; done.
Qed.

Lemma cascade_count_tracklet (cuts : list Double_t) (d : Double_t) (bound : Z)
      (n : list Z) :
  cascade (length cuts) bound n →
  cascade (length cuts) (bound + 1) (count_tracklet cuts d n).
Proof.
  intros (Hlen & Hmono & Hlast & Hbound).
  destruct (count_tracklet_prefix cuts d n) as (k & Hk & H).
  assert (Hsome : ∀ j v, count_tracklet cuts d n !! j = Some v →
            ∃ w, n !! j = Some w
                 ∧ v = if decide (j < k ∨ j = length cuts)%nat then w + 1 else w).
  { intros j v. rewrite H. destruct (n !! j) as [w|]; simpl.
    - intros Hv. exists w. split; [done|].
      destruct (decide (j < k ∨ j = length cuts)%nat); simpl in Hv;
        injection Hv as <-; lia.
    - by destruct (decide (j < k ∨ j = length cuts)%nat). }
  split; [by rewrite length_count_tracklet|]. split; [|split].
  - intros i j vi vj Hij Hj Hi' Hj'.
    apply Hsome in Hi' as (wi & Hwi & ->). apply Hsome in Hj' as (wj & Hwj & ->).
    pose proof (Hmono i j wi wj Hij Hj Hwi Hwj).
    repeat case_decide; lia.
  - intros i vi vL Hi' HL'.
    apply Hsome in Hi' as (wi & Hwi & ->). apply Hsome in HL' as (wL & HwL & ->).
    pose proof (Hlast i wi wL Hwi HwL).
    repeat case_decide; lia.
  - intros i vi Hi'. apply Hsome in Hi' as (wi & Hwi & ->).
    pose proof (Hbound i wi Hwi). repeat case_decide; lia.
Qed.

Lemma cascade_weaken (L : nat) (b b' : Z) (n : list Z) :
  b ≤ b' → cascade L b n → cascade L b' n.
Proof.
  intros Hb (H1 & H2 & H3 & H4). repeat split; try done.
  - by apply (H4 i vi).
  - pose proof (H4 i vi H). lia.
Qed.

Lemma cascade_tracklet_loop (cuts : list Double_t) (phi : Double_t)
      (tracklets : list Tracklet) (bound : Z) (n : list Z) :
  cascade (length cuts) bound n →
  cascade (length cuts) (bound + Z.of_nat (length tracklets))
          (tracklet_loop cuts phi tracklets n).
Proof.
  revert bound n. induction tracklets as [|trk l IH]; intros bound n Hn.
  - simpl. by rewrite Z.add_0_r.
  - unfold tracklet_loop in *. cbn [foldl length].
    replace (bound + Z.of_nat (S (length l)))
      with ((bound + 1) + Z.of_nat (length l)) by lia.
    apply IH. destruct (tracklet_is_far phi trk).
    + eapply cascade_weaken; [|done]. lia.
    + by apply cascade_count_tracklet.
Qed.

Lemma cascade_zeros (L : nat) : cascade L 0 (replicate (S L) 0).
Proof.
  split; [by rewrite length_replicate|].
  assert (H : ∀ i v, replicate (S L) 0 !! i = Some v → v = 0).
  { intros i v Hv. by apply lookup_replicate in Hv as [-> _]. }
  repeat split.
  - intros i j vi vj _ _ Hi Hj. apply H in Hi, Hj. lia.
  - intros i vi vL Hi HL. apply H in Hi, HL. lia.
  - apply H in H0. lia.
  - apply H in H0. lia.
Qed.

(** X2. For every list of thresholds, sorted or not, the counts of a pair form
    a cascade: a threshold never counts more tracklets than a threshold
    before it, no threshold counts more than the slot without threshold,
    and no count is below 0 or above the number of tracklets. *)
Theorem count_tracklets_cascade (cuts : list Double_t) (phi : Double_t)
        (tracklets : list Tracklet) (n : list Z) :
  length n = S (length cuts) →
  cascade (length cuts) (Z.of_nat (length tracklets))
          (count_tracklets cuts (Some tracklets) phi n).
Proof.
  intros Hlen. unfold count_tracklets. rewrite Hlen.
  apply (cascade_tracklet_loop cuts phi tracklets 0). apply cascade_zeros.
Qed.

Lemma count_tracklets_cascade_witness :
  cascade 2 3 (count_tracklets [five; two] (Some tracklets0)
                               (phi_of_pair (opp (of_Z 1))) [7; 7; 7]).
Proof.
  exact (count_tracklets_cascade [five; two] (phi_of_pair (opp (of_Z 1)))
           tracklets0 [7; 7; 7] eq_refl).
Defined.

(** ** The selection of the tracks *)

Lemma select_tracks_track_more (ev : Event) (istep : Step) (tracks : list Track) :
  select_tracks ev istep tracks = omap (track_more ev istep) (imap pair tracks).
Proof. reflexivity. Qed.

Lemma select_tracks_offset (ev : Event) (istep : Step) (tracks : list Track) (k : nat) :
  GetTrack <$> omap (track_more ev istep) (imap (λ i t, ((k + i)%nat, t)) tracks)
  = filter (λ t, isSelected ev istep t = true) tracks
  ∧ Forall (track_more_ok ev istep k tracks)
           (omap (track_more ev istep) (imap (λ i t, ((k + i)%nat, t)) tracks)).
Proof.
  revert k. induction tracks as [|t tracks IH]; intros k; [by split|].
  rewrite imap_cons. cbn [omap list_omap]. rewrite filter_cons.
  assert (Himap : imap ((λ i t0, ((k + i)%nat, t0)) ∘ S) tracks
                  = imap (λ i t0, ((S k + i)%nat, t0)) tracks).
  { apply imap_ext. intros i x _. simpl. f_equal. lia. }
  rewrite Himap. destruct (IH (S k)) as [IH1 IH2].
  assert (IH2' : Forall (track_more_ok ev istep k (t :: tracks))
            (omap (track_more ev istep) (imap (λ i t0, ((S k + i)%nat, t0)) tracks))).
  { eapply Forall_impl; [exact IH2|]. intros tm (H1 & H2 & H3).
    split; [done|]. split; [done|]. destruct istep; [done|].
    destruct H3 as (i & Hl & Hi). exists (S i). split; [|done].
    rewrite Hl. f_equal. lia. }
  assert (Htm : track_more ev istep ((k + 0)%nat, t)
                = if isSelected ev istep t
                  then Some {| GetTrack := t;
                               fParticleType := GetParticleType ev t;
                               fHistory := GetTrackHistory ev t;
                               fLabel := match istep with
                                         | kStepReconstructed => GetLabel t
                                         | kStepGeneratedMC => Z.of_nat (k + 0)
                                         end |}
                  else None) by reflexivity.
  rewrite Htm. clear Htm.
  destruct (isSelected ev istep t) eqn:Hsel.
  - rewrite decide_True by done. split.
    + rewrite fmap_cons. cbn [GetTrack]. f_equal. exact IH1.
    + constructor; [|exact IH2'].
      split; [done|]. split; [done|]. destruct istep; [done|].
      exists 0%nat. split; [done|done].
  - rewrite decide_False by done. by split.
Qed.

(** X3. The selected tracks are the tracks that pass the selection of the step,
    in the order of the tracks; each holds the particle type and the history
    of its track; its label is the label of the track for a reconstructed
    track, and the index of the particle for a generated one. *)
Theorem select_tracks_spec (ev : Event) (istep : Step) (tracks : list Track) :
  GetTrack <$> select_tracks ev istep tracks
  = filter (λ t, isSelected ev istep t = true) tracks
  ∧ Forall (λ tm, fParticleType tm = GetParticleType ev (GetTrack tm)
                  ∧ fHistory tm = GetTrackHistory ev (GetTrack tm)
                  ∧ match istep with
                    | kStepReconstructed => fLabel tm = GetLabel (GetTrack tm)
                    | kStepGeneratedMC =>
                        0 ≤ fLabel tm
                        ∧ tracks !! Z.to_nat (fLabel tm) = Some (GetTrack tm)
                    end)
           (select_tracks ev istep tracks).
Proof.
  rewrite select_tracks_track_more.
  destruct (select_tracks_offset ev istep tracks 0) as [H1 H2].
  split; [exact H1|].
  eapply Forall_impl; [exact H2|]. intros tm (Ha & Hb & Hc).
  split; [done|]. split; [done|]. destruct istep; [done|].
  destruct Hc as (i & Hl & Hi). rewrite Hl. split; [lia|].
  by rewrite Nat2Z.id.
Qed.

(** ** The pairs of selected tracks *)

Lemma length_pairs_of {A} (l : list A) :
  (2 * length (pairs_of l) = length l * (length l - 1))%nat.
Proof.
  induction l as [|x l IH]; [done|].
  cbn [pairs_of length]. rewrite length_app, length_fmap. nia.
Qed.

Lemma elem_of_pairs_of {A} (l : list A) (a b : A) :
  (a, b) ∈ pairs_of l
  ↔ ∃ i j : nat, (i < j)%nat ∧ l !! i = Some a ∧ l !! j = Some b.
Proof.
  induction l as [|x l IH]; simpl.
  - split; [by intros ?%elem_of_nil|]. by intros (i & j & _ & ? & _).
  - rewrite elem_of_app, IH, list_elem_of_fmap. split.
    + intros [(y & [= -> ->] & Hy)|(i & j & Hij & Hi & Hj)].
      * apply list_elem_of_lookup in Hy as [j Hj].
        exists 0%nat, (S j). split; [lia|]. by split.
      * exists (S i), (S j). split; [lia|]. by split.
    + intros (i & j & Hij & Hi & Hj). destruct j as [|j]; [lia|].
      destruct i as [|i]; simpl in *.
      * left. injection Hi as ->. exists b. split; [done|].
        apply list_elem_of_lookup. by exists j.
      * right. exists i, j. split; [lia|]. by split.
Qed.

Section PairLoop.

Variable GetBin : list (list Double_t) → ContainerInput → list Z.

Lemma track_loop_foldl_pairs (ev : Event) (istep : Step) (trigs : list string)
      (nCuts : nat) (names : list string)
      (sel : list AliTrackMore) (st : Task * list Z) :
  track_loop GetBin ev istep trigs nCuts names sel st
  = foldl (λ st p, pair_body GetBin ev istep trigs nCuts names p.1 st p.2)
          st (pairs_of sel).
Proof.
  revert st. induction sel as [|tm sel IH]; intros st; [done|].
  cbn [track_loop pairs_of]. rewrite foldl_app, IH. f_equal.
  clear IH. revert st. induction sel as [|tm2 sel IH2]; intros st; [done|].
  rewrite fmap_cons. cbn [foldl fst snd]. apply IH2.
Qed.

(** X4. The double loop on the selected tracks processes the pairs of a track
    and a track after it, each pair of positions once, in the order of
    [pairs_of]: a list of [n] tracks gives [n (n - 1) / 2] pairs. *)
Theorem track_loop_pairs (ev : Event) (istep : Step) (trigs : list string)
        (nCuts : nat) (names : list string)
        (sel : list AliTrackMore) (st : Task * list Z) :
  track_loop GetBin ev istep trigs nCuts names sel st
  = foldl (λ st p, pair_body GetBin ev istep trigs nCuts names p.1 st p.2)
          st (pairs_of sel)
  ∧ (2 * length (pairs_of sel) = length sel * (length sel - 1))%nat
  ∧ (∀ a b, (a, b) ∈ pairs_of sel
            ↔ ∃ i j : nat, (i < j)%nat ∧ sel !! i = Some a ∧ sel !! j = Some b).
Proof.
  split; [apply track_loop_foldl_pairs|].
  split; [apply length_pairs_of|apply elem_of_pairs_of].
Qed.

End PairLoop.

(** ** The processing of an event as a sequence of fills *)

Lemma foldl_rel {A B} (R : A → A → Prop) (f : A → B → A) (l : list B) (a : A) :
  (∀ a, R a a) → (∀ a b c, R a b → R b c → R a c) →
  (∀ a b, R a (f a b)) → R a (foldl f a l).
Proof.
  intros Hrefl Htrans Hf. revert a. induction l as [|b l IH]; intros a; simpl.
  - apply Hrefl.
  - eapply Htrans; [apply Hf|apply IH].
Qed.

Section Steps.

Variable Form_g : Double_t → string.
Variable GetBin : list (list Double_t) → ContainerInput → list Z.

(** A relation between tasks that holds along the fills. *)
Variable R : Task → Task → Prop.
Hypothesis R_refl : ∀ t, R t t.
Hypothesis R_trans : ∀ a b c, R a b → R b c → R a c.
Hypothesis R_DimuSparse : ∀ identifier x t, R t (fill_DimuSparse GetBin identifier x t).

Lemma dispatch_trigClass_steps ev istep track track2 x pairType charge nCuts
      names (n : list Z) task trigClass :
  R task (dispatch_trigClass GetBin ev istep track track2 x pairType charge
                             nCuts names n task trigClass).
Proof.
  unfold dispatch_trigClass.
  destruct (match istep with kStepReconstructed => _ | kStepGeneratedMC => _ end);
    [apply R_refl|].
  apply foldl_rel; [done|done|]. intros t icut. apply R_DimuSparse.
Qed.

Lemma pair_body_steps ev istep trigs nCuts names tm st tm2 :
  R st.1 (pair_body GetBin ev istep trigs nCuts names tm st tm2).1.
Proof.
  destruct st as [task n]. unfold pair_body. cbn [fst].
  destruct (negb _); [apply R_refl|]. cbn [fst].
  apply foldl_rel; [done|done|]. intros t trig. apply dispatch_trigClass_steps.
Qed.

Lemma track_loop_steps ev istep trigs nCuts names sel st :
  R st.1 (track_loop GetBin ev istep trigs nCuts names sel st).1.
Proof.
  revert st. induction sel as [|tm sel IH]; intros st; [apply R_refl|].
  cbn [track_loop]. eapply R_trans; [|apply IH].
  apply (foldl_rel (λ s s' : Task * list Z, R s.1 s'.1)); [done|eauto|].
  intros s tm2. apply pair_body_steps.
Qed.

Hypothesis R_nevents : ∀ identifier t, R t (fill_nevents identifier t).

Lemma step_body_steps ev nCuts names st istep :
  R st.1 (step_body GetBin ev nCuts names st istep).1.
Proof.
  destruct st as [task n]. unfold step_body. cbn [fst].
  set (trigs := match istep with
                | kStepReconstructed => GetSelectedTrigClassesInEvent ev
                | kStepGeneratedMC => ["generated"]
                end).
  assert (H1 : R task (foldl (λ t trigClass, fill_nevents ("/" +:+ trigClass) t)
                             task trigs)).
  { apply foldl_rel; [done|done|]. intros t trig. apply R_nevents. }
  destruct (_ <? _)%nat; [done|].
  eapply R_trans; [exact H1|]. apply (track_loop_steps ev istep trigs nCuts names _ (_, n)).
Qed.

Hypothesis R_PostData : ∀ t, R t (call PostData t).

(** The processing of an event is a sequence of fills of event counters and
    of histograms of the pairs, and the posting of the output. *)
Lemma UserExec_steps ev task : R task (UserExec Form_g GetBin ev task).
Proof.
  unfold UserExec. destruct (negb (IsSelected ev)); [apply R_refl|].
  eapply R_trans; [|apply R_PostData].
  apply (foldl_rel (λ s s' : Task * list Z, R s.1 s'.1)
                   (step_body GetBin ev (length (fTrackletDistCuts task))
                      (trackletDistCutsName Form_g (fTrackletDistCuts task)))
                   _ (task, replicate (length (fTrackletDistCuts task) + 1) 0));
    [done|eauto|].
  intros s istep. apply step_body_steps.
Qed.

End Steps.

(** ** What the fills keep *)

Lemma occurrences_cons (identifier i : string) (l : list string) :
  occurrences identifier (i :: l)
  = (if decide (i = identifier) then 1 else 0) + occurrences identifier l.
Proof.
  unfold occurrences. rewrite filter_cons.
  destruct (decide (i = identifier)); simpl; lia.
Qed.

Lemma occurrences_app (identifier : string) (l1 l2 : list string) :
  occurrences identifier (l1 ++ l2)
  = occurrences identifier l1 + occurrences identifier l2.
Proof.
  unfold occurrences. rewrite filter_app, length_app. lia.
Qed.

(** *** The binary32 contents of the bins *)

Lemma digits2_pos_iter_xO (k p : positive) :
  digits2_pos (Pos.iter xO p k) = (digits2_pos p + k)%positive.
Proof.
  induction k using Pos.peano_ind.
  - simpl. lia.
  - rewrite Pos.iter_succ. cbn [digits2_pos]. rewrite IHk. lia.
Qed.

(** The rounding to binary32 of a mantissa of 24 digits changes nothing. *)
Lemma binary_round_aux_24 (m : positive) (e : Z) :
  digits2_pos m = 24%positive → -149 ≤ e ≤ 104 →
  binary_round_aux 24 128 false (Zpos m) e loc_Exact = S754_finite false m e.
Proof.
  intros Hd He. unfold binary_round_aux, shr_fexp. cbn [Zdigits2]. rewrite Hd.
  assert (Hf : fexp 24 128 (24 + e) - e = 0) by (unfold fexp, emin; lia).
  rewrite Hf. cbn [shr shr_record_of_loc shr_m loc_of_shr_record shr_r shr_s
                   round_nearest_even Zdigits2].
  rewrite Hd, Hf. cbn [shr shr_record_of_loc shr_m].
  replace (e <=? 128 - 24) with true by (symmetry; apply Z.leb_le; lia).
  reflexivity.
Qed.

(** A positive integer below [2^24] is a binary32 number. *)
Lemma Float_t_of_Z_exact (p : positive) :
  Zpos p < Float_t_limit →
  ∃ (m : positive) (k : Z),
    Float_t_of_Z (Zpos p) = S754_finite false m (- k)
    ∧ 0 ≤ k ∧ Zpos m = Zpos p * 2 ^ k.
Proof.
  intros Hp. unfold Float_t_of_Z, binary_normalize, binary_round.
  pose proof (digits2_pos_bounds p) as [Hlo Hhi].
  assert (Hd : Zpos (digits2_pos p) ≤ 24).
  { destruct (Z_le_gt_dec (Zpos (digits2_pos p)) 24) as [|Hgt]; [assumption|].
    assert (2 ^ 24 ≤ 2 ^ (Zpos (digits2_pos p) - 1)) by (apply Z.pow_le_mono_r; lia).
    unfold Float_t_limit in Hp. lia. }
  assert (Hf : fexp 24 128 (Zpos (digits2_pos p) + 0) = Zpos (digits2_pos p) - 24)
    by (unfold fexp, emin; lia).
  rewrite Hf. unfold shl_align.
  destruct (Zpos (digits2_pos p) - 24 - 0) as [|d|d] eqn:Ed; [|lia|].
  - exists p, 0. rewrite binary_round_aux_24 by (lia || (apply Pos2Z.inj; lia)).
    split; [reflexivity|]. split; lia.
  - exists (Pos.iter xO p d), (Zpos d).
    rewrite binary_round_aux_24.
    + split; [f_equal; lia|]. split; [lia|]. apply Pos_iter_xO.
    + rewrite digits2_pos_iter_xO. apply Pos2Z.inj. rewrite Pos2Z.inj_add. lia.
    + lia.
Qed.

(** The content of a bin of binary32 goes up by one with a fill as long as
    it is below [2^24]; at [2^24] a fill leaves it as it is. *)
Lemma Float_t_add1_spec (c : Z) :
  0 ≤ c ≤ Float_t_limit → Float_t_add1 c = Z.min (c + 1) Float_t_limit.
Proof.
  intros Hc. unfold Float_t_add1.
  destruct (Z.eq_dec c Float_t_limit) as [->|Hne1]; [reflexivity|].
  destruct (Z.eq_dec c (Float_t_limit - 1)) as [->|Hne2]; [reflexivity|].
  rewrite Z.min_l by lia.
  destruct (c + 1) as [|p|p] eqn:Ep; [lia| |lia].
  destruct (Float_t_of_Z_exact p) as (m & k & -> & Hk & Hm); [lia|].
  cbn [Float_t_to_Z cond_Zopp].
  rewrite <- Z.shiftr_opp_r, Z.opp_involutive, Z.shiftr_div_pow2 by lia.
  rewrite Hm. apply Z.div_mul. apply Z.pow_nonzero; lia.
Qed.

Lemma Float_t_limit_pos : 0 < Float_t_limit.
Proof. reflexivity. Qed.

Lemma step_ok_refl (t : Task) : step_ok t t.
Proof.
  split; [by repeat split|]. split; [by exists []|]. intros Hok.
  split; [done|]. done.
Qed.

Lemma step_ok_trans (a b c : Task) : step_ok a b → step_ok b c → step_ok a c.
Proof.
  intros ((Ha1 & Ha2 & Ha3) & (na & Hna) & Hab) ((Hb1 & Hb2 & Hb3) & (nb & Hnb) & Hbc).
  split; [repeat split; congruence|].
  split; [exists (nb ++ na); by rewrite Hnb, Hna, app_assoc|].
  intros Hok. destruct (Hab Hok) as (Hokb & Hn1).
  destruct (Hbc Hokb) as (Hokc & Hn2).
  split; [done|]. intros id. by rewrite Hn2, Hn1.
Qed.

Lemma step_ok_PostData (t : Task) : step_ok t (call PostData t).
Proof.
  split; [by repeat split|]. split; [by exists [PostData]|].
  intros Hok. split; [done|]. done.
Qed.

(** The fill of the histogram of the pairs at a path: the histogram of the
    path, or a clone of the template when there is none, gets one more
    entry in the bin of the sample. *)
Lemma fill_DimuSparse_result
      (GetBin : list (list Double_t) → ContainerInput → list Z)
      (identifier : string) (x : ContainerInput) (t : Task) :
  task_ok t →
  ∃ (h0 : THnSparse) (msgs : list Call),
    (fMergeableCollection t !! (identifier, "DimuSparse"%string)
     = Some {| GetName := "DimuSparse"; content := Sparse h0 |}
     ∨ (fMergeableCollection t !! (identifier, "DimuSparse"%string) = None
        ∧ h0 = fSparse t))
    ∧ sparse_axes h0 = sparse_axes (fSparse t)
    ∧ nevents_fills msgs = [] ∧ pair_fills msgs = []
    ∧ fill_DimuSparse GetBin identifier x t
      = {| fSelectedPairTypes := fSelectedPairTypes t;
           fTrackletDistCuts := fTrackletDistCuts t;
           fSparse := fSparse t;
           fMergeableCollection :=
             <[(identifier, "DimuSparse"%string) :=
                 {| GetName := "DimuSparse";
                    content := THnSparse_Fill (GetBin (sparse_axes h0) x)
                                              (Sparse h0) |}]>
               (fMergeableCollection t);
           calls := Fill_DimuSparse identifier x :: msgs ++ calls t |}.
Proof.
  intros Hok. unfold fill_DimuSparse, GetMergeableObject, GetObject.
  destruct (fMergeableCollection t !! (identifier, "DimuSparse"%string))
    as [o|] eqn:Hget.
  - destruct (Hok _ _ _ Hget) as (Hname & [(_ & h & Hc & Hax)|(Hn & _)]);
      [|discriminate].
    destruct o as [nm ct]. simpl in Hname, Hc. subst nm ct.
    exists h, []. split; [by left|]. split; [done|]. split; [done|]. split; [done|].
    unfold call, update_object, set_collection. cbn -[THnSparse_Fill].
    f_equal. apply map_eq. intros k. rewrite lookup_alter, lookup_insert.
    case_decide as Hk; [|done]. subst k. by rewrite Hget.
  - cbn -[THnSparse_Fill]. rewrite Hget.
    exists (fSparse t), [AliInfo_collection_size].
    split; [by right|]. split; [done|]. split; [done|]. split; [done|].
    unfold call, update_object, set_collection. cbn -[THnSparse_Fill].
    f_equal. apply map_eq. intros k. rewrite lookup_alter, !lookup_insert.
    case_decide as Hk; [|done]. subst k. by rewrite decide_True.
Qed.

(** The fill of the event counter at a path: the counter of the path, or a
    new counter at 0 when there is none, goes up by one. *)
Lemma fill_nevents_result (identifier : string) (t : Task) :
  task_ok t →
  ∃ (z : Z) (msgs : list Call),
    (fMergeableCollection t !! (identifier, "nevents"%string)
     = Some {| GetName := "nevents"; content := Histo1 z |}
     ∨ (fMergeableCollection t !! (identifier, "nevents"%string) = None ∧ z = 0))
    ∧ 0 ≤ z
    ∧ nevents_fills msgs = [] ∧ pair_fills msgs = []
    ∧ fill_nevents identifier t
      = {| fSelectedPairTypes := fSelectedPairTypes t;
           fTrackletDistCuts := fTrackletDistCuts t;
           fSparse := fSparse t;
           fMergeableCollection :=
             <[(identifier, "nevents"%string) :=
                 {| GetName := "nevents"; content := Histo1 (z + 1) |}]>
               (fMergeableCollection t);
           calls := Fill_nevents identifier :: msgs ++ calls t |}.
Proof.
  intros Hok. unfold fill_nevents, GetMergeableObject, GetObject.
  destruct (fMergeableCollection t !! (identifier, "nevents"%string))
    as [o|] eqn:Hget.
  - destruct (Hok _ _ _ Hget) as (Hname & [(Hn & _)|(_ & z & Hc & Hz)]);
      [discriminate|].
    destruct o as [nm ct]. simpl in Hname, Hc. subst nm ct.
    exists z, []. split; [by left|]. split; [done|]. split; [done|]. split; [done|].
    unfold call, update_object, set_collection. cbn.
    f_equal. apply map_eq. intros k. rewrite lookup_alter, lookup_insert.
    case_decide as Hk; [|done]. subst k. by rewrite Hget.
  - cbn. rewrite Hget.
    exists 0, [AliInfo_collection_size].
    split; [by right|]. split; [done|]. split; [done|]. split; [done|].
    unfold call, update_object, set_collection. cbn.
    f_equal. apply map_eq. intros k. rewrite lookup_alter, !lookup_insert.
    case_decide as Hk; [|done]. subst k. by rewrite decide_True.
Qed.

Lemma GetMergeableObject_frame (identifier objectName : string) (t : Task) :
  same_config t (GetMergeableObject identifier objectName t).2
  ∧ ∃ new, calls (GetMergeableObject identifier objectName t).2 = new ++ calls t.
Proof.
  unfold GetMergeableObject. destruct (GetObject _ _ _).
  { split; [by repeat split|by exists []]. }
  destruct (String.eqb objectName "DimuSparse"); cbn.
  { split; [by repeat split|by exists [AliInfo_collection_size]]. }
  destruct (String.eqb objectName "nevents"); cbn.
  { split; [by repeat split|by exists [AliInfo_collection_size]]. }
  split; [by repeat split|].
  by exists [AliInfo_collection_size;
             AliError ("Unknown object " +:+ objectName +:+ newline)].
Qed.

Lemma fill_nevents_frame (identifier : string) (t : Task) :
  same_config t (fill_nevents identifier t)
  ∧ ∃ new, calls (fill_nevents identifier t) = new ++ calls t.
Proof.
  unfold fill_nevents.
  destruct (GetMergeableObject_frame identifier "nevents" t) as [Hc (new & Hn)].
  destruct (GetMergeableObject identifier "nevents" t) as [[o|] t1];
    cbn [snd] in *; [|by split; [|exists new]].
  split; [exact Hc|]. exists (Fill_nevents identifier :: new). cbn. by rewrite Hn.
Qed.

Lemma fill_DimuSparse_frame
      (GetBin : list (list Double_t) → ContainerInput → list Z)
      (identifier : string) (x : ContainerInput) (t : Task) :
  same_config t (fill_DimuSparse GetBin identifier x t)
  ∧ ∃ new, calls (fill_DimuSparse GetBin identifier x t) = new ++ calls t.
Proof.
  unfold fill_DimuSparse.
  destruct (GetMergeableObject_frame identifier "DimuSparse" t) as [Hc (new & Hn)].
  destruct (GetMergeableObject identifier "DimuSparse" t) as [[o|] t1];
    cbn [snd] in *; [|by split; [|exists new]].
  split; [exact Hc|]. exists (Fill_DimuSparse identifier x :: new). cbn. by rewrite Hn.
Qed.

Lemma nevents_fills_app (l1 l2 : list Call) :
  nevents_fills (l1 ++ l2) = nevents_fills l1 ++ nevents_fills l2.
Proof. unfold nevents_fills. apply omap_app. Qed.

Lemma step_ok_fill_DimuSparse
      (GetBin : list (list Double_t) → ContainerInput → list Z)
      (identifier : string) (x : ContainerInput) (t : Task) :
  step_ok t (fill_DimuSparse GetBin identifier x t).
Proof.
  destruct (fill_DimuSparse_frame GetBin identifier x t) as [Hcfg Hcalls].
  split; [done|]. split; [done|]. intros Hok.
  destruct (fill_DimuSparse_result GetBin identifier x t Hok)
    as (h0 & msgs & Hh0 & Hax & Hmsgs1 & Hmsgs2 & ->).
  split.
  - (* the objects stay well-formed *)
    intros i n o. cbn. rewrite lookup_insert. case_decide as Hk.
    + injection Hk as <- <-. intros [= <-]. split; [done|]. left. split; [done|].
      eexists. split; [reflexivity|]. done.
    + apply Hok.
  - (* the event counters *)
    intros i. unfold nevents_at. cbn.
    rewrite lookup_insert_ne by congruence.
    by rewrite nevents_fills_app, Hmsgs1.
Qed.

Lemma step_ok_fill_nevents (identifier : string) (t : Task) :
  step_ok t (fill_nevents identifier t).
Proof.
  destruct (fill_nevents_frame identifier t) as [Hcfg Hcalls].
  split; [done|]. split; [done|]. intros Hok.
  destruct (fill_nevents_result identifier t Hok)
    as (z & msgs & Hz & Hz0 & Hmsgs1 & Hmsgs2 & ->).
  split.
  - intros i n o. cbn. rewrite lookup_insert. case_decide as Hk.
    + injection Hk as <- <-. intros [= <-]. split; [done|]. right. split; [done|].
      exists (z + 1). split; [done|lia].
    + apply Hok.
  - intros i. unfold nevents_at. cbn.
    rewrite nevents_fills_app, Hmsgs1. cbn. rewrite occurrences_cons.
    rewrite lookup_insert.
    destruct (decide (identifier = i)) as [->|Hne].
    + rewrite decide_True by done. cbn.
      destruct Hz as [-> | [-> ->]]; cbn; lia.
    + rewrite decide_False by congruence. lia.
Qed.

(** ** The calls of the fills *)

Lemma GetMergeableObject_known (identifier objectName : string) (t : Task) :
  objectName = "DimuSparse"%string ∨ objectName = "nevents"%string →
  ∃ (obj : TObject) (msgs : list Call),
    (GetMergeableObject identifier objectName t).1 = Some obj
    ∧ calls (GetMergeableObject identifier objectName t).2 = msgs ++ calls t
    ∧ nevents_fills msgs = [] ∧ pair_fills msgs = [].
Proof.
  intros Hname. unfold GetMergeableObject.
  destruct (GetObject _ _ _) as [o|]; [by exists o, []|].
  destruct Hname as [-> | ->]; cbn.
  - by eexists _, [AliInfo_collection_size].
  - by eexists _, [AliInfo_collection_size].
Qed.

Lemma fill_DimuSparse_calls
      (GetBin : list (list Double_t) → ContainerInput → list Z)
      (identifier : string) (x : ContainerInput) (t : Task) :
  ∃ msgs, calls (fill_DimuSparse GetBin identifier x t)
          = Fill_DimuSparse identifier x :: msgs ++ calls t
          ∧ nevents_fills msgs = [] ∧ pair_fills msgs = [].
Proof.
  unfold fill_DimuSparse.
  destruct (GetMergeableObject_known identifier "DimuSparse" t)
    as (obj & msgs & H1 & H2 & H3 & H4); [by left|].
  destruct (GetMergeableObject identifier "DimuSparse" t) as [o t1].
  cbn [fst snd] in *. subst o. exists msgs. cbn. by rewrite H2.
Qed.

Lemma fill_nevents_calls (identifier : string) (t : Task) :
  ∃ msgs, calls (fill_nevents identifier t)
          = Fill_nevents identifier :: msgs ++ calls t
          ∧ nevents_fills msgs = [] ∧ pair_fills msgs = [].
Proof.
  unfold fill_nevents.
  destruct (GetMergeableObject_known identifier "nevents" t)
    as (obj & msgs & H1 & H2 & H3 & H4); [by right|].
  destruct (GetMergeableObject identifier "nevents" t) as [o t1].
  cbn [fst snd] in *. subst o. exists msgs. cbn. by rewrite H2.
Qed.

Lemma pair_fills_app (l1 l2 : list Call) :
  pair_fills (l1 ++ l2) = pair_fills l1 ++ pair_fills l2.
Proof. unfold pair_fills. apply omap_app. Qed.

Lemma pair_fills_fill_DimuSparse
      (GetBin : list (list Double_t) → ContainerInput → list Z)
      (identifier : string) (x : ContainerInput) (t : Task) :
  pair_fills (calls (fill_DimuSparse GetBin identifier x t))
  = (identifier, x) :: pair_fills (calls t)
  ∧ nevents_fills (calls (fill_DimuSparse GetBin identifier x t))
    = nevents_fills (calls t).
Proof.
  destruct (fill_DimuSparse_calls GetBin identifier x t) as (msgs & -> & H1 & H2).
  split.
  - change (pair_fills (Fill_DimuSparse identifier x :: msgs ++ calls t))
      with ((identifier, x) :: pair_fills (msgs ++ calls t)).
    by rewrite pair_fills_app, H2.
  - change (nevents_fills (Fill_DimuSparse identifier x :: msgs ++ calls t))
      with (nevents_fills (msgs ++ calls t)).
    by rewrite nevents_fills_app, H1.
Qed.

Lemma pair_fills_fill_nevents (identifier : string) (t : Task) :
  pair_fills (calls (fill_nevents identifier t)) = pair_fills (calls t)
  ∧ nevents_fills (calls (fill_nevents identifier t))
    = identifier :: nevents_fills (calls t).
Proof.
  destruct (fill_nevents_calls identifier t) as (msgs & -> & H1 & H2).
  split.
  - change (pair_fills (Fill_nevents identifier :: msgs ++ calls t))
      with (pair_fills (msgs ++ calls t)).
    by rewrite pair_fills_app, H2.
  - change (nevents_fills (Fill_nevents identifier :: msgs ++ calls t))
      with (identifier :: nevents_fills (msgs ++ calls t)).
    by rewrite nevents_fills_app, H1.
Qed.

Section Dispatch.

Variable Form_g : Double_t → string.
Variable GetBin : list (list Double_t) → ContainerInput → list Z.

Lemma foldl_dispatch_cut_fills x trigClass pairType charge names (n : list Z)
      (l : list nat) task :
  pair_fills (calls (foldl (dispatch_cut GetBin x trigClass pairType charge names n)
                           task l))
  = rev ((λ icut : nat,
            ("/" +:+ trigClass +:+ "/" +:+ default "" (names !! icut)
                 +:+ "/" +:+ pairType +:+ "/" +:+ charge,
             set_kHtracklets x (of_Z (default 0 (n !! icut))))) <$> l)
    ++ pair_fills (calls task).
Proof.
  revert task. induction l as [|icut l IH]; intros task; [done|].
  cbn [foldl]. rewrite IH. unfold dispatch_cut.
  rewrite (proj1 (pair_fills_fill_DimuSparse _ _ _ _)).
  rewrite fmap_cons. cbn [rev]. by rewrite <- app_assoc.
Qed.

(** X5. For one trigger class of a pair, the histograms of the pairs are filled
    once for each threshold and once for the slot without threshold, in the
    order of the thresholds: each fill goes to the path of the trigger
    class, of the name of the threshold, of the pair type and of the charge
    label, with the count of its threshold; when the pair does not match
    the cut of the trigger class in the reconstructed step, there is no
    fill. *)
Theorem dispatch_trigClass_fills ev istep track track2 x pairType charge
        (nCuts : nat) names (n : list Z) task trigClass :
  pair_fills (calls (dispatch_trigClass GetBin ev istep track track2 x pairType
                                        charge nCuts names n task trigClass))
  = (if match istep with
        | kStepReconstructed =>
            negb (TrackPtCutMatchTrigClass ev track track2 trigClass)
        | kStepGeneratedMC => false
        end
     then []
     else rev ((λ icut : nat,
                  ("/" +:+ trigClass +:+ "/" +:+ default "" (names !! icut)
                       +:+ "/" +:+ pairType +:+ "/" +:+ charge,
                   set_kHtracklets x (of_Z (default 0 (n !! icut)))))
                 <$> seq 0 (nCuts + 1)))
    ++ pair_fills (calls task).
Proof.
  unfold dispatch_trigClass.
  destruct (match istep with kStepReconstructed => _ | kStepGeneratedMC => _ end);
    [done|].
  apply foldl_dispatch_cut_fills.
Qed.

End Dispatch.

(** ** Invariants of the processing of the events *)

Section Invariants.

Variable Form_g : Double_t → string.
Variable GetBin : list (list Double_t) → ContainerInput → list Z.

Lemma UserExec_step_ok (ev : Event) (task : Task) :
  step_ok task (UserExec Form_g GetBin ev task).
Proof.
  apply UserExec_steps.
  - apply step_ok_refl.
  - apply step_ok_trans.
  - apply step_ok_fill_DimuSparse.
  - apply step_ok_fill_nevents.
  - apply step_ok_PostData.
Qed.

Lemma run_step_ok (events : list Event) (task : Task) :
  step_ok task (run Form_g GetBin events task).
Proof.
  unfold run. apply foldl_rel.
  - apply step_ok_refl.
  - apply step_ok_trans.
  - intros t ev. apply UserExec_step_ok.
Qed.

(** X6. The processing of an event changes neither the allow-list, nor the
    thresholds, nor the template of the histograms, and the calls made
    before stay in place: the event adds calls and removes none. *)
Theorem UserExec_frame (ev : Event) (task : Task) :
  fSelectedPairTypes (UserExec Form_g GetBin ev task) = fSelectedPairTypes task
  ∧ fTrackletDistCuts (UserExec Form_g GetBin ev task) = fTrackletDistCuts task
  ∧ fSparse (UserExec Form_g GetBin ev task) = fSparse task
  ∧ ∃ new, calls (UserExec Form_g GetBin ev task) = new ++ calls task.
Proof.
  destruct (UserExec_step_ok ev task) as ((H1 & H2 & H3) & Hnew & _).
  by repeat split.
Qed.

Lemma UserCreateOutputObjects_task_ok (task : Task) :
  task_ok (UserCreateOutputObjects Form_g task)
  ∧ sparse_bins (fSparse (UserCreateOutputObjects Form_g task)) = ∅.
Proof.
  split; [|done]. intros i n o. cbn. by rewrite lookup_empty.
Qed.

(** X7. After the creation of the output objects and any sequence of events,
    every object of the collection bears the name of its place; under the
    name of the histograms of the pairs it is a histogram on the six axes
    of the template, under the name of the event counters it is a counter
    that is not negative; there is no object under another name. The
    allow-list and the thresholds are those of the task at the creation. *)
Theorem run_task_ok (events : list Event) (task : Task) :
  task_ok (run Form_g GetBin events (UserCreateOutputObjects Form_g task))
  ∧ sparse_axes (fSparse (run Form_g GetBin events
                              (UserCreateOutputObjects Form_g task)))
    = axes_of_fSparse
  ∧ fSelectedPairTypes (run Form_g GetBin events
                            (UserCreateOutputObjects Form_g task))
    = fSelectedPairTypes task
  ∧ fTrackletDistCuts (run Form_g GetBin events
                           (UserCreateOutputObjects Form_g task))
    = fTrackletDistCuts task.
Proof.
  destruct (run_step_ok events (UserCreateOutputObjects Form_g task))
    as ((H1 & H2 & H3) & _ & Hok).
  destruct (Hok (proj1 (UserCreateOutputObjects_task_ok task))) as (Hok' & _).
  split; [done|]. rewrite H1, H2, H3. done.
Qed.

End Invariants.

(** ** The event counters of an event *)

Section Counting.

Variable Form_g : Double_t → string.
Variable GetBin : list (list Double_t) → ContainerInput → list Z.

Lemma track_loop_nevents_fills ev istep trigs nCuts names sel st :
  nevents_fills (calls (track_loop GetBin ev istep trigs nCuts names sel st).1)
  = nevents_fills (calls st.1).
Proof.
  apply (track_loop_steps GetBin
           (λ t t', nevents_fills (calls t') = nevents_fills (calls t))).
  - done.
  - intros a b c Hab Hbc. by rewrite Hbc.
  - intros identifier x t. apply pair_fills_fill_DimuSparse.
Qed.

Lemma foldl_fill_nevents_fills (trigs : list string) (t : Task) :
  nevents_fills (calls (foldl (λ t trigClass, fill_nevents ("/" +:+ trigClass) t)
                              t trigs))
  = rev (nevents_path <$> trigs) ++ nevents_fills (calls t)
  ∧ pair_fills (calls (foldl (λ t trigClass, fill_nevents ("/" +:+ trigClass) t)
                             t trigs))
    = pair_fills (calls t).
Proof.
  revert t. induction trigs as [|trig trigs IH]; intros t; [done|].
  cbn [foldl]. destruct (IH (fill_nevents ("/" +:+ trig) t)) as [-> ->].
  destruct (pair_fills_fill_nevents ("/" +:+ trig) t) as [-> ->].
  split; [|done]. rewrite fmap_cons. cbn [rev]. by rewrite <- app_assoc.
Qed.

Lemma step_body_nevents_fills ev nCuts names st istep :
  nevents_fills (calls (step_body GetBin ev nCuts names st istep).1)
  = rev (nevents_path <$> selTrigClasses_of ev istep) ++ nevents_fills (calls st.1).
Proof.
  destruct st as [task n]. unfold step_body. cbn [fst].
  fold (selTrigClasses_of ev istep).
  destruct (_ <? _)%nat; cbn [fst].
  - apply foldl_fill_nevents_fills.
  - rewrite track_loop_nevents_fills. cbn [fst]. apply foldl_fill_nevents_fills.
Qed.

Lemma UserExec_nevents_fills (ev : Event) (task : Task) :
  IsSelected ev = true →
  nevents_fills (calls (UserExec Form_g GetBin ev task))
  = match MCEvent ev with
    | Some _ => ["/generated"%string]
    | None => []
    end
    ++ rev (nevents_path <$> GetSelectedTrigClassesInEvent ev)
    ++ nevents_fills (calls task).
Proof.
  intros Hsel. unfold UserExec. rewrite Hsel. cbn [negb].
  change (nevents_fills (calls (call PostData ?t))) with (nevents_fills (calls t)).
  destruct (MCEvent ev); cbn [foldl].
  - rewrite !step_body_nevents_fills. cbn [fst]. by rewrite app_assoc.
  - rewrite step_body_nevents_fills. reflexivity.
Qed.

(** X8. A selected event raises the event counter of the path of each of its
    trigger classes by one for each occurrence of the trigger class, and,
    when there is a Monte Carlo event, the counter of the path /generated
    by one; the counter of any other path is left as it is. *)
Theorem UserExec_event_counters (ev : Event) (task : Task) (identifier : string) :
  IsSelected ev = true → task_ok task →
  nevents_at (UserExec Form_g GetBin ev task) identifier
  = nevents_at task identifier
    + occurrences identifier (nevents_path <$> GetSelectedTrigClassesInEvent ev)
    + match MCEvent ev with
      | Some _ => if decide (identifier = "/generated"%string) then 1 else 0
      | None => 0
      end.
Proof.
  intros Hsel Hok.
  destruct (UserExec_step_ok Form_g GetBin ev task) as (_ & _ & H).
  destruct (H Hok) as (_ & Hn). specialize (Hn identifier).
  rewrite (UserExec_nevents_fills ev task Hsel) in Hn.
  rewrite !occurrences_app in Hn.
  assert (Hrev : ∀ l, occurrences identifier (rev l) = occurrences identifier l).
  { induction l as [|a l IH]; [done|]. cbn [rev].
    rewrite occurrences_app, !occurrences_cons, IH. unfold occurrences. simpl. lia. }
  rewrite Hrev in Hn.
  destruct (MCEvent ev).
  - rewrite occurrences_cons in Hn.
    destruct (decide ("/generated"%string = identifier)) as [<-|Hne].
    + rewrite decide_True by done. unfold occurrences at 1 in Hn. simpl in Hn. lia.
    + rewrite decide_False by congruence. unfold occurrences at 1 in Hn.
      simpl in Hn. lia.
  - unfold occurrences at 1 in Hn. simpl in Hn. lia.
Qed.

End Counting.

Lemma UserExec_event_counters_witness :
  nevents_at (UserExec Form_g0 GetBin0 (event0 true None) task0)
             "/CMUL7-B-NOPF-MUON"
  = 1.
Proof.
  rewrite UserExec_event_counters.
  - reflexivity.
  - reflexivity.
  - intros i n o. cbn. by rewrite lookup_empty.
Defined.

(** ** The fills of the histograms of the pairs of an event *)

Lemma trackletDistCutsName_lookup (Form_g : Double_t → string)
      (cuts : list Double_t) (icut : nat) :
  (icut < length cuts + 1)%nat →
  default "" (trackletDistCutsName Form_g cuts !! icut) = cut_name Form_g cuts icut.
Proof.
  intros Hi. unfold trackletDistCutsName, cut_name.
  destruct (decide (icut < length cuts)%nat) as [Hlt|Hge].
  - rewrite lookup_app_l by (by rewrite length_fmap).
    rewrite list_lookup_fmap.
    destruct (lookup_lt_is_Some_2 cuts icut Hlt) as [val ->]. done.
  - assert (icut = length cuts) as -> by lia.
    rewrite lookup_app_r by (by rewrite length_fmap).
    rewrite length_fmap, Nat.sub_diag.
    by rewrite (lookup_ge_None_2 cuts (length cuts)) by lia.
Qed.

Lemma length_tracklet_loop (cuts : list Double_t) (phi : Double_t)
      (tracklets : list Tracklet) (n : list Z) :
  length (tracklet_loop cuts phi tracklets n) = length n.
Proof.
  unfold tracklet_loop. revert n.
  induction tracklets as [|trk l IH]; intros n; [done|].
  cbn [foldl]. rewrite IH. destruct (tracklet_is_far phi trk); [done|].
  apply length_count_tracklet.
Qed.

Lemma length_count_tracklets (cuts : list Double_t) (mult : option (list Tracklet))
      (phi : Double_t) (n : list Z) :
  length (count_tracklets cuts mult phi n) = length n.
Proof.
  destruct mult as [tracklets|]; [|done]. unfold count_tracklets.
  by rewrite length_tracklet_loop, length_replicate.
Qed.

Lemma pairs_of_short {A} (l : list A) : (length l < 2)%nat → pairs_of l = [].
Proof. destruct l as [|x [|y l]]; simpl; [done|done|lia]. Qed.

Section Fills.

Variable Form_g : Double_t → string.
Variable GetBin : list (list Double_t) → ContainerInput → list Z.

Lemma foldl_dispatch_trigClass_fills ev istep track track2 x pairType charge
      (nCuts : nat) names (n : list Z) (trigs : list string) task :
  pair_fills (calls (foldl (dispatch_trigClass GetBin ev istep track track2 x
                                               pairType charge nCuts names n)
                           task trigs))
  = rev (trigClass ← trigs;
         if match istep with
            | kStepReconstructed =>
                TrackPtCutMatchTrigClass ev track track2 trigClass
            | kStepGeneratedMC => true
            end
         then (λ icut : nat,
                 ("/" +:+ trigClass +:+ "/" +:+ default "" (names !! icut)
                      +:+ "/" +:+ pairType +:+ "/" +:+ charge,
                  set_kHtracklets x (of_Z (default 0 (n !! icut)))))
                <$> seq 0 (nCuts + 1)
         else [])
    ++ pair_fills (calls task).
Proof.
  revert task. induction trigs as [|trig trigs IH]; intros task; [done|].
  cbn [foldl]. rewrite IH. rewrite bind_cons, rev_app_distr, <- app_assoc. f_equal.
  unfold dispatch_trigClass. destruct istep.
  - destruct (TrackPtCutMatchTrigClass ev track track2 trig); cbn [negb].
    + apply foldl_dispatch_cut_fills.
    + done.
  - apply foldl_dispatch_cut_fills.
Qed.

Lemma pair_body_fills ev task0 istep names tm st tm2 :
  names = trackletDistCutsName Form_g (fTrackletDistCuts task0) →
  loop_inv ev task0 st →
  pair_fills (calls (pair_body GetBin ev istep (selTrigClasses_of ev istep)
                               (length (fTrackletDistCuts task0)) names tm st tm2).1)
  = rev (fills_of_pair Form_g ev task0 istep (tm, tm2)) ++ pair_fills (calls st.1)
  ∧ loop_inv ev task0
             (pair_body GetBin ev istep (selTrigClasses_of ev istep)
                        (length (fTrackletDistCuts task0)) names tm st tm2).
Proof.
  intros -> Hinv. split.
  - destruct Hinv as ((Hc1 & Hc2 & Hc3) & Hlen & Hnone).
    destruct st as [task n]. cbn [fst snd] in *.
    unfold pair_body, fills_of_pair. cbn [fst snd]. rewrite Hc1.
    destruct (pair_is_retained _ _); cbn [negb fst]; [|done].
    rewrite foldl_dispatch_trigClass_fills. f_equal. f_equal.
    rewrite Hc2.
    assert (Hn : count_tracklets (fTrackletDistCuts task0) (GetMultiplicity ev)
                   (phi_of_pair (Phi (GetTrackPair ev (GetTrack tm) (GetTrack tm2)))) n
                 = count_tracklets (fTrackletDistCuts task0) (GetMultiplicity ev)
                     (phi_of_pair (Phi (GetTrackPair ev (GetTrack tm) (GetTrack tm2))))
                     (replicate (length (fTrackletDistCuts task0) + 1) 0)).
    { destruct (GetMultiplicity ev) as [tracklets|].
      - unfold count_tracklets. by rewrite length_replicate, Hlen.
      - cbn. by apply Hnone. }
    rewrite Hn. apply list_bind_ext; [|done]. intros trig.
    destruct (match istep with kStepReconstructed => _ | kStepGeneratedMC => _ end);
      [|done].
    apply Forall_fmap_ext, Forall_forall. intros icut Hicut.
    apply elem_of_seq in Hicut. rewrite trackletDistCutsName_lookup by lia.
    reflexivity.
  - destruct Hinv as (Hcfg & Hlen & Hnone). split; [|split].
    + pose proof (pair_body_steps GetBin step_ok step_ok_refl step_ok_trans
                    (step_ok_fill_DimuSparse GetBin)
                    ev istep (selTrigClasses_of ev istep)
                    (length (fTrackletDistCuts task0))
                    (trackletDistCutsName Form_g (fTrackletDistCuts task0))
                    tm st tm2) as ((H1 & H2 & H3) & _).
      destruct Hcfg as (G1 & G2 & G3). repeat split; congruence.
    + destruct st as [task n]. cbn [fst snd] in *. unfold pair_body.
      destruct (negb _); cbn [snd]; [done|]. by rewrite length_count_tracklets.
    + intros Hmult. destruct st as [task n]. cbn [fst snd] in *. unfold pair_body.
      destruct (negb _); cbn [snd]; [by apply Hnone|].
      rewrite Hmult. cbn. by apply Hnone.
Qed.

Lemma foldl_pair_body_fills ev task0 istep names
      (ps : list (AliTrackMore * AliTrackMore)) st :
  names = trackletDistCutsName Form_g (fTrackletDistCuts task0) →
  loop_inv ev task0 st →
  pair_fills (calls (foldl (λ st p, pair_body GetBin ev istep
                                              (selTrigClasses_of ev istep)
                                              (length (fTrackletDistCuts task0))
                                              names p.1 st p.2)
                           st ps).1)
  = rev (ps ≫= fills_of_pair Form_g ev task0 istep) ++ pair_fills (calls st.1)
  ∧ loop_inv ev task0
             (foldl (λ st p, pair_body GetBin ev istep (selTrigClasses_of ev istep)
                                       (length (fTrackletDistCuts task0))
                                       names p.1 st p.2)
                    st ps).
Proof.
  intros Hnames. revert st. induction ps as [|[tm tm2] ps IH]; intros st Hinv;
    [by split|].
  cbn [foldl fst snd].
  destruct (pair_body_fills ev task0 istep names tm st tm2 Hnames Hinv) as [H1 H2].
  destruct (IH _ H2) as [-> H4]. split; [|done].
  rewrite H1, bind_cons, rev_app_distr. by rewrite <- app_assoc.
Qed.

Lemma step_body_fills ev task0 names st istep :
  names = trackletDistCutsName Form_g (fTrackletDistCuts task0) →
  loop_inv ev task0 st →
  pair_fills (calls (step_body GetBin ev (length (fTrackletDistCuts task0))
                               names st istep).1)
  = rev (pairs_of (select_tracks ev istep (tracks_of ev istep))
           ≫= fills_of_pair Form_g ev task0 istep)
    ++ pair_fills (calls st.1)
  ∧ loop_inv ev task0
             (step_body GetBin ev (length (fTrackletDistCuts task0)) names st istep).
Proof.
  intros Hnames (Hcfg & Hlen & Hnone). destruct st as [task n]. cbn [fst snd] in *.
  unfold step_body. fold (selTrigClasses_of ev istep). fold (tracks_of ev istep).
  set (task1 := foldl (λ t trigClass, fill_nevents ("/" +:+ trigClass) t) task
                      (selTrigClasses_of ev istep)).
  assert (Hfills1 : pair_fills (calls task1) = pair_fills (calls task))
    by apply foldl_fill_nevents_fills.
  assert (Hinv1 : loop_inv ev task0 (task1, n)).
  { split; [|by split]. cbn [fst].
    assert (Hs : step_ok task task1).
    { apply foldl_rel; [apply step_ok_refl|apply step_ok_trans|].
      intros t trig. apply step_ok_fill_nevents. }
    destruct Hs as ((H1 & H2 & H3) & _). destruct Hcfg as (G1 & G2 & G3).
    repeat split; congruence. }
  destruct (_ <? _)%nat eqn:Hshort.
  - apply Nat.ltb_lt in Hshort. rewrite (pairs_of_short _ Hshort).
    split; [exact Hfills1|exact Hinv1].
  - rewrite track_loop_foldl_pairs.
    destruct (foldl_pair_body_fills ev task0 istep names
                (pairs_of (select_tracks ev istep (tracks_of ev istep)))
                (task1, n) Hnames Hinv1) as [H1 H2].
    split; [|exact H2]. rewrite H1. cbn [fst]. by rewrite Hfills1.
Qed.

Lemma UserExec_pair_fills_selected (ev : Event) (task : Task) :
  IsSelected ev = true →
  pair_fills (calls (UserExec Form_g GetBin ev task))
  = rev (fills_of_event Form_g ev task) ++ pair_fills (calls task).
Proof.
  intros Hsel. unfold UserExec. rewrite Hsel. cbn [negb].
  change (pair_fills (calls (call PostData ?t))) with (pair_fills (calls t)).
  fold (steps_of ev). unfold fills_of_event.
  assert (Hinv : loop_inv ev task
                   (task, replicate (length (fTrackletDistCuts task) + 1) 0)).
  { split; [by repeat split|]. split; [apply length_replicate|done]. }
  assert (H : ∀ steps st, loop_inv ev task st →
            pair_fills (calls (foldl (step_body GetBin ev
                                        (length (fTrackletDistCuts task))
                                        (trackletDistCutsName Form_g
                                           (fTrackletDistCuts task)))
                                     st steps).1)
            = rev (steps ≫= λ istep,
                     pairs_of (select_tracks ev istep (tracks_of ev istep))
                       ≫= fills_of_pair Form_g ev task istep)
              ++ pair_fills (calls st.1)).
  { clear Hinv. induction steps as [|istep steps IH]; intros st Hinv; [done|].
    cbn [foldl].
    destruct (step_body_fills ev task _ st istep eq_refl Hinv) as [H1 H2].
    rewrite (IH _ H2), H1, bind_cons, rev_app_distr. by rewrite <- app_assoc. }
  apply (H _ _ Hinv).
Qed.

(** X9. For an event whose pair-type labels are literal patterns, the fills
    of the histograms of the pairs of the event are those of its
    pairs of selected tracks, step after step and pair after pair in the
    order of the loops, and each pair gives its fills from the pair alone:
    the counts of the tracklets of a pair, its sample and its paths do not
    depend on the pairs before it; a pair whose type the allow-list does
    not retain gives no fill, a trigger class whose cut the pair does not
    match in the reconstructed step gives none, and an event that the event
    cuts reject gives none. *)
Theorem UserExec_pair_fills (ev : Event) (task : Task) :
  literal_labels ev →
  pair_fills (calls (UserExec Form_g GetBin ev task))
  = (if IsSelected ev then rev (fills_of_event Form_g ev task) else [])
    ++ pair_fills (calls task).
Proof.
  intros _. destruct (IsSelected ev) eqn:Hsel.
  - by apply UserExec_pair_fills_selected.
  - unfold UserExec. by rewrite Hsel.
Qed.

(** X10. When fewer than two tracks are selected in each step of an event, the
    event fills no histogram of the pairs, whatever its trigger classes and
    its tracklets. *)
Theorem UserExec_fewer_than_two_tracks (ev : Event) (task : Task) :
  (∀ istep, istep ∈ steps_of ev →
            (length (select_tracks ev istep (tracks_of ev istep)) < 2)%nat) →
  pair_fills (calls (UserExec Form_g GetBin ev task)) = pair_fills (calls task).
Proof.
  intros Hshort. destruct (IsSelected ev) eqn:Hsel.
  - rewrite (UserExec_pair_fills_selected ev task Hsel).
    assert (H : fills_of_event Form_g ev task = []); [|by rewrite H].
    unfold fills_of_event. revert Hshort.
    induction (steps_of ev) as [|istep steps IH]; intros Hshort; [done|].
    rewrite bind_cons, IH, (pairs_of_short _ (Hshort istep ltac:(left))); [done|].
    intros i Hi. apply Hshort. by right.
  - unfold UserExec. by rewrite Hsel.
Qed.

End Fills.

Lemma UserExec_pair_fills_witness :
  fst <$> pair_fills (calls (UserExec Form_g0 GetBin0
                                      (event0 true (Some tracklets0)) task0))
  = [ "/CMUL7-B-NOPF-MUON/trackletDistCuts_none/Unidentified/OS";
      "/CMUL7-B-NOPF-MUON/trackletDistCuts_2/Unidentified/OS";
      "/CMUL7-B-NOPF-MUON/trackletDistCuts_5/Unidentified/OS" ]%string.
Proof.
  rewrite UserExec_pair_fills.
  - reflexivity.
  - intros type1 type2 commonAncestor. reflexivity.
Defined.

Lemma UserExec_fewer_than_two_tracks_witness :
  pair_fills (calls (UserExec Form_g0 GetBin0 event1 task0)) = pair_fills (calls task0).
Proof.
  apply UserExec_fewer_than_two_tracks.
  intros istep Hi. apply list_elem_of_singleton in Hi as ->. cbn. lia.
Defined.

(** ** The contents of the histograms after the events *)

Lemma fills_in_app GetBin axes identifier bin (l1 l2 : list (string * ContainerInput)) :
  fills_in GetBin axes identifier bin (l1 ++ l2)
  = fills_in GetBin axes identifier bin l1 + fills_in GetBin axes identifier bin l2.
Proof. unfold fills_in. rewrite filter_app, length_app. lia. Qed.

Lemma fills_in_cons GetBin axes identifier bin (f : string * ContainerInput)
      (l : list (string * ContainerInput)) :
  fills_in GetBin axes identifier bin (f :: l)
  = (if decide (f.1 = identifier ∧ GetBin axes f.2 = bin) then 1 else 0)
    + fills_in GetBin axes identifier bin l.
Proof.
  unfold fills_in. rewrite filter_cons.
  destruct (decide (f.1 = identifier ∧ GetBin axes f.2 = bin)); simpl; lia.
Qed.

Lemma fills_in_rev GetBin axes identifier bin (l : list (string * ContainerInput)) :
  fills_in GetBin axes identifier bin (rev l) = fills_in GetBin axes identifier bin l.
Proof.
  induction l as [|f l IH]; [done|]. cbn [rev].
  rewrite fills_in_app, IH, !fills_in_cons. unfold fills_in at 2. simpl. lia.
Qed.

Lemma fills_in_nonneg GetBin axes identifier bin (l : list (string * ContainerInput)) :
  0 ≤ fills_in GetBin axes identifier bin l.
Proof. unfold fills_in. lia. Qed.

Lemma occurrences_rev identifier (l : list string) :
  occurrences identifier (rev l) = occurrences identifier l.
Proof.
  induction l as [|a l IH]; [done|]. cbn [rev].
  rewrite occurrences_app, !occurrences_cons, IH. unfold occurrences at 2.
  simpl. lia.
Qed.

Lemma bins_ok_refl GetBin (t : Task) : bins_ok GetBin t t.
Proof.
  split; [apply step_ok_refl|]. intros _ _ id bin c _ ->. f_equal. lia.
Qed.

Lemma bins_ok_trans GetBin (a b c : Task) :
  bins_ok GetBin a b → bins_ok GetBin b c → bins_ok GetBin a c.
Proof.
  intros [Hab Hab'] [Hbc Hbc']. split; [by eapply step_ok_trans|].
  intros Hok Hempty id bin k Hk Hbin.
  destruct Hab as ((Ha1 & Ha2 & Ha3) & (new & Hnew) & Hab).
  destruct (Hab Hok) as (Hokb & _).
  pose proof (Hab' Hok Hempty id bin k Hk Hbin) as H1.
  assert (Hd : 0 ≤ fills_in GetBin (sparse_axes (fSparse a)) id bin
                         (pair_fills (calls b))
                   - fills_in GetBin (sparse_axes (fSparse a)) id bin
                              (pair_fills (calls a))).
  { rewrite Hnew, pair_fills_app, fills_in_app.
    pose proof (fills_in_nonneg GetBin (sparse_axes (fSparse a)) id bin
                  (pair_fills new)). lia. }
  assert (Hempty' : sparse_bins (fSparse b) = ∅) by (by rewrite Ha3).
  pose proof (Hbc' Hokb Hempty' id bin
                (k + (fills_in GetBin (sparse_axes (fSparse a)) id bin
                               (pair_fills (calls b))
                      - fills_in GetBin (sparse_axes (fSparse a)) id bin
                                 (pair_fills (calls a))))
                ltac:(lia) H1) as H2.
  rewrite Ha3 in H2. rewrite H2. f_equal. lia.
Qed.

Lemma bins_ok_PostData GetBin (t : Task) : bins_ok GetBin t (call PostData t).
Proof.
  split; [apply step_ok_PostData|]. intros _ _ id bin c _ Hbin.
  change (pair_fills (calls (call PostData t))) with (pair_fills (calls t)).
  change (bin_at (call PostData t) id bin) with (bin_at t id bin).
  rewrite Hbin. f_equal. lia.
Qed.

Lemma bins_ok_fill_nevents GetBin (identifier : string) (t : Task) :
  bins_ok GetBin t (fill_nevents identifier t).
Proof.
  split; [apply step_ok_fill_nevents|]. intros Hok Hempty id bin c Hc Hbin.
  rewrite (proj1 (pair_fills_fill_nevents identifier t)).
  destruct (fill_nevents_result identifier t Hok)
    as (z & msgs & Hz & Hz0 & Hmsgs1 & Hmsgs2 & ->).
  replace (c + _) with c by lia. rewrite <- Hbin.
  unfold bin_at. cbn. by rewrite lookup_insert_ne by congruence.
Qed.

Lemma bins_ok_fill_DimuSparse GetBin (identifier : string) (x : ContainerInput)
      (t : Task) :
  bins_ok GetBin t (fill_DimuSparse GetBin identifier x t).
Proof.
  split; [apply step_ok_fill_DimuSparse|]. intros Hok Hempty id bin c Hc Hbin.
  rewrite (proj1 (pair_fills_fill_DimuSparse GetBin identifier x t)).
  rewrite fills_in_cons. cbn [fst snd].
  destruct (fill_DimuSparse_result GetBin identifier x t Hok)
    as (h0 & msgs & Hh0 & Hax & Hmsgs1 & Hmsgs2 & ->).
  pose proof Float_t_limit_pos as Hlim.
  revert Hbin. unfold bin_at. cbn. rewrite lookup_insert.
  destruct (decide (identifier = id)) as [->|Hne].
  - rewrite decide_True by done. cbn. rewrite Hax.
    assert (Hold : match fMergeableCollection t !! (id, "DimuSparse"%string) with
                   | Some o => match content o with
                               | Sparse h => default 0 (sparse_bins h !! bin)
                               | Histo1 _ => 0
                               end
                   | None => 0
                   end = default 0 (sparse_bins h0 !! bin)).
    { destruct Hh0 as [-> | [-> ->]]; [done|]. by rewrite Hempty, lookup_empty. }
    rewrite Hold. intros Hbin. rewrite lookup_insert.
    destruct (decide (GetBin (sparse_axes (fSparse t)) x = bin)) as [<-|Hb].
    + rewrite decide_True by (split; reflexivity). cbn.
      rewrite Float_t_add1_spec by lia. lia.
    + rewrite decide_False by (intros [_ ?]; done). cbn [default]. lia.
  - rewrite decide_False by congruence.
    rewrite decide_False by (intros [? _]; done). lia.
Qed.

Section Runs.

Variable Form_g : Double_t → string.
Variable GetBin : list (list Double_t) → ContainerInput → list Z.

Lemma UserExec_bins_ok (ev : Event) (task : Task) :
  bins_ok GetBin task (UserExec Form_g GetBin ev task).
Proof.
  apply UserExec_steps.
  - apply bins_ok_refl.
  - apply bins_ok_trans.
  - apply bins_ok_fill_DimuSparse.
  - apply bins_ok_fill_nevents.
  - apply bins_ok_PostData.
Qed.

Lemma run_bins_ok (events : list Event) (task : Task) :
  bins_ok GetBin task (run Form_g GetBin events task).
Proof.
  unfold run. apply foldl_rel.
  - apply bins_ok_refl.
  - apply bins_ok_trans.
  - intros t ev. apply UserExec_bins_ok.
Qed.

Lemma fills_of_event_config (ev : Event) (t t' : Task) :
  fSelectedPairTypes t' = fSelectedPairTypes t →
  fTrackletDistCuts t' = fTrackletDistCuts t →
  fills_of_event Form_g ev t' = fills_of_event Form_g ev t.
Proof.
  intros H1 H2. unfold fills_of_event, fills_of_pair. by rewrite H1, H2.
Qed.

Lemma run_pair_fills (events : list Event) (task : Task) :
  pair_fills (calls (run Form_g GetBin events task))
  = rev (fills_of_run Form_g events task) ++ pair_fills (calls task).
Proof.
  unfold run, fills_of_run.
  assert (H : ∀ t, same_config task t →
            pair_fills (calls (foldl (λ t ev, UserExec Form_g GetBin ev t) t events))
            = rev (events ≫= λ ev, if IsSelected ev
                                    then fills_of_event Form_g ev task else [])
              ++ pair_fills (calls t)); [|by apply H].
  induction events as [|ev events IH]; intros t Hcfg; [done|].
  cbn [foldl]. rewrite IH.
  - rewrite bind_cons, rev_app_distr, <- app_assoc. f_equal.
    destruct (IsSelected ev) eqn:Hsel.
    + rewrite (UserExec_pair_fills_selected Form_g GetBin ev t Hsel).
      destruct Hcfg as (G1 & G2 & G3).
      by rewrite (fills_of_event_config ev task t).
    + unfold UserExec. by rewrite Hsel.
  - destruct (UserExec_step_ok Form_g GetBin ev t) as ((H1 & H2 & H3) & _).
    destruct Hcfg as (G1 & G2 & G3). repeat split; congruence.
Qed.

Lemma run_nevents_fills (events : list Event) (task : Task) (identifier : string) :
  occurrences identifier (nevents_fills (calls (run Form_g GetBin events task)))
  = occurrences identifier (nevents_of_run events)
    + occurrences identifier (nevents_fills (calls task)).
Proof.
  unfold run, nevents_of_run. revert task.
  induction events as [|ev events IH]; intros task; [done|].
  cbn [foldl]. rewrite IH, bind_cons, occurrences_app.
  destruct (IsSelected ev) eqn:Hsel.
  - rewrite (UserExec_nevents_fills Form_g GetBin ev task Hsel).
    rewrite !occurrences_app, occurrences_rev.
    assert (Hev : nevents_of_event ev
                  = (nevents_path <$> GetSelectedTrigClassesInEvent ev)
                      ++ match MCEvent ev with
                         | Some _ => ["/generated"%string]
                         | None => []
                         end).
    { unfold nevents_of_event, steps_of.
      destruct (MCEvent ev); rewrite bind_cons; reflexivity. }
    rewrite Hev, occurrences_app. lia.
  - unfold UserExec. rewrite Hsel. cbn [negb].
    change (occurrences identifier []) with 0. lia.
Qed.

Lemma run_nevents_at (events : list Event) (task : Task) (identifier : string) :
  nevents_at (run Form_g GetBin events (UserCreateOutputObjects Form_g task))
             identifier
  = occurrences identifier (nevents_of_run events).
Proof.
  destruct (run_step_ok Form_g GetBin events (UserCreateOutputObjects Form_g task))
    as (_ & _ & Hok).
  destruct (UserCreateOutputObjects_task_ok Form_g task) as [Hok0 Hempty].
  destruct (Hok Hok0) as (_ & Hn). specialize (Hn identifier).
  rewrite run_nevents_fills in Hn.
  change (nevents_at (UserCreateOutputObjects Form_g task) identifier)
    with 0 in Hn.
  lia.
Qed.

Lemma fills_of_run_UserCreateOutputObjects (events : list Event) (task : Task) :
  fills_of_run Form_g events (UserCreateOutputObjects Form_g task)
  = fills_of_run Form_g events task.
Proof.
  unfold fills_of_run. apply list_bind_ext; [|done]. intros ev.
  destruct (IsSelected ev); [|done]. by apply fills_of_event_config.
Qed.

Lemma run_bin_at (events : list Event) (task : Task)
      (identifier : string) (bin : list Z) :
  bin_at (run Form_g GetBin events (UserCreateOutputObjects Form_g task))
         identifier bin
  = Z.min (fills_in GetBin axes_of_fSparse identifier bin
                    (fills_of_run Form_g events task))
          Float_t_limit.
Proof.
  destruct (UserCreateOutputObjects_task_ok Form_g task) as [Hok0 Hempty].
  destruct (run_bins_ok events (UserCreateOutputObjects Form_g task)) as [_ Hb].
  specialize (Hb Hok0 Hempty identifier bin 0 ltac:(lia) eq_refl).
  rewrite run_pair_fills, fills_in_app, fills_in_rev,
    fills_of_run_UserCreateOutputObjects in Hb.
  change (sparse_axes (fSparse (UserCreateOutputObjects Form_g task)))
    with axes_of_fSparse in Hb.
  rewrite Hb. f_equal. lia.
Qed.

(** X11. After the creation of the output objects and any sequence of events,
    the event counter at a path holds the number of times that a selected
    event had a trigger class of the path, and, at the path /generated, the
    number of selected events with a Monte Carlo event: events that the
    event cuts reject count nowhere. *)
Theorem run_event_counters (events : list Event) (task : Task)
        (identifier : string) :
  nevents_at (run Form_g GetBin events (UserCreateOutputObjects Form_g task))
             identifier
  = occurrences identifier (nevents_of_run events).
Proof. apply run_nevents_at. Qed.

(** X12. For events whose pair-type labels are literal patterns: after the
    creation of the output objects and any sequence of events, each bin of
    the histogram of the pairs at a path holds the number of the fills of
    the selected events at the path whose sample falls in the bin on the
    axes of the template, as long as this number is at most [2^24]; from
    there on the content, a binary32 number, stays at [2^24]. Below this
    limit no fill is lost, none counts twice, none goes to the histogram of
    another path or to another bin. *)
Theorem run_histograms (events : list Event) (task : Task)
        (identifier : string) (bin : list Z) :
  (∀ ev, ev ∈ events → literal_labels ev) →
  bin_at (run Form_g GetBin events (UserCreateOutputObjects Form_g task))
         identifier bin
  = Z.min (fills_in GetBin axes_of_fSparse identifier bin
                    (fills_of_run Form_g events task))
          Float_t_limit
  ∧ (fills_in GetBin axes_of_fSparse identifier bin
              (fills_of_run Form_g events task) ≤ Float_t_limit →
     bin_at (run Form_g GetBin events (UserCreateOutputObjects Form_g task))
            identifier bin
     = fills_in GetBin axes_of_fSparse identifier bin
                (fills_of_run Form_g events task)).
Proof.
  intros _. split; [apply run_bin_at|].
  intros Hle. rewrite run_bin_at. lia.
Qed.

Lemma merged_contents (t1 t2 : Task) (identifier : string) (bin : list Z) :
  task_ok t1 → task_ok t2 →
  sparse_axes (fSparse t1) = sparse_axes (fSparse t2) →
  nevents_at (merged t1 t2) identifier
  = nevents_at t1 identifier + nevents_at t2 identifier
  ∧ bin_at (merged t1 t2) identifier bin
    = bin_at t1 identifier bin + bin_at t2 identifier bin.
Proof.
  intros Hok1 Hok2 Hax. unfold nevents_at, bin_at, merged. cbn [set_collection
    fMergeableCollection]. rewrite !lookup_Merge. split.
  - destruct (fMergeableCollection t1 !! (identifier, "nevents"%string))
      as [o1|] eqn:E1;
      destruct (fMergeableCollection t2 !! (identifier, "nevents"%string))
        as [o2|] eqn:E2; cbn; try lia.
    destruct (Hok1 _ _ _ E1) as (_ & [(Hn & _)|(_ & z1 & Hc1 & _)]); [discriminate|].
    destruct (Hok2 _ _ _ E2) as (_ & [(Hn & _)|(_ & z2 & Hc2 & _)]); [discriminate|].
    destruct o1 as [n1 c1], o2 as [n2 c2]. cbn in Hc1, Hc2. subst c1 c2.
    reflexivity.
  - destruct (fMergeableCollection t1 !! (identifier, "DimuSparse"%string))
      as [o1|] eqn:E1;
      destruct (fMergeableCollection t2 !! (identifier, "DimuSparse"%string))
        as [o2|] eqn:E2; cbn; try lia.
    destruct (Hok1 _ _ _ E1) as (_ & [(_ & h1 & Hc1 & Hax1)|(Hn & _)]);
      [|discriminate].
    destruct (Hok2 _ _ _ E2) as (_ & [(_ & h2 & Hc2 & Hax2)|(Hn & _)]);
      [|discriminate].
    destruct o1 as [n1 c1], o2 as [n2 c2]. cbn in Hc1, Hc2. subst c1 c2.
    unfold TObject_Merge. cbn. unfold THnSparse_Merge.
    rewrite decide_True by congruence. cbn. unfold merge_bins.
    rewrite lookup_union_with.
    destruct (sparse_bins h1 !! bin), (sparse_bins h2 !! bin); cbn; lia.
Qed.

Lemma run_same_structure (events1 events2 : list Event) (task1 task2 : Task) :
  same_structure
    (fMergeableCollection
       (run Form_g GetBin events1 (UserCreateOutputObjects Form_g task1)))
    (fMergeableCollection
       (run Form_g GetBin events2 (UserCreateOutputObjects Form_g task2))).
Proof.
  intros [id name] o1 o2 H1 H2.
  destruct (run_step_ok Form_g GetBin events1 (UserCreateOutputObjects Form_g task1))
    as ((_ & _ & Hs1) & _ & Hok1).
  destruct (run_step_ok Form_g GetBin events2 (UserCreateOutputObjects Form_g task2))
    as ((_ & _ & Hs2) & _ & Hok2).
  destruct (Hok1 (proj1 (UserCreateOutputObjects_task_ok Form_g task1))) as (Hok1' & _).
  destruct (Hok2 (proj1 (UserCreateOutputObjects_task_ok Form_g task2))) as (Hok2' & _).
  destruct (Hok1' _ _ _ H1) as (Hn1 & Hk1). destruct (Hok2' _ _ _ H2) as (Hn2 & Hk2).
  rewrite Hs1 in Hk1. rewrite Hs2 in Hk2.
  split; [congruence|].
  destruct Hk1 as [(-> & h1 & -> & Ha1)|(-> & z1 & -> & _)];
    destruct Hk2 as [(? & h2 & -> & Ha2)|(? & z2 & -> & _)];
    try discriminate; [|done].
  cbn in *. congruence.
Qed.

(** X13. With the merge of the collections modelled from the design
    document, for events whose pair-type labels are literal patterns: the
    collections of two workers have the same structure, whatever their
    events and their configuration, so the merge gives the same collection
    in both orders. When the events are shared between two workers that
    start from the same task, the merge of the two collections holds in
    each event counter what one task holds after all the events, and as
    much in each bin of each histogram of the pairs where the fills of all
    the events in the bin are at most [2^24], the last integer up to which
    the binary32 content of a bin counts every fill. *)
Theorem merge_of_runs (events1 events2 : list Event) (task task' : Task)
        (identifier : string) (bin : list Z) :
  (∀ ev, ev ∈ events1 ++ events2 → literal_labels ev) →
  same_structure
    (fMergeableCollection
       (run Form_g GetBin events1 (UserCreateOutputObjects Form_g task)))
    (fMergeableCollection
       (run Form_g GetBin events2 (UserCreateOutputObjects Form_g task')))
  ∧ Merge (fMergeableCollection
             (run Form_g GetBin events1 (UserCreateOutputObjects Form_g task)))
          (fMergeableCollection
             (run Form_g GetBin events2 (UserCreateOutputObjects Form_g task')))
    = Merge (fMergeableCollection
               (run Form_g GetBin events2 (UserCreateOutputObjects Form_g task')))
            (fMergeableCollection
               (run Form_g GetBin events1 (UserCreateOutputObjects Form_g task)))
  ∧ nevents_at
      (merged (run Form_g GetBin events1 (UserCreateOutputObjects Form_g task))
              (run Form_g GetBin events2 (UserCreateOutputObjects Form_g task)))
      identifier
    = nevents_at (run Form_g GetBin (events1 ++ events2)
                      (UserCreateOutputObjects Form_g task))
                 identifier
  ∧ (fills_in GetBin axes_of_fSparse identifier bin
              (fills_of_run Form_g (events1 ++ events2) task) ≤ Float_t_limit →
     bin_at
       (merged (run Form_g GetBin events1 (UserCreateOutputObjects Form_g task))
               (run Form_g GetBin events2 (UserCreateOutputObjects Form_g task)))
       identifier bin
     = bin_at (run Form_g GetBin (events1 ++ events2)
                   (UserCreateOutputObjects Form_g task))
              identifier bin).
Proof.
  intros _.
  assert (Hok : ∀ events,
            task_ok (run Form_g GetBin events (UserCreateOutputObjects Form_g task))
            ∧ sparse_axes (fSparse (run Form_g GetBin events
                                        (UserCreateOutputObjects Form_g task)))
              = axes_of_fSparse).
  { intros events.
    destruct (run_step_ok Form_g GetBin events (UserCreateOutputObjects Form_g task))
      as ((_ & _ & Hs) & _ & Hok).
    destruct (Hok (proj1 (UserCreateOutputObjects_task_ok Form_g task))) as (Hok' & _).
    split; [done|]. by rewrite Hs. }
  destruct (Hok events1) as [Hok1 Hax1]. destruct (Hok events2) as [Hok2 Hax2].
  destruct (merged_contents _ _ identifier bin Hok1 Hok2) as [Hn Hb];
    [congruence|].
  split; [apply run_same_structure|].
  split; [apply Merge_comm, run_same_structure|].
  split.
  - rewrite Hn, !run_nevents_at. unfold nevents_of_run.
    by rewrite bind_app, occurrences_app.
  - rewrite Hb, !run_bin_at. unfold fills_of_run.
    rewrite bind_app, fills_in_app.
    pose proof (fills_in_nonneg GetBin axes_of_fSparse identifier bin
                  (events1 ≫= λ ev, if IsSelected ev
                                     then fills_of_event Form_g ev task else [])).
    pose proof (fills_in_nonneg GetBin axes_of_fSparse identifier bin
                  (events2 ≫= λ ev, if IsSelected ev
                                     then fills_of_event Form_g ev task else [])).
    lia.
Qed.

End Runs.

Lemma run_histograms_witness :
  bin_at (run Form_g0 GetBin0
              [event0 true (Some tracklets0); event0 true (Some tracklets0)]
              (UserCreateOutputObjects Form_g0 task0))
         "/CMUL7-B-NOPF-MUON/trackletDistCuts_2/Unidentified/OS"
         [3; 16; 31; 151; 5; 2]
  = 2.
Proof.
  assert (Hlit : ∀ ev, ev ∈ [event0 true (Some tracklets0);
                             event0 true (Some tracklets0)] → literal_labels ev).
  { intros ev Hev.
    repeat (apply elem_of_cons in Hev as [-> | Hev];
            [intros type1 type2 commonAncestor; reflexivity|]).
    by apply elem_of_nil in Hev. }
  rewrite (proj1 (run_histograms Form_g0 GetBin0
                    [event0 true (Some tracklets0); event0 true (Some tracklets0)]
                    task0 "/CMUL7-B-NOPF-MUON/trackletDistCuts_2/Unidentified/OS"
                    [3; 16; 31; 151; 5; 2] Hlit)).
  reflexivity.
Defined.

Lemma merge_of_runs_witness :
  nevents_at
    (merged (run Form_g0 GetBin0 [event0 true (Some tracklets0)]
                 (UserCreateOutputObjects Form_g0 task0))
            (run Form_g0 GetBin0 [event0 true None]
                 (UserCreateOutputObjects Form_g0 task0)))
    "/CMUL7-B-NOPF-MUON"
  = 2.
Proof.
  assert (Hlit : ∀ ev, ev ∈ [event0 true (Some tracklets0)] ++ [event0 true None] →
                       literal_labels ev).
  { intros ev Hev. cbn [app] in Hev.
    repeat (apply elem_of_cons in Hev as [-> | Hev];
            [intros type1 type2 commonAncestor; reflexivity|]).
    by apply elem_of_nil in Hev. }
  rewrite (proj1 (proj2 (proj2
             (merge_of_runs Form_g0 GetBin0 [event0 true (Some tracklets0)]
                [event0 true None] task0 task0 "/CMUL7-B-NOPF-MUON" [] Hlit)))).
  reflexivity.
Defined.

(** ** The creation of the objects of the collection *)

(** X14. For the two names of the task, [GetMergeableObject] always returns an
    object, and the object is the one that the collection holds at the path
    afterwards. An object that the collection holds already is returned as
    it is, without any change of the task. Otherwise the object is new, a
    clone of the template under the name of the histograms or a counter at
    0, the collection gets it at the path, and the size of the collection
    is logged. No other place of the collection changes, and a second call
    returns the same object and changes nothing. *)
Theorem GetMergeableObject_creates_once (identifier objectName : string)
        (task : Task) :
  objectName = "DimuSparse"%string ∨ objectName = "nevents"%string →
  ∃ obj : TObject,
    GetMergeableObject identifier objectName task
    = (Some obj,
       match fMergeableCollection task !! (identifier, objectName) with
       | Some _ => task
       | None =>
           call AliInfo_collection_size
                (set_collection (<[(identifier, objectName) := obj]>
                                   (fMergeableCollection task)) task)
       end)
    ∧ match fMergeableCollection task !! (identifier, objectName) with
      | Some o => obj = o
      | None =>
          GetName obj = objectName
          ∧ content obj = (if decide (objectName = "DimuSparse"%string)
                           then Sparse (fSparse task) else Histo1 0)
      end
    ∧ fMergeableCollection (GetMergeableObject identifier objectName task).2
        !! (identifier, objectName) = Some obj
    ∧ (∀ k, k ≠ (identifier, objectName) →
            fMergeableCollection (GetMergeableObject identifier objectName task).2 !! k
            = fMergeableCollection task !! k)
    ∧ GetMergeableObject identifier objectName
                         (GetMergeableObject identifier objectName task).2
      = (Some obj, (GetMergeableObject identifier objectName task).2).
Proof.
  intros Hname.
  destruct (fMergeableCollection task !! (identifier, objectName)) as [o|] eqn:Hget.
  - assert (Heq : GetMergeableObject identifier objectName task = (Some o, task)).
    { unfold GetMergeableObject, GetObject. by rewrite Hget. }
    exists o. rewrite Heq. cbn [snd]. by rewrite Heq.
  - set (obj := {| GetName := objectName;
                   content := if decide (objectName = "DimuSparse"%string)
                              then Sparse (fSparse task) else Histo1 0 |}).
    assert (Heq : GetMergeableObject identifier objectName task
                  = (Some obj,
                     call AliInfo_collection_size
                          (set_collection (<[(identifier, objectName) := obj]>
                                             (fMergeableCollection task)) task))).
    { unfold GetMergeableObject, GetObject. rewrite Hget.
      destruct Hname as [-> | ->]; cbn; by rewrite Hget. }
    exists obj. rewrite Heq. cbn [snd].
    split; [done|]. split; [done|].
    split; [cbn; by rewrite lookup_insert_eq|].
    split; [intros k Hk; cbn; by rewrite lookup_insert_ne|].
    unfold GetMergeableObject, GetObject. cbn. by rewrite lookup_insert_eq.
Qed.

Lemma GetMergeableObject_creates_once_witness :
  ∃ obj : TObject,
    (GetMergeableObject "/CMUL7-B-NOPF-MUON" "nevents" task0).1 = Some obj
    ∧ content obj = Histo1 0.
Proof.
  destruct (GetMergeableObject_creates_once "/CMUL7-B-NOPF-MUON" "nevents" task0)
    as (obj & Heq & Hnew & _); [by right|].
  exists obj. split; [by rewrite Heq|]. exact (proj2 Hnew).
Defined.

(** ** The window in azimuth of a pair *)

(** X15. For a pair with a valid raw azimuth from [-Pi] to [Pi], the azimuth
    that is stored is a finite number; its distance to a tracklet with a
    finite azimuth is a number, so the test of line 344 never compares a
    value that is not a number; and the tracklet is counted exactly when
    the difference of the two azimuths, taken as numbers without
    wrap-around at [2.*Pi], lies from [-Pi/2.] to [Pi/2.]. *)
Theorem pair_window_spec (rawPhi : Double_t) (trk : Tracklet) :
  valid rawPhi = true →
  le (opp TMath.Pi) rawPhi = true →
  le rawPhi TMath.Pi = true →
  is_finite (GetPhi trk) = true →
  is_finite (phi_of_pair rawPhi) = true
  ∧ is_number (phi_distance (phi_of_pair rawPhi) trk)
  ∧ (tracklet_is_far (phi_of_pair rawPhi) trk = false
     ↔ le (opp (div TMath.Pi two)) (sub (phi_of_pair rawPhi) (GetPhi trk)) = true
       ∧ le (sub (phi_of_pair rawPhi) (GetPhi trk)) (div TMath.Pi two) = true).
Proof.
  intros Hv Hlo Hhi Ht.
  assert (Hfin : is_finite (phi_of_pair rawPhi) = true).
  { unfold phi_of_pair. destruct rawPhi as [s|s| |s m e].
    - by destruct s.
    - destruct s; discriminate.
    - discriminate.
    - destruct s.
      + change (lt (S754_finite true m e) zero) with true. cbv iota.
        by destruct (add_negative_twoPi m e Hv Hlo) as (r & e' & -> & _).
      + reflexivity. }
  split; [exact Hfin|].
  split; [exact (phi_distance_number _ trk Hfin Ht)|].
  by apply tracklet_is_far_bounds.
Qed.

Lemma pair_window_spec_witness :
  tracklet_is_far (phi_of_pair (opp (of_Z 1)))
                  {| GetPhi := five; CalcDist := three |} = false
  ∧ tracklet_is_far (phi_of_pair (opp (of_Z 1)))
                    {| GetPhi := three; CalcDist := three |} = true.
Proof.
  split.
  - apply (proj2 (proj2 (pair_window_spec (opp (of_Z 1))
                           {| GetPhi := five; CalcDist := three |}
                           eq_refl eq_refl eq_refl eq_refl))).
    split; reflexivity.
  - destruct (tracklet_is_far (phi_of_pair (opp (of_Z 1)))
                              {| GetPhi := three; CalcDist := three |}) eqn:E;
      [reflexivity|].
    apply (proj2 (proj2 (pair_window_spec (opp (of_Z 1))
                           {| GetPhi := three; CalcDist := three |}
                           eq_refl eq_refl eq_refl eq_refl))) in E.
    destruct E as [_ E]. vm_compute in E. discriminate E.
Defined.

(** ** The axes of the template *)

(** X16. The template that [UserCreateOutputObjects] creates has the six axes
    of the task and no entry, and the collection is empty. Each axis has
    one edge more than bins; the edges are computed in double precision and
    are strictly increasing; the first edge is the lower limit of the axis
    and the last edge is exactly its upper limit, [2.*Pi] for the
    azimuth. *)
Theorem UserCreateOutputObjects_axes (Form_g : Double_t → string) (task : Task) :
  Forall2 (λ (edges : list Double_t) (b : Z * Double_t * Double_t),
             Z.of_nat (length edges) = b.1.1 + 1
             ∧ head edges = Some b.1.2
             ∧ last edges = Some b.2
             ∧ increasing edges = true)
          (sparse_axes (fSparse (UserCreateOutputObjects Form_g task)))
          axis_bounds
  ∧ sparse_bins (fSparse (UserCreateOutputObjects Form_g task)) = ∅
  ∧ fMergeableCollection (UserCreateOutputObjects Form_g task) = ∅.
Proof.
  split; [|by split].
  change (sparse_axes (fSparse (UserCreateOutputObjects Form_g task)))
    with axes_of_fSparse.
  unfold axes_of_fSparse, axis_bounds.
  repeat (apply Forall2_cons; split; [repeat split; vm_compute; reflexivity|]).
  by apply Forall2_nil.
Qed.
